(** * dfms: the composite drop manager and its reachability probe

    A shallow embedding of [dfms/utils.py] ([portIsOpen],
    [writeToRemotePort]) and of [dfms/manager/composite_manager.py]
    ([CompositeManager], [DataIslandManager], [MasterManager]) together with
    the properties of the design document that concern them.

    Python objects that are shared and mutated (the host lists, the drop
    specification dictionaries) live in an explicit store; everything a
    method does to the outside (probing a port, running a command over SSH,
    a call on a child manager) is recorded in a trace and answered by an
    environment that may look at the whole history. *)

From Stdlib Require Import ZArith Lia.
From stdpp Require Import base strings gmap list pretty.

Set Warnings "-register-all".

(** ** Exceptions and results *)

(** The [errno] values the code tells apart; every other one is [EOTHER]. *)
Inductive errno :=
| ECONNRESET
| ECONNREFUSED
| EOTHER (code : Z).

(** The exceptions that the modelled code raises or lets through.
    [DaliugeException] is raised with a message and, in [deploySession], a
    second argument (a set of uids or a host-to-exception dictionary);
    [SubManagerException] takes the message and the host-to-exception
    dictionary.  [RemoteError] stands for whatever a child manager, the SSH
    layer or a client reports. *)
Inductive exn :=
| KeyError (key : string)
| ValueError (msg : string)
| TypeError (msg : string)
| SocketError (e : errno)
| RemoteError (msg : string)
| InvalidGraphException (msg : string)
| DaliugeException (msg : string) (arg : exn_arg)
| SubManagerException (msg : string) (errors : list (string * exn))
with exn_arg :=
| NoArg
| UidsArg (uids : gset string)
| ErrorsArg (errors : list (string * exn)).

Inductive outcome (A : Type) :=
| Ret (a : A)
| Raise (e : exn).
Arguments Ret {A} a.
Arguments Raise {A} e.

Definition is_raise {A} (o : outcome A) : Prop :=
  match o with Raise _ => True | Ret _ => False end.

(** ** [dfms/utils.py] *)

Module Utils.

(** What one pass through [socket(); settimeout(); connect(); send(); close()]
    ends in. *)
Inductive sock_result :=
| SockOk
| SockTimeout
| SockError (e : errno).

(** The network and the clock.  Times are in milliseconds.  [tick k] is the
    time that has gone by when the clock is read for the [k]-th time since it
    was last read or slept on; [connect n] is how the [n]-th connection
    attempt ends, [send n] how sending on the [n]-th connection ends. *)
Record net := {
  tick : nat -> Z;
  connect : nat -> sock_result;
  send : nat -> sock_result;
}.

Record clock := {
  now : Z;
  reads : nat;
  attempts : nat;
  sleeps : nat;
}.

Section WithNet.
Variable W : net.

(** [time.time()] *)
Definition time_time (c : clock) : Z * clock :=
  let t := (now c + tick W (reads c))%Z in
  (t, {| now := t; reads := S (reads c); attempts := attempts c; sleeps := sleeps c |}).

(** [time.sleep(0.1)] *)
Definition time_sleep (ms : Z) (c : clock) : clock :=
  {| now := (now c + ms)%Z; reads := reads c; attempts := attempts c; sleeps := S (sleeps c) |}.

(** The body of the [try]: connect, send the data if there is some, close. *)
Definition try_socket (data : option string) (c : clock) : sock_result * clock :=
  let n := attempts c in
  let c' := {| now := now c; reads := reads c; attempts := S n; sleeps := sleeps c |} in
  match connect W n with
  | SockOk =>
      match data with
      | Some _ => (send W n, c')
      | None => (SockOk, c')
      end
  | r => (r, c')
  end.

(** The [while True] loop of [writeToRemotePort]; [None] when [fuel] passes
    through the loop do not reach a [return] or a [raise]. *)
Fixpoint writeToRemotePort_loop (fuel : nat) (data : option string)
    (timeout : option Z) (start : Z) (c : clock) : option (outcome bool * clock) :=
  match fuel with
  | O => None
  | S fuel' =>
      let attempt (c1 : clock) :=
        let '(r, c2) := try_socket data c1 in
        match r with
        | SockOk => Some (Ret true, c2)
        | SockTimeout => Some (Ret false, c2)
        | SockError ECONNRESET => Some (Ret false, c2)
        | SockError ECONNREFUSED =>
            match timeout with
            | Some t =>
                let '(t1, c3) := time_time c2 in
                if bool_decide (t1 - start > t)%Z then Some (Ret false, c3)
                else writeToRemotePort_loop fuel' data timeout start (time_sleep 100 c3)
            | None =>
                writeToRemotePort_loop fuel' data timeout start (time_sleep 100 c2)
            end
        | SockError e => Some (Raise (SocketError e), c2)
        end in
      match timeout with
      | Some t =>
          if bool_decide (t ≠ 0%Z) then
            let '(t0, c1) := time_time c in
            let thisTimeout := (t - (t0 - start))%Z in
            if bool_decide (thisTimeout ≤ 0)%Z then Some (Ret false, c1)
            else attempt c1
          else attempt c
      | None => attempt c
      end
  end.

Definition writeToRemotePort (fuel : nat) (data : option string)
    (timeout : option Z) (c : clock) : option (outcome bool * clock) :=
  let '(start, c0) := time_time c in
  writeToRemotePort_loop fuel data timeout start c0.

Definition portIsOpen (fuel : nat) (timeout : option Z) (c : clock)
  : option (outcome bool * clock) :=
  writeToRemotePort fuel None timeout c.

(** A pass through the loop gets as far as the connection: there is no
    deadline to check (no timeout, or a timeout of zero), or the deadline has
    not been reached when the clock is read. *)
Definition in_time (timeout : option Z) (start : Z) (c : clock) : Prop :=
  match timeout with
  | Some t => t = 0%Z \/ (now c + tick W (reads c) - start < t)%Z
  | None => True
  end.

(** The clock when the connection is attempted in that pass. *)
Definition at_attempt (timeout : option Z) (c : clock) : clock :=
  match timeout with
  | Some t => if bool_decide (t ≠ 0%Z) then (time_time c).2 else c
  | None => c
  end.

End WithNet.

(** [s.replace(old, new)] when [old] is one character. *)
Fixpoint replace_char (old : Ascii.ascii) (new : string) (s : string) : string :=
  match s with
  | EmptyString => EmptyString
  | String c s' =>
      if bool_decide (c = old) then new +:+ replace_char old new s'
      else String c (replace_char old new s')
  end.

Definition single_quote : Ascii.ascii := Ascii.ascii_of_nat 39.
Definition double_quote : Ascii.ascii := Ascii.ascii_of_nat 34.
Definition backslash : Ascii.ascii := Ascii.ascii_of_nat 92.

(** [escapeQuotes(s, singleQuotes, doubleQuotes)]: a single quote becomes
    quote, backslash, quote, quote; a double quote becomes backslash,
    quote. *)
Definition escapeQuotes (s : string) (singleQuotes doubleQuotes : bool) : string :=
  let s :=
    if singleQuotes then
      replace_char single_quote
        (String single_quote (String backslash (String single_quote
           (String single_quote EmptyString)))) s
    else s in
  let s :=
    if doubleQuotes then
      replace_char double_quote (String backslash (String double_quote EmptyString)) s
    else s in
  s.

(** [prepare_sql(sql, paramstyle, data)].  What a call ends in: a value, or an
    exception of some class with its message. *)
Inductive result (A : Type) :=
| Returns (a : A)
| Throws (class msg : string).
Arguments Returns {A} a.
Arguments Throws {A} class msg.

(** The values to bind: the sequence as it was given, or a dictionary. *)
Inductive bound (V : Type) :=
| Positional (data : list V)
| Named (data : gmap string V).
Arguments Positional {V} data.
Arguments Named {V} data.

Section PrepareSql.
Context {V : Type}.

(** [sql.format] of the standard library, applied to the markers. *)
Variable format : string -> list string -> result string.

Definition markers (paramstyle : string) (n : nat) : result (list string) :=
  if bool_decide (paramstyle = "qmark") then Returns ((fun _ => "?") <$> seq 0 n)
  else if bool_decide (paramstyle = "numeric") then
    Returns ((fun i => ":" +:+ pretty i) <$> seq 0 n)
  else if bool_decide (paramstyle = "named") then
    Returns ((fun i => ":n" +:+ pretty i) <$> seq 0 n)
  else if bool_decide (paramstyle = "format") then Returns ((fun _ => ":%s") <$> seq 0 n)
  else if bool_decide (paramstyle = "pyformat") then
    Returns ((fun i => ":%(n" +:+ pretty i +:+ ")s") <$> seq 0 n)
  else Throws "Exception" ("Unknown paramstyle: " +:+ paramstyle).

(** [{'n%d'%(i): d for i,d in enumerate(data)}] *)
Definition named_data (data : list V) : gmap string V :=
  foldl (fun d id => <["n" +:+ pretty id.1 := id.2]> d) ∅ (zip (seq 0 (length data)) data).

Definition prepare_sql (sql paramstyle : string) (data : list V)
  : result (string * bound V) :=
  let n := length data in
  if bool_decide (n = 0) then Returns (sql, Positional [])
  else
    match markers paramstyle n with
    | Throws c m => Throws c m
    | Returns ms =>
        match format sql ms with
        | Throws c m => Throws c m
        | Returns sql' =>
            if bool_decide (paramstyle ∈ ["format"; "pyformat"]) then
              Returns (sql', Named (named_data data))
            else Returns (sql', Positional data)
        end
    end.

End PrepareSql.

(** [terminate_or_kill(proc, timeout)].  What is done to the process, in
    order; [exited k] tells whether the [k]-th [proc.poll()] finds that the
    process has ended, and [max_loops] is the value of
    [math.ceil(timeout/0.1)]. *)
Inductive proc_event := Terminate | Poll | Sleep | Kill | Wait.

#[global] Instance proc_event_eq_dec : EqDecision proc_event.
Proof. solve_decision. Defined.

(** The [while] loop: the number of loops waited and the events, or [None]
    when [fuel] passes do not end it. *)
Fixpoint terminate_or_kill_loop (fuel : nat) (exited : nat -> bool) (max_loops : Z)
    (polls waitLoops : nat) (events : list proc_event)
  : option (nat * list proc_event) :=
  match fuel with
  | O => None
  | S fuel' =>
      if exited polls then Some (waitLoops, events ++ [Poll])
      else if bool_decide (Z.of_nat waitLoops < max_loops)%Z then
        terminate_or_kill_loop fuel' exited max_loops (S polls) (S waitLoops)
          (events ++ [Poll; Sleep])
      else Some (waitLoops, events ++ [Poll])
  end.

Definition terminate_or_kill (fuel : nat) (exited : nat -> bool) (max_loops : Z)
  : option (list proc_event) :=
  match terminate_or_kill_loop fuel exited max_loops 0 0 [Terminate] with
  | None => None
  | Some (waitLoops, events) =>
      let kill9 := bool_decide (Z.of_nat waitLoops = max_loops) in
      Some ((if kill9 then events ++ [Kill] else events) ++ [Wait])
  end.

(** A network on which every connection is refused and no time goes by
    except in [sleep], one on which every connection ends in the same way,
    and the clock at the start. *)
Definition refusing : net :=
  {| tick := fun _ => 0%Z; connect := fun _ => SockError ECONNREFUSED; send := fun _ => SockOk |}.
Definition fails_with (r : sock_result) : net :=
  {| tick := fun _ => 1%Z; connect := fun _ => r; send := fun _ => SockOk |}.
Definition clock0 : clock := {| now := 0; reads := 0; attempts := 0; sleeps := 0 |}.

(** How often a character occurs in a string. *)
Fixpoint count_char (c : Ascii.ascii) (s : string) : nat :=
  match s with
  | EmptyString => 0
  | String x s' => (if bool_decide (x = c) then 1 else 0) + count_char c s'
  end.

(** Every double quote of [s] comes right after a backslash;
    [after_backslash] tells whether the character before [s] is one. *)
Fixpoint quotes_guarded (after_backslash : bool) (s : string) : bool :=
  match s with
  | EmptyString => true
  | String x s' =>
      (if bool_decide (x = double_quote) then after_backslash else true)
      && quotes_guarded (bool_decide (x = backslash)) s'
  end.

(** [n] times a poll that finds the process alive and the sleep after it. *)
Definition waited (n : nat) : list proc_event :=
  mjoin (replicate n [Poll; Sleep]).

End Utils.

(** ** [dfms/manager/composite_manager.py] *)

Module Manager.

(** *** Data *)

(** A location in the store of shared Python objects. *)
Definition loc := nat.

(** [DROPRel(lhs, rel, rhs)] of [dfms.ddap_protocol]. *)
Record DROPRel := mkDROPRel { lhs : string; rel : string; rhs : string }.

#[global] Instance DROPRel_eq_dec : EqDecision DROPRel.
Proof. solve_decision. Defined.

(** A drop specification is a dictionary; the keys the manager looks at
    ([oid], [uid], [node], [island]) hold strings, and so do the values of
    this model.  A graph maps a uid to a drop specification.

    [d[k]] on a dictionary. *)
Definition getitem {V} (d : gmap string V) (k : string) : outcome V :=
  match d !! k with
  | Some v => Ret v
  | None => Raise (KeyError k)
  end.

Definition bindO {A B} (o : outcome A) (k : A -> outcome B) : outcome B :=
  match o with
  | Ret a => k a
  | Raise e => Raise e
  end.

Notation "'let?' x ':=' e 'in' k" := (bindO e (fun x => k))
  (at level 10, x name, e at level 100, k at level 200).

Definition uid_for_drop (dropSpec : gmap string string) : outcome string :=
  match dropSpec !! "uid" with
  | Some u => Ret u
  | None => getitem dropSpec "oid"
  end.

(** The loop of [sanitize_relations]; the list is overwritten (the slice
    assignment) only when the loop has gone through, so the result is the new
    content of [interDMRelations], or the exception and the list as it was. *)
Fixpoint sanitize_relations (interDMRelations : list DROPRel)
    (graph : gmap string (gmap string string)) : outcome (list DROPRel) :=
  match interDMRelations with
  | [] => Ret []
  | r :: rels =>
      let? l := getitem graph (lhs r) in
      let? lhs' := uid_for_drop l in
      let? d := getitem graph (rhs r) in
      let? rhs' := uid_for_drop d in
      let new_rel := mkDROPRel lhs' (rel r) rhs' in
      let? newDMRelations := sanitize_relations rels graph in
      Ret (new_rel :: newDMRelations)
  end.

(** [d[k].append(x)] on a [defaultdict(list)]. *)
Definition dd_append {V} (k : string) (x : V) (d : gmap string (list V))
  : gmap string (list V) :=
  <[k := default [] (d !! k) ++ [x]]> d.

Fixpoint group_by_node_loop (uids : list string)
    (graph : gmap string (gmap string string))
    (uids_by_node : gmap string (list string)) : outcome (gmap string (list string)) :=
  match uids with
  | [] => Ret uids_by_node
  | uid :: uids' =>
      let? spec := getitem graph uid in
      let? node := getitem spec "node" in
      group_by_node_loop uids' graph (dd_append node uid uids_by_node)
  end.

Definition group_by_node (uids : list string)
    (graph : gmap string (gmap string string)) : outcome (gmap string (list string)) :=
  group_by_node_loop uids graph ∅.

(** [d[a][b].append(x)] on a [defaultdict] of [defaultdict(list)]. *)
Definition dd2_append {V} (a b : string) (x : V)
    (d : gmap string (gmap string (list V))) : gmap string (gmap string (list V)) :=
  <[a := dd_append b x (default ∅ (d !! a))]> d.

(** Reading [d[a][b]] without creating anything: the empty list when absent. *)
Definition dd2_get {V} (d : gmap string (gmap string (list V))) (a b : string) : list V :=
  default [] (default ∅ (d !! a) !! b).

(** *** The manager object, the store and the outside world *)

Inductive class := CompositeManager | DataIslandManager | MasterManager.

(** The attributes of a manager.  [_dmHosts] and [_nodes] are references to
    list objects, the values of [_graph] references to dictionary objects;
    [_tp] is the number of worker threads of the pool. *)
Record manager := mkManager {
  cls : class;
  _dmPort : Z;
  _partitionAttr : string;
  _dmExec : string;
  _subDmId : string;
  _dmHosts : loc;
  _graph : gmap string loc;
  _drop_rels : gmap string (gmap string (gmap string (list DROPRel)));
  _sessionIds : list string;
  _pkeyPath : option string;
  _dmCheckTimeout : Z;
  _tp : nat;
  _nodes : loc;
}.

(** What a child manager is asked to do. *)
Inductive graph_arg :=
| Specs (specs : list (gmap string string))
| Chars (s : string).

Inductive call :=
| Call_createSession (sessionId : string)
| Call_destroySession (sessionId : string)
| Call_addGraphSpec (sessionId : string) (graphSpec : graph_arg)
| Call_deploySession (sessionId : string)
| Call_add_node_subscriptions (sessionId : string)
    (subscriptions : gmap string (list DROPRel))
| Call_trigger_drops (sessionId : string) (uids : list string)
| Call_getGraphStatus (sessionId : string)
| Call_getGraph (sessionId : string)
| Call_getSessionStatus (sessionId : string)
| Call_getGraphSize (sessionId : string).

(** What a manager does to the outside, in the order in which it does it. *)
Inductive event :=
| Probe (host : string) (port : Z) (timeout : Z)
| Ssh (host : string) (pkeyPath : option string) (command : string)
| Rpc (host : string) (port : Z) (c : call).

(** The values that come back from a child. *)
Inductive pyval :=
| PNone
| PInt (n : Z)
| PStr (s : string)
| PList (l : list pyval)
| PDict (d : list (string * pyval)).

(** The outside: [env_portIsOpen] is [dfms.utils.portIsOpen] on that host and
    port, [env_execRemote] is [remote.createClient] followed by
    [remote.execRemoteWithClient] (standard output, standard error, exit
    status), [env_call] a method of a [NodeManagerClient].  Each answer may
    depend on everything that happened before. *)
Record env := {
  env_portIsOpen : list event -> string -> Z -> Z -> outcome bool;
  env_execRemote : list event -> string -> option string -> string
                   -> outcome (string * string * Z);
  env_call : list event -> string -> Z -> call -> outcome pyval;
}.

Record world := mkWorld {
  self : manager;
  lists : gmap loc (list string);
  dicts : gmap loc (gmap string string);
  trace : list event;
}.

Definition set_self (m : manager) (w : world) : world :=
  mkWorld m (lists w) (dicts w) (trace w).
Definition set_lists (l : gmap loc (list string)) (w : world) : world :=
  mkWorld (self w) l (dicts w) (trace w).
Definition set_dicts (d : gmap loc (gmap string string)) (w : world) : world :=
  mkWorld (self w) (lists w) d (trace w).
Definition log (e : event) (w : world) : world :=
  mkWorld (self w) (lists w) (dicts w) (trace w ++ [e]).

Definition set_graph (g : gmap string loc) (m : manager) : manager :=
  mkManager (cls m) (_dmPort m) (_partitionAttr m) (_dmExec m) (_subDmId m)
    (_dmHosts m) g (_drop_rels m) (_sessionIds m) (_pkeyPath m)
    (_dmCheckTimeout m) (_tp m) (_nodes m).
Definition set_drop_rels (r : gmap string (gmap string (gmap string (list DROPRel))))
    (m : manager) : manager :=
  mkManager (cls m) (_dmPort m) (_partitionAttr m) (_dmExec m) (_subDmId m)
    (_dmHosts m) (_graph m) r (_sessionIds m) (_pkeyPath m)
    (_dmCheckTimeout m) (_tp m) (_nodes m).
Definition set_sessionIds (s : list string) (m : manager) : manager :=
  mkManager (cls m) (_dmPort m) (_partitionAttr m) (_dmExec m) (_subDmId m)
    (_dmHosts m) (_graph m) (_drop_rels m) s (_pkeyPath m)
    (_dmCheckTimeout m) (_tp m) (_nodes m).
Definition set_nodes (n : loc) (m : manager) : manager :=
  mkManager (cls m) (_dmPort m) (_partitionAttr m) (_dmExec m) (_subDmId m)
    (_dmHosts m) (_graph m) (_drop_rels m) (_sessionIds m) (_pkeyPath m)
    (_dmCheckTimeout m) (_tp m) n.

(** The list object behind a reference, and [l.append(x)] on it. *)
Definition list_at (l : loc) (w : world) : list string := default [] (lists w !! l).
Definition list_append (l : loc) (x : string) (w : world) : world :=
  set_lists (<[l := list_at l w ++ [x]]> (lists w)) w.

Definition dict_at (l : loc) (w : world) : gmap string string :=
  default ∅ (dicts w !! l).

(** The graph with its drop specifications read from the store. *)
Definition view (w : world) : gmap string (gmap string string) :=
  (fun l => dict_at l w) <$> _graph (self w).

(** Methods run in a state and exception monad over the world; a raised
    exception leaves the world as it was when it was raised. *)
Definition M (A : Type) : Type := world -> outcome A * world.

Definition ret {A} (a : A) : M A := fun w => (Ret a, w).
Definition raise {A} (e : exn) : M A := fun w => (Raise e, w).
Definition bind {A B} (m : M A) (k : A -> M B) : M B :=
  fun w =>
    match m w with
    | (Ret a, w') => k a w'
    | (Raise e, w') => (Raise e, w')
    end.
Definition lift {A} (o : outcome A) : M A := fun w => (o, w).
Definition get : M world := fun w => (Ret w, w).
Definition modify (f : world -> world) : M unit := fun w => (Ret tt, f w).

Notation "'do' x '<-' m ';' k" := (bind m (fun x => k))
  (at level 10, x name, m at level 100, k at level 200).
Notation "m ';;' k" := (bind m (fun _ => k))
  (at level 100, k at level 200, right associativity).

(** *** The thread pool

    [ThreadPool.map(f, iterable)] of [multiprocessing.pool]: the items are
    cut into tasks of [chunksize] items, a worker runs a task with the
    built-in [map], which stops at the first item that raises, and [map] of
    the pool raises the exception of a task that failed.  Here the tasks run
    one after the other in the order of the list, which is one of the
    schedules of the pool, and the first failure is the one that is raised.
    The state [St] is what the workers share: the world and the dictionaries
    and lists that [functools.partial] hands to each of them. *)
Section Pool.
Context {St A : Type}.
Variable f : A -> St -> outcome unit * St.

Fixpoint mapstar (chunk : list A) (s : St) : outcome unit * St :=
  match chunk with
  | [] => (Ret tt, s)
  | x :: chunk' =>
      match f x s with
      | (Ret _, s') => mapstar chunk' s'
      | (Raise e, s') => (Raise e, s')
      end
  end.

Fixpoint _get_tasks (fuel size : nat) (it : list A) : list (list A) :=
  match fuel with
  | O => []
  | S fuel' =>
      match take size it with
      | [] => []
      | x => x :: _get_tasks fuel' size (drop size it)
      end
  end.

Definition chunksize (len n_threads : nat) : nat :=
  if bool_decide (len = 0) then 0
  else
    let chunksize := len `div` (n_threads * 4) in
    let extra := len `mod` (n_threads * 4) in
    if bool_decide (extra ≠ 0) then S chunksize else chunksize.

Fixpoint run_tasks (tasks : list (list A)) (s : St) : option exn * St :=
  match tasks with
  | [] => (None, s)
  | t :: tasks' =>
      let '(o, s1) := mapstar t s in
      let '(err, s2) := run_tasks tasks' s1 in
      (match o with Raise e => Some e | Ret _ => err end, s2)
  end.

Definition tp_map (n_threads : nat) (iterable : list A) (s : St) : outcome unit * St :=
  let tasks :=
    _get_tasks (length iterable) (chunksize (length iterable) n_threads) iterable in
  match run_tasks tasks s with
  | (Some e, s') => (Raise e, s')
  | (None, s') => (Ret tt, s')
  end.

End Pool.

(** [self._tp.map(functools.partial(f, shared...), iterable)] as a method:
    [shared] is the initial content of the objects bound by [partial], the
    result their content afterwards. *)
Definition pool_map {A L} (f : A -> world * L -> outcome unit * (world * L))
    (iterable : list A) (shared : L) : M L :=
  fun w =>
    match tp_map f (_tp (self w)) iterable (w, shared) with
    | (Ret _, (w', l)) => (Ret l, w')
    | (Raise e, (w', _)) => (Raise e, w')
    end.

(** *** The methods *)

(** A [NodeManagerClient(host, port, 10)]. *)
Record client := NodeManagerClient { c_host : string; c_port : Z }.

(** An element of the iterable of [replicate]: a host, or a pair of a host
    and its part of the graph. *)
Inductive item :=
| Host (host : string)
| HostAnd (host : string) (graphSpec : list (gmap string string)).

(** What [collect] of [replicate] is bound to. *)
Inductive collector :=
| NoCollect
| IntoDict (d : gmap string pyval)
| IntoList (l : list pyval).

(** [collect.update(res)] and [collect.append(res)]. *)
Definition collect_result (collect : collector) (res : pyval) : outcome collector :=
  match collect with
  | IntoDict d =>
      match res with
      | PDict kvs => Ret (IntoDict (foldl (fun d kv => <[kv.1 := kv.2]> d) d kvs))
      | _ => Raise (TypeError "object is not a mapping")
      end
  | IntoList l => Ret (IntoList (l ++ [res]))
  | NoCollect => Ret NoCollect
  end.

(** [l.remove(x)] *)
Fixpoint list_remove (x : string) (l : list string) : outcome (list string) :=
  match l with
  | [] => Raise (ValueError "list.remove(x): x not in list")
  | y :: l' =>
      if bool_decide (y = x) then Ret l'
      else let? r := list_remove x l' in Ret (y :: r)
  end.

(** [host, graphSpec = host_and_graphspec]: a pair is taken apart; a string
    of two characters too, any other string cannot be unpacked. *)
Definition unpack (host_and_graphspec : item) : outcome (string * graph_arg) :=
  match host_and_graphspec with
  | HostAnd h g => Ret (h, Specs g)
  | Host (String a (String b EmptyString)) =>
      Ret (String a EmptyString, Chars (String b EmptyString))
  | Host (String _ (String _ (String _ _))) =>
      Raise (ValueError "too many values to unpack")
  | Host (String _ EmptyString) =>
      Raise (ValueError "need more than 1 value to unpack")
  | Host EmptyString => Raise (ValueError "need more than 0 values to unpack")
  end.

(** [sum(allCounts)] *)
Fixpoint sum (allCounts : list pyval) : outcome Z :=
  match allCounts with
  | [] => Ret 0%Z
  | PInt n :: rest => let? s := sum rest in Ret (n + s)%Z
  | _ :: _ => Raise (TypeError "unsupported operand type(s) for +")
  end.

(** The calls that a client of the manager can make, and a run of them; an
    exception ends a call, not the run. *)
Inductive request :=
| Req_createSession (sessionId : string)
| Req_destroySession (sessionId : string)
| Req_addGraphSpec (sessionId : string) (graphSpec : list (gmap string string))
| Req_deploySession (sessionId : string) (completedDrops : list string)
| Req_getGraphStatus (sessionId : string)
| Req_getGraph (sessionId : string)
| Req_getSessionStatus (sessionId : string)
| Req_getGraphSize (sessionId : string)
| Req_addDmHost (host : string)
| Req_add_node (node : string)
| Req_remove_node (node : string).

Section Methods.

(** The outside world, and what the module imports from modules that are not
    part of this development: [graph_loader.removeUnmetRelationships] (the
    drop specifications as it leaves them, and the relationships it took
    out), [graph_loader.addLink], and the two ports of
    [dfms.manager.constants]. *)
Variable E : env.
Variable removeUnmetRelationships :
  list (gmap string string) -> list (gmap string string) * list DROPRel.
Variable addLink : string -> pyval -> string -> outcome pyval.
Variable NODE_DEFAULT_REST_PORT : Z.
Variable ISLAND_DEFAULT_REST_PORT : Z.

Definition portIsOpen (host : string) (port : Z) (timeout : Z) : M bool :=
  fun w => (env_portIsOpen E (trace w) host port timeout, log (Probe host port timeout) w).

Definition execRemote (host : string) (pkeyPath : option string) (command : string)
  : M (string * string * Z) :=
  fun w => (env_execRemote E (trace w) host pkeyPath command,
            log (Ssh host pkeyPath command) w).

(** A method called on a client. *)
Definition invoke (dm : client) (c : call) : M pyval :=
  fun w => (env_call E (trace w) (c_host dm) (c_port dm) c,
            log (Rpc (c_host dm) (c_port dm) c) w).

Definition dmHosts : M (list string) :=
  do w <- get; ret (list_at (_dmHosts (self w)) w).

Definition addDmHost (host : string) : M unit :=
  do w <- get; modify (list_append (_dmHosts (self w)) host).

Definition nodes : M (list string) :=
  do w <- get; ret (list_at (_nodes (self w)) w).

Definition CompositeManager_add_node (node : string) : M unit :=
  do w <- get; modify (list_append (_nodes (self w)) node).

Definition DataIslandManager_add_node (node : string) : M unit :=
  CompositeManager_add_node node;;
  do w <- get; modify (list_append (_dmHosts (self w)) node).

(** [self.add_node(node)]: the method of the class of the object. *)
Definition add_node (node : string) : M unit :=
  do w <- get;
  match cls (self w) with
  | DataIslandManager => DataIslandManager_add_node node
  | _ => CompositeManager_add_node node
  end.

Definition remove_node (node : string) : M unit :=
  do w <- get;
  do l <- lift (list_remove node (list_at (_nodes (self w)) w));
  modify (set_lists (<[_nodes (self w) := l]> (lists w))).

Definition dmPort : M Z := do w <- get; ret (_dmPort (self w)).

Definition subDMCommandLine (host : string) : M string :=
  do w <- get;
  ret (_dmExec (self w) +:+ " -i " +:+ _subDmId (self w) +:+ " -P "
       +:+ pretty (_dmPort (self w)) +:+ " -d --host " +:+ host).

Definition startDM (host : string) : M unit :=
  do w <- get;
  do cmd <- subDMCommandLine host;
  do r <- execRemote host (_pkeyPath (self w)) cmd;
  let '(out, err, status) := r in
  if bool_decide (status ≠ 0%Z) then
    raise (DaliugeException
             ("Failed to start the DM on " +:+ host +:+ ":" +:+ pretty (_dmPort (self w)))
             NoArg)
  else ret tt.

Definition ensureDM (host : string) (timeout : Z) : M unit :=
  do w <- get;
  do open <- portIsOpen host (_dmPort (self w)) timeout;
  if open then ret tt
  else
    startDM host;;
    do open' <- portIsOpen host (_dmPort (self w)) timeout;
    if negb open' then
      raise (DaliugeException
               ("DM started at " +:+ host +:+ ":" +:+ pretty (_dmPort (self w))
                +:+ ", but couldn't connect to it") NoArg)
    else ret tt.

(** One pass of [_checkDM] over the hosts: [is_set i] is what
    [self._dmCheckerEvt.is_set()] answers before the [i]-th host; whatever
    [ensureDM] raises is logged and dropped. *)
Fixpoint _checkDM_hosts (is_set : nat -> bool) (i : nat) (hosts : list string) : M unit :=
  match hosts with
  | [] => ret tt
  | host :: hosts' =>
      if is_set i then ret tt
      else
        fun w =>
          let r := ensureDM host (_dmCheckTimeout (self w)) w in
          _checkDM_hosts is_set (S i) hosts' r.2
  end.

Definition _checkDM_pass (is_set : nat -> bool) : M unit :=
  do w <- get; _checkDM_hosts is_set 0 (list_at (_dmHosts (self w)) w).

(** [port = port or self._dmPort] *)
Definition dmAt (host : string) (port : option Z) : M client :=
  do w <- get;
  let port :=
    match port with
    | Some p => if bool_decide (p = 0%Z) then _dmPort (self w) else p
    | None => _dmPort (self w)
    end in
  ret (NodeManagerClient host port).

Definition getSessionIds : M (list string) :=
  do w <- get; ret (_sessionIds (self w)).

Definition item_host (iterable : item) : string :=
  match iterable with
  | Host h => h
  | HostAnd h _ => h
  end.

(** The [try] block of [_do_in_host]: the result is [collect] as this call
    leaves it. *)
Definition _do_in_host_try (sessionId : string) (f : client -> item -> string -> M pyval)
    (iterable : item) (collect : collector) : M collector :=
  let host := item_host iterable in
  ensureDM host 10;;
  do dm <- dmAt host None;
  do res <- f dm iterable sessionId;
  lift (collect_result collect res).

(** One call of [_do_in_host] in a worker; [exceptions] and [collect] are the
    objects shared with [replicate].  The exception is recorded and raised
    again. *)
Definition _do_in_host (sessionId : string) (f : client -> item -> string -> M pyval)
    (iterable : item) (s : world * (gmap string exn * collector))
  : outcome unit * (world * (gmap string exn * collector)) :=
  let '(w, (exceptions, collect)) := s in
  let host := item_host iterable in
  match _do_in_host_try sessionId f iterable collect w with
  | (Ret collect', w') => (Ret tt, (w', (exceptions, collect')))
  | (Raise e, w') => (Raise e, (w', (<[host := e]> exceptions, collect)))
  end.

(** [iterable = iterable or self._dmHosts]: no iterable, or an empty one,
    stands for the hosts.  The result is [collect] as the workers left it. *)
Definition replicate (sessionId : string) (f : client -> item -> string -> M pyval)
    (action : string) (collect : collector) (iterable : list item) : M collector :=
  do w <- get;
  let iterable :=
    match iterable with
    | [] => Host <$> list_at (_dmHosts (self w)) w
    | _ => iterable
    end in
  do r <- pool_map (_do_in_host sessionId f) iterable (∅, collect);
  let '(thrExs, collect') := r in
  match map_to_list thrExs with
  | [] => ret collect'
  | errors =>
      let msg := "One or more errors occurred while " +:+ action
                 +:+ " on session " +:+ sessionId in
      raise (SubManagerException msg errors)
  end.

(** The functions that [replicate] runs on each child. *)
Definition _createSession (dm : client) (host : item) (sessionId : string) : M pyval :=
  invoke dm (Call_createSession sessionId);; ret PNone.

Definition createSession (sessionId : string) : M unit :=
  replicate sessionId _createSession "creating sessions" NoCollect [];;
  modify (fun w => set_self (set_sessionIds (_sessionIds (self w) ++ [sessionId]) (self w)) w).

Definition _destroySession (dm : client) (host : item) (sessionId : string) : M pyval :=
  invoke dm (Call_destroySession sessionId);; ret PNone.

Definition destroySession (sessionId : string) : M unit :=
  replicate sessionId _destroySession "creating sessions" NoCollect [];;
  do w <- get;
  do l <- lift (list_remove sessionId (_sessionIds (self w)));
  modify (set_self (set_sessionIds l (self w))).

Definition _add_node_subscriptions (dm : client)
    (host_and_subscriptions : string * gmap string (list DROPRel))
    (sessionId : string) : M pyval :=
  let '(host, subscriptions) := host_and_subscriptions in
  invoke dm (Call_add_node_subscriptions sessionId subscriptions);; ret PNone.

Definition _addGraphSpec (dm : client) (host_and_graphspec : item)
    (sessionId : string) : M pyval :=
  do hg <- lift (unpack host_and_graphspec);
  let '(host, graphSpec) := hg in
  invoke dm (Call_addGraphSpec sessionId graphSpec);; ret PNone.

(** The first loop of [addGraphSpec], over references to the drop
    specifications of [graphSpec]. *)
Fixpoint addGraphSpec_partition (graphSpec : list loc)
    (perPartition : gmap string (list loc)) : M (gmap string (list loc)) :=
  match graphSpec with
  | [] => ret perPartition
  | l :: graphSpec' =>
      do w <- get;
      let dropSpec := dict_at l w in
      let attr := _partitionAttr (self w) in
      match dropSpec !! attr with
      | None =>
          do oid <- lift (getitem dropSpec "oid");
          raise (InvalidGraphException
                   ("DROP " +:+ oid +:+ " doesn't specify a " +:+ attr +:+ " attribute"))
      | Some partition =>
          if bool_decide (partition ∈ list_at (_dmHosts (self w)) w) then
            do uid <- lift (uid_for_drop dropSpec);
            modify (fun w => set_self (set_graph (<[uid := l]> (_graph (self w))) (self w)) w);;
            addGraphSpec_partition graphSpec' (dd_append partition l perPartition)
          else
            do oid <- lift (getitem dropSpec "oid");
            raise (InvalidGraphException
                     ("DROP " +:+ oid +:+ "'s " +:+ attr +:+ " " +:+ partition
                      +:+ " does not belong to this DM"))
      end
  end.

(** [removeUnmetRelationships] changes the drop specifications of a
    partition where they are, in the store. *)
Definition write_back (dropSpecs : list loc) (contents : list (gmap string string))
    (w : world) : world :=
  set_dicts (foldl (fun d lc => <[lc.1 := lc.2]> d) (dicts w) (zip dropSpecs contents)) w.

Fixpoint addGraphSpec_unmet (partitions : list (list loc)) : M (list DROPRel) :=
  match partitions with
  | [] => ret []
  | dropSpecs :: partitions' =>
      do w <- get;
      let '(contents, rels) :=
        removeUnmetRelationships ((fun l => dict_at l w) <$> dropSpecs) in
      modify (write_back dropSpecs contents);;
      do rels' <- addGraphSpec_unmet partitions';
      ret (rels ++ rels')
  end.

(** The loop that fills [drop_rels]. *)
Fixpoint addGraphSpec_rels (inter_partition_rels : list DROPRel)
    (graph : gmap string (gmap string string))
    (drop_rels : gmap string (gmap string (list DROPRel)))
  : outcome (gmap string (gmap string (list DROPRel))) :=
  match inter_partition_rels with
  | [] => Ret drop_rels
  | r :: rels =>
      let? rspec := getitem graph (rhs r) in
      let? rhn := getitem rspec "node" in
      let? lspec := getitem graph (lhs r) in
      let? lhn := getitem lspec "node" in
      addGraphSpec_rels rels graph
        (dd2_append rhn lhn r (dd2_append lhn rhn r drop_rels))
  end.

Definition addGraphSpec (sessionId : string) (graphSpec : list loc) : M unit :=
  do perPartition <- addGraphSpec_partition graphSpec ∅;
  do inter_partition_rels <- addGraphSpec_unmet ((map_to_list perPartition).*2);
  do w <- get;
  do inter_partition_rels <- lift (sanitize_relations inter_partition_rels (view w));
  do drop_rels <- lift (addGraphSpec_rels inter_partition_rels (view w) ∅);
  modify (fun w => set_self (set_drop_rels (<[sessionId := drop_rels]> (_drop_rels (self w)))
                               (self w)) w);;
  do w <- get;
  replicate sessionId _addGraphSpec "appending graphSpec to individual DMs" NoCollect
    ((fun hl => HostAnd hl.1 ((fun l => dict_at l w) <$> hl.2)) <$> map_to_list perPartition);;
  ret tt.

(** The caller of [addGraphSpec] builds the drop specifications: new objects
    in the store. *)
Fixpoint new_dicts (contents : list (gmap string string)) : M (list loc) :=
  match contents with
  | [] => ret []
  | c :: contents' =>
      do w <- get;
      let l := fresh (dom (dicts w)) in
      modify (set_dicts (<[l := c]> (dicts w)));;
      do ls <- new_dicts contents';
      ret (l :: ls)
  end.

Definition _deploySession (dm : client) (host : item) (sessionId : string) : M pyval :=
  invoke dm (Call_deploySession sessionId);; ret PNone.

Definition _triggerDrops (session_id : string) (host_and_uids : string * list string)
    (s : world * gmap string exn) : outcome unit * (world * gmap string exn) :=
  let '(w, exceptions) := s in
  let '(host, uids) := host_and_uids in
  match dmAt host (Some NODE_DEFAULT_REST_PORT) w with
  | (Ret c, w1) =>
      match invoke c (Call_trigger_drops session_id uids) w1 with
      | (Ret _, w2) => (Ret tt, (w2, exceptions))
      | (Raise e, w2) => (Ret tt, (w2, <[host := e]> exceptions))
      end
  | (Raise e, w1) => (Raise e, (w1, exceptions))
  end.

Definition _add_node_subscriptions_wrapper (sessionId : string)
    (host_and_subscriptions : string * gmap string (list DROPRel))
    (s : world * gmap string exn) : outcome unit * (world * gmap string exn) :=
  let '(w, exceptions) := s in
  let host := host_and_subscriptions.1 in
  match dmAt host (Some NODE_DEFAULT_REST_PORT) w with
  | (Ret dm, w1) =>
      match _add_node_subscriptions dm host_and_subscriptions sessionId w1 with
      | (Ret _, w2) => (Ret tt, (w2, exceptions))
      | (Raise e, w2) => (Ret tt, (w2, <[host := e]> exceptions))
      end
  | (Raise e, w1) => (Raise e, (w1, exceptions))
  end.

(** The three parts of [deploySession], in the order of the method: the
    node subscriptions, the deployment on the children, the completed drops. *)
Definition deploySession_subscriptions (sessionId : string) : M unit :=
  do w <- get;
  do rels <- lift (getitem (_drop_rels (self w)) sessionId);
  match map_to_list rels with
  | [] => ret tt
  | items =>
      do thrExs <- pool_map (_add_node_subscriptions_wrapper sessionId) items ∅;
      match map_to_list thrExs with
      | [] => ret tt
      | errors =>
          raise (DaliugeException
                   ("One or more exceptions occurred while adding node subscription: "
                    +:+ sessionId) (ErrorsArg errors))
      end
  end.

Definition deploySession_deploy (sessionId : string) : M unit :=
  replicate sessionId _deploySession "deploying session" NoCollect [];; ret tt.

Definition deploySession_completed (sessionId : string) (completedDrops : list string)
  : M unit :=
  match completedDrops with
  | [] => ret tt
  | _ =>
      do w <- get;
      let not_found : gset string := list_to_set completedDrops ∖ dom (_graph (self w)) in
      if bool_decide (not_found ≠ ∅) then
        raise (DaliugeException "UIDs for completed drops not found: %r" (UidsArg not_found))
      else
        do completed_by_host <- lift (group_by_node completedDrops (view w));
        do thrExs <- pool_map (_triggerDrops sessionId) (map_to_list completed_by_host) ∅;
        match map_to_list thrExs with
        | [] => ret tt
        | errors =>
            raise (DaliugeException
                     ("One or more exceptions occurred while moving DROPs to COMPLETED: "
                      +:+ sessionId) (ErrorsArg errors))
        end
  end.

Definition deploySession (sessionId : string) (completedDrops : list string) : M unit :=
  deploySession_subscriptions sessionId;;
  deploySession_deploy sessionId;;
  deploySession_completed sessionId completedDrops.

Definition collected_dict (c : collector) : gmap string pyval :=
  match c with IntoDict d => d | _ => ∅ end.
Definition collected_list (c : collector) : list pyval :=
  match c with IntoList l => l | _ => [] end.

Definition _getGraphStatus (dm : client) (host : item) (sessionId : string) : M pyval :=
  invoke dm (Call_getGraphStatus sessionId).

Definition getGraphStatus (sessionId : string) : M (gmap string pyval) :=
  do allStatus <- replicate sessionId _getGraphStatus "getting graph status" (IntoDict ∅) [];
  ret (collected_dict allStatus).

Definition _getGraph (dm : client) (host : item) (sessionId : string) : M pyval :=
  invoke dm (Call_getGraph sessionId).

(** The loop of [getGraph] over the set of recorded relationships. *)
Fixpoint getGraph_links (rels : list DROPRel) (allGraphs : gmap string pyval)
  : outcome (gmap string pyval) :=
  match rels with
  | [] => Ret allGraphs
  | r :: rels' =>
      let? spec := getitem allGraphs (rhs r) in
      let? spec' := addLink (rel r) spec (lhs r) in
      getGraph_links rels' (<[rhs r := spec']> allGraphs)
  end.

Definition getGraph (sessionId : string) : M (gmap string pyval) :=
  do allGraphs <- replicate sessionId _getGraph "getting the graph" (IntoDict ∅) [];
  do w <- get;
  do drop_rels <- lift (getitem (_drop_rels (self w)) sessionId);
  let rels := remove_dups (mjoin (mjoin ((fun x => (map_to_list x).*2)
                                           <$> (map_to_list drop_rels).*2))) in
  lift (getGraph_links rels (collected_dict allGraphs)).

Definition _getSessionStatus (dm : client) (host : item) (sessionId : string) : M pyval :=
  do r <- invoke dm (Call_getSessionStatus sessionId);
  ret (PDict [(item_host host, r)]).

Definition getSessionStatus (sessionId : string) : M (gmap string pyval) :=
  do allStatus <- replicate sessionId _getSessionStatus "getting the graph status"
                    (IntoDict ∅) [];
  ret (collected_dict allStatus).

Definition _getGraphSize (dm : client) (host : item) (sessionId : string) : M pyval :=
  invoke dm (Call_getGraphSize sessionId).

Definition getGraphSize (sessionId : string) : M Z :=
  do allCounts <- replicate sessionId _getGraphSize "getting the graph size" (IntoList []) [];
  lift (sum (collected_list allCounts)).

(** [CompositeManager.__init__]: [dmHosts] is the list object that the caller
    passes, [self._nodes] a new list.  The result is the world with the new
    manager in it (the thread that checks the children is not modelled). *)
Definition CompositeManager_init (c : class) (dmPort : Z)
    (partitionAttr dmExec subDmId : string) (dmHosts : loc)
    (pkeyPath : option string) (dmCheckTimeout : Z)
    (lists0 : gmap loc (list string)) (dicts0 : gmap loc (gmap string string)) : world :=
  let n_threads := 1 `max` (length (default [] (lists0 !! dmHosts)) `min` 20) in
  let nodes := fresh (dom lists0) in
  mkWorld
    (mkManager c dmPort partitionAttr dmExec subDmId dmHosts ∅ ∅ [] pkeyPath
       dmCheckTimeout n_threads nodes)
    (<[nodes := []]> lists0) dicts0 [].

Definition DataIslandManager_init (dmHosts : loc) (pkeyPath : option string)
    (dmCheckTimeout : Z) (lists0 : gmap loc (list string))
    (dicts0 : gmap loc (gmap string string)) : world :=
  let w := CompositeManager_init DataIslandManager NODE_DEFAULT_REST_PORT
             "node" "dfmsNM" "nm" dmHosts pkeyPath dmCheckTimeout lists0 dicts0 in
  set_self (set_nodes dmHosts (self w)) w.

Definition MasterManager_init (dmHosts : loc) (pkeyPath : option string)
    (dmCheckTimeout : Z) (lists0 : gmap loc (list string))
    (dicts0 : gmap loc (gmap string string)) : world :=
  CompositeManager_init MasterManager ISLAND_DEFAULT_REST_PORT
    "island" "dfmsDIM" "dim" dmHosts pkeyPath dmCheckTimeout lists0 dicts0.

Definition handle (r : request) : M unit :=
  match r with
  | Req_createSession sessionId => createSession sessionId
  | Req_destroySession sessionId => destroySession sessionId
  | Req_addGraphSpec sessionId contents =>
      do graphSpec <- new_dicts contents; addGraphSpec sessionId graphSpec
  | Req_deploySession sessionId completedDrops => deploySession sessionId completedDrops
  | Req_getGraphStatus sessionId => getGraphStatus sessionId;; ret tt
  | Req_getGraph sessionId => getGraph sessionId;; ret tt
  | Req_getSessionStatus sessionId => getSessionStatus sessionId;; ret tt
  | Req_getGraphSize sessionId => getGraphSize sessionId;; ret tt
  | Req_addDmHost host => addDmHost host
  | Req_add_node node => add_node node
  | Req_remove_node node => remove_node node
  end.

Fixpoint run (requests : list request) (w : world) : world :=
  match requests with
  | [] => w
  | r :: requests' => run requests' (handle r w).2
  end.

End Methods.

End Manager.

(** ** What the properties are stated with *)

Module Props.
Import Manager.

(** A method [preserves] a relation between the world before and the world
    after when the relation holds whatever the method answers. *)
Definition preserves {A} (R : relation world) (m : M A) : Prop :=
  ∀ w, R w (m w).2.

(** The same for a function that runs in a worker of the pool and shares
    [L] with its caller. *)
Definition worker_preserves {A L} (R : relation world)
    (f : A -> world * L -> outcome unit * (world * L)) : Prop :=
  ∀ x w l, R w (f x (w, l)).2.1.

(** The manager and the store are as they were, and the trace has grown by
    events that satisfy [P]. *)
Definition logs (P : event -> Prop) : relation world :=
  fun w w' =>
    self w' = self w ∧ lists w' = lists w ∧ dicts w' = dicts w
    ∧ ∃ evs, trace w' = trace w ++ evs ∧ Forall P evs.

(** A relation between the manager before and the manager after, as a
    relation between worlds. *)
Definition on_self (Q : relation manager) : relation world :=
  fun w w' => Q (self w) (self w').

(** The class of the object and its two references to lists stay. *)
Definition same_object : relation manager :=
  fun m m' =>
    cls m' = cls m ∧ _dmHosts m' = _dmHosts m ∧ _nodes m' = _nodes m.

(** No inter-partition map appears for that session. *)
Definition keeps_absent (sessionId : string) : relation manager :=
  fun m m' => _drop_rels m !! sessionId = None -> _drop_rels m' !! sessionId = None.

(** A function that [replicate] runs on the children [calls_with] events that
    satisfy [P] when it leaves the manager and the store alone and logs
    such events only. *)
Definition calls_with (P : event -> Prop) (f : client -> item -> string -> M pyval)
  : Prop :=
  ∀ dm it sessionId, preserves (logs P) (f dm it sessionId).

Definition is_trigger_drops (ev : event) : Prop :=
  match ev with
  | Rpc _ _ (Call_trigger_drops _ _) => True
  | _ => False
  end.

(** The fan-out of [replicate] over the hosts succeeds on every child: the
    calls of [_do_in_host], one host after the other, all return. *)
Definition succeeds_on_every_child (E : env) (sessionId : string)
    (f : client -> item -> string -> M pyval) (w : world) : Prop :=
  ∃ s', mapstar (_do_in_host E sessionId f) (Host <$> list_at (_dmHosts (self w)) w)
          (w, (∅, NoCollect)) = (Ret tt, s').

(** The exception [e] is one that the [try] block of [_do_in_host] has raised
    on one of the hosts, as it is. *)
Definition raised_by_a_child (E : env) (sessionId : string)
    (f : client -> item -> string -> M pyval) (w : world) (e : exn) : Prop :=
  ∃ host collect w0,
    host ∈ list_at (_dmHosts (self w)) w
    ∧ (_do_in_host_try E sessionId f (Host host) collect w0).1 = Raise e.

(** The first loop of [addGraphSpec] accepts a drop specification: it has the
    partition attribute, with one of the hosts as its value, and an
    identifier. *)
Definition accepted (w : world) (l : loc) : Prop :=
  ∃ partition uid,
    dict_at l w !! _partitionAttr (self w) = Some partition
    ∧ partition ∈ list_at (_dmHosts (self w)) w
    ∧ uid_for_drop (dict_at l w) = Ret uid.

(** It rejects it: the partition attribute is missing, or is not one of the
    hosts. *)
Definition rejected (w : world) (l : loc) : Prop :=
  match dict_at l w !! _partitionAttr (self w) with
  | None => True
  | Some partition => partition ∉ list_at (_dmHosts (self w)) w
  end.

(** The message of the [InvalidGraphException] for a rejected drop
    specification with that [oid]. *)
Definition rejection (w : world) (l : loc) (oid : string) : string :=
  let attr := _partitionAttr (self w) in
  match dict_at l w !! attr with
  | None => "DROP " +:+ oid +:+ " doesn't specify a " +:+ attr +:+ " attribute"
  | Some partition =>
      "DROP " +:+ oid +:+ "'s " +:+ attr +:+ " " +:+ partition
      +:+ " does not belong to this DM"
  end.

(** The identifier under which a drop specification goes into the graph. *)
Definition uid_of (w : world) (l : loc) : string :=
  match uid_for_drop (dict_at l w) with
  | Ret uid => uid
  | Raise _ => ""
  end.

(** The world with that graph, and the graph once the drop specifications
    [pre] have gone into it, one after the other. *)
Definition with_graph (g : gmap string loc) (w : world) : world :=
  set_self (set_graph g (self w)) w.

Definition graph_after (w : world) (pre : list loc) : gmap string loc :=
  foldl (fun g l => <[uid_of w l := l]> g) (_graph (self w)) pre.

(** The inter-partition map [m] is symmetric. *)
Definition symmetric (m : gmap string (gmap string (list DROPRel))) : Prop :=
  ∀ a b, dd2_get m a b = dd2_get m b a.

Definition all_symmetric (m : manager) : Prop :=
  ∀ s dr, _drop_rels m !! s = Some dr -> symmetric dr.

(** The inter-partition maps stay symmetric. *)
Definition keeps_symmetric : relation manager :=
  fun m m' => all_symmetric m -> all_symmetric m'.

(** Each key of the graph is the identifier of the drop specification that it
    leads to. *)
Definition indexed_by_uid (graph : gmap string (gmap string string)) : Prop :=
  ∀ k spec, graph !! k = Some spec -> uid_for_drop spec = Ret k.

(** The node of the drop specification that the graph has under [uid]. *)
Definition node_of (graph : gmap string (gmap string string)) (uid : string)
  : option string :=
  graph !! uid ≫= (.!! "node").

(** The port at which [deploySession] reaches the nodes:
    [dmAt(host, port=constants.NODE_DEFAULT_REST_PORT)]. *)
Definition leaf_port (NODE_DEFAULT_REST_PORT : Z) (w : world) : Z :=
  if bool_decide (NODE_DEFAULT_REST_PORT = 0%Z) then _dmPort (self w)
  else NODE_DEFAULT_REST_PORT.

(** The calls of [trigger_drops] for the uids grouped by host. *)
Definition trigger_calls (port : Z) (sessionId : string)
    (completed_by_host : gmap string (list string)) : list event :=
  (fun hu => Rpc hu.1 port (Call_trigger_drops sessionId hu.2))
    <$> map_to_list completed_by_host.

(** The sessions to which a request adds a graph are among [allowed]. *)
Definition adds_graph_to (allowed : string -> Prop) (r : request) : Prop :=
  match r with
  | Req_addGraphSpec s _ => allowed s
  | _ => True
  end.

(** No request of a run adds a graph to that session. *)
Definition adds_no_graph (sessionId : string) (r : request) : Prop :=
  adds_graph_to (fun s => s ≠ sessionId) r.

(** An event that only concerns the presence of a child: a probe of its port
    or a command that starts it. *)
Definition is_setup (ev : event) : Prop :=
  match ev with
  | Rpc _ _ _ => False
  | _ => True
  end.

(** The number of worker threads stays. *)
Definition same_pool : relation manager := fun m m' => _tp m' = _tp m.

(** The calls of [add_node_subscriptions] for the hosts of an
    inter-partition map. *)
Definition subscription_calls (port : Z) (sessionId : string)
    (rels : gmap string (gmap string (list DROPRel))) : list event :=
  (fun hs => Rpc hs.1 port (Call_add_node_subscriptions sessionId hs.2))
    <$> map_to_list rels.

(** [removeUnmetRelationships] leaves each drop specification its
    identifier. *)
Definition keeps_ids
    (removeUnmetRelationships :
       list (gmap string string) -> list (gmap string string) * list DROPRel) : Prop :=
  ∀ dropSpecs i before after,
    dropSpecs !! i = Some before ->
    (removeUnmetRelationships dropSpecs).1 !! i = Some after ->
    uid_for_drop after = uid_for_drop before.

(** The graph stays indexed by the identifiers of its drop specifications. *)
Definition stays_indexed : relation world :=
  fun w w' => indexed_by_uid (view w) -> indexed_by_uid (view w').

(** The drop specification at [l] names the host [h] as its partition. *)
Definition in_partition (w : world) (h : string) (l : loc) : Prop :=
  dict_at l w !! _partitionAttr (self w) = Some h.

#[global] Instance in_partition_dec w h l : Decision (in_partition w h l).
Proof. unfold in_partition. apply _. Defined.

(** Both ends of a relationship are keys of the graph. *)
Definition ends_known (graph : gmap string (gmap string string)) (r : DROPRel) : Prop :=
  is_Some (graph !! lhs r) ∧ is_Some (graph !! rhs r).

(** The probe and the call that the fan-out of [replicate] makes on each
    host, in the order of the list. *)
Definition asked (port : Z) (c : call) (hosts : list string) : list event :=
  hosts ≫= fun host => [Probe host port 10; Rpc host port c].

End Props.

(** ** The scenarios of the design document *)

Module Scenarios.
Import Manager.

(** The two ports of [dfms.manager.constants], and a graph loader that finds
    no relationship across partitions. *)
Definition NODE_DEFAULT_REST_PORT : Z := 8000.
Definition ISLAND_DEFAULT_REST_PORT : Z := 8001.
Definition no_unmet (dropSpecs : list (gmap string string))
  : list (gmap string string) * list DROPRel := (dropSpecs, []).
Definition no_link (r : string) (spec : pyval) (l : string) : outcome pyval := Ret spec.

(** Children that are all listening; [fails host c] tells the calls that a
    child answers with an error. *)
Definition children (fails : string -> call -> bool) : env :=
  {| env_portIsOpen := fun _ _ _ _ => Ret true;
     env_execRemote := fun _ _ _ _ => Ret (""%string, ""%string, 0%Z);
     env_call := fun _ host _ c =>
       if fails host c then Raise (RemoteError (host +:+ " failed")) else Ret PNone |}.

Definition all_well : env := children (fun _ _ => false).

Definition h2_fails_createSession : env :=
  children (fun host c =>
    match c with Call_createSession _ => bool_decide (host = "h2") | _ => false end).

Definition h1_fails_destroySession : env :=
  children (fun host c =>
    match c with Call_destroySession _ => bool_decide (host = "h1") | _ => false end).

(** A Data Island Manager over [h1] and [h2]; the list of hosts is the object
    at location 0. *)
Definition island : world :=
  DataIslandManager_init NODE_DEFAULT_REST_PORT 0 None 10 {[ 0 := ["h1"; "h2"] ]} ∅.

Definition do_request (E : env) (r : request) : M unit :=
  handle E no_unmet no_link NODE_DEFAULT_REST_PORT r.

(** Scenario 1: the second drop names a host that is not a child. *)
Definition spec_A_h1 : gmap string string := {[ "oid" := "A"; "node" := "h1" ]}.
Definition spec_B_h3 : gmap string string := {[ "oid" := "B"; "node" := "h3" ]}.

(** Scenario 2: two drops with a [uid] of their own, and the relationship
    between them as the graph loader reports it, with object identifiers. *)
Definition spec_A_uA : gmap string string :=
  {[ "oid" := "A"; "uid" := "uA"; "node" := "h1" ]}.
Definition spec_B_uB : gmap string string :=
  {[ "oid" := "B"; "uid" := "uB"; "node" := "h2" ]}.
Definition rel_A_B : DROPRel := mkDROPRel "A" "STREAM" "B".
Definition unmet_when (marker : gmap string string) (r : DROPRel)
    (dropSpecs : list (gmap string string))
  : list (gmap string string) * list DROPRel :=
  (dropSpecs, if bool_decide (marker ∈ dropSpecs) then [r] else []).
Definition unmet_A_B := unmet_when spec_B_uB rel_A_B.

(** The island after [createSession("s")] on children that are well. *)
Definition island_s : world := (do_request all_well (Req_createSession "s") island).2.

(** Scenarios 5 and 6: two drops that have an [oid] only, one on each host,
    and the relationship between them; the island once that graph has been
    added to the session [s]. *)
Definition spec_B_h2 : gmap string string := {[ "oid" := "B"; "node" := "h2" ]}.
Definition island_graph : world :=
  (handle all_well (unmet_when spec_B_h2 rel_A_B) no_link NODE_DEFAULT_REST_PORT
     (Req_addGraphSpec "s" [spec_A_h1; spec_B_h2]) island_s).2.
Definition island_map : gmap string (gmap string (list DROPRel)) :=
  default ∅ (_drop_rels (self island_graph) !! "s").
Definition island_groups : gmap string (list string) :=
  {[ "h1" := ["A"]; "h2" := ["B"] ]}.

(** The first two parts of [deploySession] on these children. *)
Definition island_deployed : world :=
  (bind (deploySession_subscriptions all_well NODE_DEFAULT_REST_PORT "s")
     (fun _ => deploySession_deploy all_well "s") island_graph).2.

(** Children that are all listening and answer every call with [reply]. *)
Definition answering (reply : string -> call -> outcome pyval) : env :=
  {| env_portIsOpen := fun _ _ _ _ => Ret true;
     env_execRemote := fun _ _ _ _ => Ret (""%string, ""%string, 0%Z);
     env_call := fun _ host _ c => reply host c |}.

(** A Data Island Manager without hosts, and a Master Manager over one
    island. *)
Definition lonely : world :=
  DataIslandManager_init NODE_DEFAULT_REST_PORT 0 None 10 {[ 0 := [] ]} ∅.
Definition master : world :=
  MasterManager_init ISLAND_DEFAULT_REST_PORT 0 None 10 {[ 0 := ["localhost"] ]} ∅.

(** Children of which [h2] answers one kind of call with an error. *)
Definition h2_fails_subscriptions : env :=
  children (fun host c =>
    match c with Call_add_node_subscriptions _ _ => bool_decide (host = "h2") | _ => false end).
Definition h2_fails_trigger_drops : env :=
  children (fun host c =>
    match c with Call_trigger_drops _ _ => bool_decide (host = "h2") | _ => false end).

(** Children of which [h1] answers [deploySession] with an error. *)
Definition h1_fails_deploySession : env :=
  children (fun host c =>
    match c with Call_deploySession _ => bool_decide (host = "h1") | _ => false end).

(** The Master Manager once a graph of one drop has been added to the session
    [s]: the drop specification names its island and no node. *)
Definition spec_A_localhost : gmap string string :=
  {[ "oid" := "A"; "island" := "localhost" ]}.
Definition master_graph : world :=
  (do_request all_well (Req_addGraphSpec "s" [spec_A_localhost]) master).2.

(** The island with the two drop specifications of scenario 5 in the store,
    and the buckets into which the first loop of [addGraphSpec] sorts them. *)
Definition island_specs : world := (new_dicts [spec_A_h1; spec_B_h2] island).2.
Definition island_buckets : gmap string (list loc) := {[ "h1" := [0]; "h2" := [1] ]}.

End Scenarios.

(** * Properties *)

(** ** The reachability probe *)

Section Probe.
Import Utils.
Variable W : net.

Lemma attempts_at_attempt timeout c : attempts (at_attempt W timeout c) = attempts c.
Proof.
  unfold at_attempt. destruct timeout as [t|]; [|done].
  by destruct (bool_decide (t ≠ 0%Z)).
Qed.

Lemma sleeps_at_attempt timeout c : sleeps (at_attempt W timeout c) = sleeps c.
Proof.
  unfold at_attempt. destruct timeout as [t|]; [|done].
  by destruct (bool_decide (t ≠ 0%Z)).
Qed.

(** Without data the socket ends as the connection does. *)
Lemma try_socket_probe c :
  try_socket W None c =
  (connect W (attempts c),
   {| now := now c; reads := reads c; attempts := S (attempts c); sleeps := sleeps c |}).
Proof. unfold try_socket. by destruct (connect W (attempts c)). Qed.

(** A pass that is in time goes on from the clock of the attempt. *)
Lemma loop_in_time fuel timeout start c :
  in_time W timeout start c ->
  writeToRemotePort_loop W (S fuel) None timeout start c =
  let c1 := at_attempt W timeout c in
  let c2 := (try_socket W None c1).2 in
  match connect W (attempts c) with
  | SockOk => Some (Ret true, c2)
  | SockTimeout => Some (Ret false, c2)
  | SockError ECONNRESET => Some (Ret false, c2)
  | SockError ECONNREFUSED =>
      match timeout with
      | Some t =>
          if bool_decide ((time_time W c2).1 - start > t)%Z
          then Some (Ret false, (time_time W c2).2)
          else writeToRemotePort_loop W fuel None timeout start
                 (time_sleep 100 (time_time W c2).2)
      | None => writeToRemotePort_loop W fuel None timeout start (time_sleep 100 c2)
      end
  | SockError (EOTHER n) => Some (Raise (SocketError (EOTHER n)), c2)
  end.
Proof.
  intros Hin. cbn zeta.
  rewrite try_socket_probe, attempts_at_attempt.
  unfold at_attempt, in_time in *. simpl writeToRemotePort_loop.
  destruct timeout as [t|].
  - destruct (bool_decide (t ≠ 0%Z)) eqn:Ht.
    + apply bool_decide_eq_true in Ht. destruct Hin as [?|Hlt]; [done|].
      cbn [time_time fst snd].
      rewrite bool_decide_eq_false_2 by (cbn; lia).
      rewrite try_socket_probe. cbn [attempts].
      by destruct (connect W (attempts c)) as [| |[]].
    + rewrite try_socket_probe. by destruct (connect W (attempts c)) as [| |[]].
  - rewrite try_socket_probe. by destruct (connect W (attempts c)) as [| |[]].
Qed.

(** A pass that is not in time returns [False] at once. *)
Lemma loop_late fuel data timeout start c :
  ¬ in_time W timeout start c ->
  writeToRemotePort_loop W (S fuel) data timeout start c = Some (Ret false, (time_time W c).2).
Proof.
  intros Hin. unfold in_time in Hin. destruct timeout as [t|]; [|done].
  simpl. rewrite bool_decide_eq_true_2 by (intros ->; apply Hin; by left).
  rewrite bool_decide_eq_true_2; [done|]. cbn. lia.
Qed.

Lemma in_time_dec timeout start c : in_time W timeout start c \/ ¬ in_time W timeout start c.
Proof.
  unfold in_time. destruct timeout as [t|]; [|by left].
  destruct (decide (t = 0%Z)); [by left; left|].
  destruct (decide (now c + tick W (reads c) - start < t)%Z); [by left; right|].
  right. intros [?|?]; done.
Qed.

(** When every connection is refused and the clock does not run backwards,
    a finite timeout ends the loop: [fuel] passes are enough as soon as they
    cover the time that is left at 100 ms a pass. *)
Lemma loop_refused_returns fuel t start c :
  (∀ k, 0 ≤ tick W k)%Z ->
  (∀ n, connect W n = SockError ECONNREFUSED) ->
  1 ≤ fuel ->
  (t - (now c - start) + 100 < 100 * Z.of_nat fuel)%Z ->
  ∃ c', writeToRemotePort_loop W fuel None (Some t) start c = Some (Ret false, c')
        ∧ (t ≤ now c' - start)%Z.
Proof.
  intros Htick Hconn. revert c.
  induction fuel as [|fuel IH]; intros c Hpos Hfuel; [lia|].
  destruct (in_time_dec (Some t) start c) as [Hin|Hlate].
  - rewrite loop_in_time by done. cbn zeta. rewrite Hconn.
    rewrite try_socket_probe. cbn [snd time_time fst now reads].
    assert (now c ≤ now (at_attempt W (Some t) c))%Z as Hmono.
    { unfold at_attempt. destruct (bool_decide (t ≠ 0%Z)); cbn; [|lia].
      specialize (Htick (reads c)). lia. }
    set (c1 := at_attempt W (Some t) c) in *.
    pose proof (Htick (reads c1)) as Ht1. clearbody c1.
    case_bool_decide as Hgt.
    + eexists. split; [done|]. cbn. lia.
    + destruct (IH (time_sleep 100
                      {| now := now c1 + tick W (reads c1); reads := S (reads c1);
                         attempts := S (attempts c1); sleeps := sleeps c1 |}))
        as (c' & Heq & Hel); [cbn in *; lia..|].
      exists c'. by split.
  - rewrite loop_late by done. eexists. split; [done|].
    unfold in_time in Hlate. cbn.
    destruct (decide (t = 0%Z)); [exfalso; apply Hlate; by left|].
    destruct (decide (now c + tick W (reads c) - start < t)%Z); [|lia].
    exfalso. apply Hlate. by right.
Qed.

(** C8.  [portIsOpen] is [writeToRemotePort] without data, that is the loop
    started at the first reading of the clock.  In any pass of that loop: a
    connection that is reset, or that times out, makes it return [False]
    without sleeping or connecting again; another socket error than these and
    a refusal goes up to the caller; a refused connection makes it return
    [False] when more than the timeout has gone by, and sleep 100 ms and go
    through the loop again otherwise.  With a finite timeout and every
    connection refused the loop does return [False], once the timeout has
    gone by. *)
Theorem portIsOpen_probe_outcomes :
  (∀ fuel timeout c,
      portIsOpen W fuel timeout c =
      writeToRemotePort_loop W fuel None timeout (time_time W c).1 (time_time W c).2)
  ∧ (∀ fuel timeout start c,
        connect W (attempts c) = SockError ECONNRESET
        \/ connect W (attempts c) = SockTimeout ->
        ∃ c', writeToRemotePort_loop W (S fuel) None timeout start c = Some (Ret false, c')
              ∧ sleeps c' = sleeps c ∧ attempts c' ≤ S (attempts c))
  ∧ (∀ fuel timeout start c code,
        in_time W timeout start c ->
        connect W (attempts c) = SockError (EOTHER code) ->
        ∃ c', writeToRemotePort_loop W (S fuel) None timeout start c
              = Some (Raise (SocketError (EOTHER code)), c'))
  ∧ (∀ fuel timeout start c,
        in_time W timeout start c ->
        connect W (attempts c) = SockError ECONNREFUSED ->
        let c2 := (try_socket W None (at_attempt W timeout c)).2 in
        match timeout with
        | Some t =>
            if bool_decide ((time_time W c2).1 - start > t)%Z then
              writeToRemotePort_loop W (S fuel) None timeout start c
              = Some (Ret false, (time_time W c2).2)
            else
              writeToRemotePort_loop W (S fuel) None timeout start c
              = writeToRemotePort_loop W fuel None timeout start
                  (time_sleep 100 (time_time W c2).2)
        | None =>
            writeToRemotePort_loop W (S fuel) None timeout start c
            = writeToRemotePort_loop W fuel None timeout start (time_sleep 100 c2)
        end)
  ∧ (∀ fuel t c,
        (∀ k, 0 ≤ tick W k)%Z ->
        (∀ n, connect W n = SockError ECONNREFUSED) ->
        1 ≤ fuel ->
        (t + 100 < 100 * Z.of_nat fuel)%Z ->
        ∃ c', portIsOpen W fuel (Some t) c = Some (Ret false, c')
              ∧ (t ≤ now c' - (time_time W c).1)%Z).
Proof.
  split; [done|]. split; [|split; [|split]].
  - intros fuel timeout start c Hc.
    destruct (in_time_dec timeout start c) as [Hin|Hlate].
    + rewrite loop_in_time by done. cbn zeta. rewrite try_socket_probe.
      destruct Hc as [-> | ->]; eexists; (split; [done|]); cbn;
        rewrite sleeps_at_attempt, attempts_at_attempt; done.
    + rewrite loop_late by done. eexists. split; [done|]. cbn. split; [done|lia].
  - intros fuel timeout start c code Hin Hc.
    rewrite loop_in_time by done. cbn zeta. rewrite Hc. by eexists.
  - intros fuel timeout start c Hin Hc. cbn zeta.
    rewrite loop_in_time by done. cbn zeta. rewrite Hc.
    destruct timeout as [t|]; [|done]. by case_bool_decide.
  - intros fuel t c Htick Hconn Hpos Hfuel.
    unfold portIsOpen, writeToRemotePort.
    destruct (loop_refused_returns fuel t (time_time W c).1 (time_time W c).2)
      as (c' & Heq & Hel); [done..|cbn; lia|].
    exists c'. split; [|done]. exact Heq.
Qed.

End Probe.

(** The parts of [portIsOpen_probe_outcomes] on networks that reset, time
    out, fail otherwise or refuse every connection. *)
Lemma portIsOpen_probe_outcomes_witness :
  (∃ c', Utils.writeToRemotePort_loop (Utils.fails_with (Utils.SockError ECONNRESET))
           1 None (Some 1000%Z) 0 Utils.clock0 = Some (Ret false, c')
         ∧ Utils.sleeps c' = 0 ∧ Utils.attempts c' ≤ 1)
  ∧ (∃ c', Utils.writeToRemotePort_loop (Utils.fails_with (Utils.SockError (EOTHER 13)))
             1 None (Some 1000%Z) 0 Utils.clock0
           = Some (Raise (SocketError (EOTHER 13)), c'))
  ∧ Utils.writeToRemotePort_loop Utils.refusing 3 None (Some 1000%Z) 0 Utils.clock0
    = Utils.writeToRemotePort_loop Utils.refusing 2 None (Some 1000%Z) 0
        (Utils.time_sleep 100
           (Utils.time_time Utils.refusing
              (Utils.try_socket Utils.refusing None
                 (Utils.at_attempt Utils.refusing (Some 1000%Z) Utils.clock0)).2).2)
  ∧ (∃ c', Utils.portIsOpen Utils.refusing 12 (Some 1000%Z) Utils.clock0
           = Some (Ret false, c')
           ∧ (1000 ≤ Utils.now c' - (Utils.time_time Utils.refusing Utils.clock0).1)%Z).
Proof.
  split; [|split; [|split]].
  - apply (proj1 (proj2 (portIsOpen_probe_outcomes
                           (Utils.fails_with (Utils.SockError ECONNRESET))))).
    by left.
  - apply (proj1 (proj2 (proj2 (portIsOpen_probe_outcomes
                                  (Utils.fails_with (Utils.SockError (EOTHER 13))))))).
    + right. cbn. lia.
    + reflexivity.
  - apply (proj1 (proj2 (proj2 (proj2 (portIsOpen_probe_outcomes Utils.refusing))))
             2 (Some 1000%Z) 0%Z Utils.clock0).
    + right. cbn. lia.
    + reflexivity.
  - apply (proj2 (proj2 (proj2 (proj2 (portIsOpen_probe_outcomes Utils.refusing))))).
    + intros k. cbn. lia.
    + intros n. reflexivity.
    + lia.
    + lia.
Defined.

(** ** What the methods leave as it was *)

Section Preservation.
Import Manager Props.
Context (R : relation world) `{!PreOrder R}.

Lemma preserves_ret {A} (a : A) : preserves R (ret a).
Proof. intros w. reflexivity. Qed.

Lemma preserves_raise {A} (e : exn) : preserves R (@raise A e).
Proof. intros w. reflexivity. Qed.

Lemma preserves_lift {A} (o : outcome A) : preserves R (lift o).
Proof. intros w. reflexivity. Qed.

Lemma preserves_get : preserves R get.
Proof. intros w. reflexivity. Qed.

Lemma preserves_bind {A B} (m : M A) (k : A -> M B) :
  preserves R m -> (∀ a, preserves R (k a)) -> preserves R (bind m k).
Proof.
  intros Hm Hk w. unfold bind. specialize (Hm w).
  destruct (m w) as [[a|e] w1]; [|done].
  etrans; [exact Hm|]. apply Hk.
Qed.

Lemma preserves_modify (f : world -> world) :
  (∀ w, R w (f w)) -> preserves R (modify f).
Proof. intros Hf w. apply Hf. Qed.

Lemma mapstar_preserves {A L} (f : A -> world * L -> outcome unit * (world * L))
    chunk w l :
  worker_preserves R f -> R w (mapstar f chunk (w, l)).2.1.
Proof.
  intros Hf. revert w l. induction chunk as [|x chunk IH]; intros w l; [done|].
  simpl. specialize (Hf x w l).
  destruct (f x (w, l)) as [[[]|e] [w1 l1]]; [|done].
  etrans; [exact Hf|]. apply IH.
Qed.

Lemma run_tasks_preserves {A L} (f : A -> world * L -> outcome unit * (world * L))
    tasks w l :
  worker_preserves R f -> R w (run_tasks f tasks (w, l)).2.1.
Proof.
  intros Hf. revert w l. induction tasks as [|t tasks IH]; intros w l; [done|].
  simpl. pose proof (mapstar_preserves f t w l Hf) as Ht.
  destruct (mapstar f t (w, l)) as [o [w1 l1]].
  specialize (IH w1 l1). destruct (run_tasks f tasks (w1, l1)) as [err [w2 l2]].
  simpl in *. by etrans.
Qed.

Lemma pool_map_preserves {A L} (f : A -> world * L -> outcome unit * (world * L))
    iterable (shared : L) :
  worker_preserves R f -> preserves R (pool_map f iterable shared).
Proof.
  intros Hf w. unfold pool_map, tp_map.
  pose proof (run_tasks_preserves f
    (_get_tasks (length iterable) (chunksize (length iterable) (_tp (self w))) iterable)
    w shared Hf) as Hr.
  destruct (run_tasks f _ (w, shared)) as [[e|] [w1 l1]]; exact Hr.
Qed.

End Preservation.

(** Closed goals about the scenarios are settled by evaluation. *)
Ltac by_evaluation :=
  repeat match goal with |- _ ∧ _ => split end; vm_compute; reflexivity.

Ltac pres_bind := apply preserves_bind; [apply _| |].
Ltac pres_leaf :=
  first [apply preserves_get | apply preserves_ret
        | apply preserves_raise | apply preserves_lift]; apply _.

Section Logs.
Import Manager Props.
Context (E : env) (P : event -> Prop).
Hypothesis P_Probe : ∀ host port timeout, P (Probe host port timeout).
Hypothesis P_Ssh : ∀ host pkeyPath command, P (Ssh host pkeyPath command).

#[global] Instance logs_preorder : PreOrder (logs P).
Proof.
  split.
  - intros w. repeat split. exists []. by rewrite app_nil_r.
  - intros w1 w2 w3 (Hs1 & Hl1 & Hd1 & evs1 & Ht1 & HP1) (Hs2 & Hl2 & Hd2 & evs2 & Ht2 & HP2).
    repeat split; [congruence..|].
    exists (evs1 ++ evs2). split; [|by apply Forall_app].
    by rewrite Ht2, Ht1, app_assoc.
Qed.

Lemma logs_log ev w : P ev -> logs P w (log ev w).
Proof.
  intros Hev. repeat split. exists [ev]. split; [done|]. by apply Forall_singleton.
Qed.

Lemma logs_invoke dm c :
  P (Rpc (c_host dm) (c_port dm) c) -> preserves (logs P) (invoke E dm c).
Proof. intros Hc w. by apply logs_log. Qed.

Lemma logs_portIsOpen host port timeout :
  preserves (logs P) (Manager.portIsOpen E host port timeout).
Proof. intros w. by apply logs_log. Qed.

Lemma logs_execRemote host pkeyPath command :
  preserves (logs P) (execRemote E host pkeyPath command).
Proof. intros w. by apply logs_log. Qed.

Lemma logs_dmAt host port : preserves (logs P) (dmAt host port).
Proof. unfold dmAt. pres_bind; [pres_leaf|]. intros w. pres_leaf. Qed.

Lemma logs_startDM host : preserves (logs P) (startDM E host).
Proof.
  unfold startDM, subDMCommandLine.
  pres_bind; [pres_leaf|]; intros w.
  pres_bind; [|intros cmd].
  { pres_bind; [pres_leaf|]; intros w'. pres_leaf. }
  pres_bind; [apply logs_execRemote|]; intros [[out err] status].
  case_bool_decide; pres_leaf.
Qed.

Lemma logs_ensureDM host timeout : preserves (logs P) (ensureDM E host timeout).
Proof.
  unfold ensureDM.
  pres_bind; [pres_leaf|]; intros w.
  pres_bind; [apply logs_portIsOpen|]; intros []; [pres_leaf|].
  pres_bind; [apply logs_startDM|]; intros [].
  pres_bind; [apply logs_portIsOpen|]; intros []; pres_leaf.
Qed.

Lemma logs__do_in_host sessionId f :
  calls_with P f -> worker_preserves (logs P) (_do_in_host E sessionId f).
Proof.
  intros Hf it w [exceptions collect]. unfold _do_in_host.
  assert (preserves (logs P) (_do_in_host_try E sessionId f it collect)) as Htry.
  { unfold _do_in_host_try.
    pres_bind; [apply logs_ensureDM|]; intros [].
    pres_bind; [apply logs_dmAt|]; intros dm.
    pres_bind; [apply Hf|]; intros res. pres_leaf. }
  specialize (Htry w).
  by destruct (_do_in_host_try E sessionId f it collect w) as [[c|e] w'].
Qed.

Lemma logs_replicate sessionId f action collect iterable :
  calls_with P f -> preserves (logs P) (replicate E sessionId f action collect iterable).
Proof.
  intros Hf. unfold replicate.
  pres_bind; [pres_leaf|]; intros w.
  pres_bind.
  { apply pool_map_preserves; [apply _|]. by apply logs__do_in_host. }
  intros [thrExs collect'].
  destruct (map_to_list thrExs); pres_leaf.
Qed.

End Logs.

(** ** The thread pool *)

Section PoolFacts.
Import Manager Props.
Context {St A : Type} (f : A -> St -> outcome unit * St).

Lemma mapstar_app a b s :
  mapstar f (a ++ b) s =
  match mapstar f a s with
  | (Ret _, s1) => mapstar f b s1
  | (Raise e, s1) => (Raise e, s1)
  end.
Proof.
  revert s. induction a as [|x a IH]; intros s; [done|].
  simpl. destruct (f x s) as [[[]|e] s1]; [apply IH|done].
Qed.

Lemma chunksize_pos len n : len ≠ 0 -> 0 < chunksize len n.
Proof.
  intros Hlen. unfold chunksize. rewrite bool_decide_eq_false_2 by done.
  case_bool_decide as Hextra; [lia|].
  assert (len `mod` (n * 4) = 0) as Hmod by (destruct (decide (len `mod` (n * 4) = 0)); done).
  pose proof (Nat.div_mod_eq len (n * 4)) as Hdm.
  destruct (len `div` (n * 4)); lia.
Qed.

(** The tasks are the list cut into pieces. *)
Lemma get_tasks_concat fuel size (l : list A) :
  (l ≠ [] -> 0 < size) -> length l ≤ fuel -> concat (_get_tasks fuel size l) = l.
Proof.
  revert l. induction fuel as [|fuel IH]; intros l Hsize Hlen.
  - destruct l; [done|simpl in Hlen; lia].
  - simpl. destruct l as [|x l]; [by destruct size|].
    destruct size as [|size]; [specialize (Hsize ltac:(done)); lia|].
    cbn [take drop concat]. rewrite <- app_comm_cons. f_equal.
    rewrite IH.
    + apply take_drop.
    + intros _. lia.
    + rewrite length_drop. simpl in Hlen. lia.
Qed.

Lemma run_tasks_none tasks s s' :
  run_tasks f tasks s = (None, s') <-> mapstar f (concat tasks) s = (Ret tt, s').
Proof.
  revert s. induction tasks as [|t tasks IH]; intros s; simpl.
  - split; intros [= ->]; done.
  - rewrite mapstar_app.
    destruct (mapstar f t s) as [[[]|e] s1].
    + rewrite <- IH. destruct (run_tasks f tasks s1) as [err s2].
      split; intros [= -> ->]; done.
    + destruct (run_tasks f tasks s1) as [err s2]. split; intros [=].
Qed.

(** [map] of the pool returns exactly when calling [f] on the items one
    after the other does, and leaves the same state. *)
Lemma tp_map_ret n l s s' :
  tp_map f n l s = (Ret tt, s') <-> mapstar f l s = (Ret tt, s').
Proof.
  unfold tp_map.
  pose proof (run_tasks_none
    (_get_tasks (length l) (chunksize (length l) n) l) s s') as Hrun.
  rewrite get_tasks_concat in Hrun;
    [|intros Hl; apply chunksize_pos; by destruct l|done].
  rewrite <- Hrun.
  destruct (run_tasks f _ s) as [[e|] s1]; split; intros [=]; by subst.
Qed.

(** What [map] of the pool raises has been raised by [f] on one of the
    items. *)
Lemma mapstar_raise l s e s' :
  mapstar f l s = (Raise e, s') -> ∃ x s0, x ∈ l ∧ (f x s0).1 = Raise e.
Proof.
  revert s. induction l as [|x l IH]; intros s; cbn [mapstar]; [done|].
  destruct (f x s) as [[[]|e0] s1] eqn:Hx.
  - intros Hrest. destruct (IH _ Hrest) as (y & s0 & Hin & Hy).
    exists y, s0. split; [by right|done].
  - intros [= -> ->]. exists x, s. split; [by left|]. by rewrite Hx.
Qed.

Lemma run_tasks_some tasks s e s' :
  run_tasks f tasks s = (Some e, s') -> ∃ x s0, x ∈ concat tasks ∧ (f x s0).1 = Raise e.
Proof.
  revert s. induction tasks as [|t tasks IH]; intros s; cbn [run_tasks concat]; [done|].
  destruct (mapstar f t s) as [o s1] eqn:Ht.
  destruct (run_tasks f tasks s1) as [err s2] eqn:Hrest.
  destruct o as [[]|e0].
  - intros [= -> ->]. destruct (IH _ Hrest) as (x & s0 & Hin & Hx).
    exists x, s0. split; [|done]. apply elem_of_app. by right.
  - intros [= -> ->]. destruct (mapstar_raise _ _ _ _ Ht) as (x & s0 & Hin & Hx).
    exists x, s0. split; [|done]. apply elem_of_app. by left.
Qed.

Lemma tp_map_raise n l s e s' :
  tp_map f n l s = (Raise e, s') -> ∃ x s0, x ∈ l ∧ (f x s0).1 = Raise e.
Proof.
  unfold tp_map.
  destruct (run_tasks f _ s) as [[e0|] s1] eqn:Hrun; [|done].
  intros [= -> ->]. apply run_tasks_some in Hrun.
  rewrite get_tasks_concat in Hrun; [done| |done].
  intros Hl. apply chunksize_pos. by destruct l.
Qed.

End PoolFacts.

(** ** The fan-out of [replicate] *)

Section FanOut.
Import Manager Props.
Context (E : env).

Lemma calls_with_invoke_only (P : event -> Prop) (c : string -> call) (r : pyval -> pyval)
    (f : client -> item -> string -> M pyval) :
  (∀ dm it sessionId, f dm it sessionId = bind (invoke E dm (c sessionId)) (fun x => ret (r x))) ->
  (∀ host port sessionId, P (Rpc host port (c sessionId))) ->
  (∀ host port timeout, P (Probe host port timeout)) ->
  (∀ host pkeyPath command, P (Ssh host pkeyPath command)) ->
  calls_with P f.
Proof.
  intros Hf Hc HP HS dm it sessionId. rewrite Hf.
  pres_bind; [by apply logs_invoke|]. intros x. pres_leaf.
Qed.

(** A call of [_do_in_host] that returns has recorded no exception. *)
Lemma _do_in_host_ret sessionId f it w ex col w' ex' col' :
  _do_in_host E sessionId f it (w, (ex, col)) = (Ret tt, (w', (ex', col'))) -> ex' = ex.
Proof.
  unfold _do_in_host.
  destruct (_do_in_host_try E sessionId f it col w) as [[c|e] w1]; intros [=]; by subst.
Qed.

Lemma mapstar__do_in_host_ret sessionId f items w ex col w' ex' col' :
  mapstar (_do_in_host E sessionId f) items (w, (ex, col)) = (Ret tt, (w', (ex', col')))
  -> ex' = ex.
Proof.
  revert w ex col. induction items as [|it items IH]; intros w ex col; cbn [mapstar].
  - intros [=]. by subst.
  - destruct (_do_in_host E sessionId f it (w, (ex, col))) as [[[]|e] [w1 [ex1 col1]]] eqn:Hit;
      [|intros [=]].
    intros Hrest. apply IH in Hrest. apply _do_in_host_ret in Hit. congruence.
Qed.

Lemma pool_map__do_in_host_ret sessionId f items w ex col w' ex' col' :
  pool_map (_do_in_host E sessionId f) items (ex, col) w = (Ret (ex', col'), w')
  -> ex' = ex.
Proof.
  unfold pool_map.
  destruct (tp_map _ _ items (w, (ex, col))) as [[[]|e] [w1 [ex1 col1]]] eqn:Hmap; [|done].
  intros [= -> -> ->]. apply tp_map_ret in Hmap.
  by apply mapstar__do_in_host_ret in Hmap.
Qed.

(** [replicate] ends as [map] of the pool does: when a worker has recorded an
    exception it has also raised it, [map] raises it again, and the test of
    [thrExs] is not reached; when [map] returns, [thrExs] is empty. *)
Lemma replicate_ends_as_map sessionId f action collect iterable w :
  replicate E sessionId f action collect iterable w =
  let iterable :=
    match iterable with
    | [] => Host <$> list_at (_dmHosts (self w)) w
    | _ => iterable
    end in
  match pool_map (_do_in_host E sessionId f) iterable (∅, collect) w with
  | (Ret (_, collect'), w') => (Ret collect', w')
  | (Raise e, w') => (Raise e, w')
  end.
Proof.
  unfold replicate, bind at 1, get. cbn zeta. unfold bind.
  destruct (pool_map _ _ (∅, collect) w) as [[[thrExs collect']|e] w'] eqn:Hmap; [|done].
  apply pool_map__do_in_host_ret in Hmap. subst thrExs.
  by rewrite map_to_list_empty.
Qed.

(** Over the hosts, [replicate] returns exactly when the fan-out succeeds on
    every child. *)
Lemma replicate_returns sessionId f action w :
  (∃ c w', replicate E sessionId f action NoCollect [] w = (Ret c, w'))
  <-> succeeds_on_every_child E sessionId f w.
Proof.
  rewrite replicate_ends_as_map. cbn zeta. unfold pool_map, succeeds_on_every_child.
  split.
  - intros (c & w' & Hr).
    destruct (tp_map _ _ _ (w, (∅, NoCollect))) as [[[]|e] [w1 l1]] eqn:Hmap; [|done].
    apply tp_map_ret in Hmap. eauto.
  - intros [[w1 l1] Hs]. apply (tp_map_ret _ (_tp (self w))) in Hs. rewrite Hs.
    destruct l1. eauto.
Qed.

Lemma replicate_raises sessionId f action w :
  ¬ succeeds_on_every_child E sessionId f w ->
  ∃ e w', replicate E sessionId f action NoCollect [] w = (Raise e, w').
Proof.
  intros Hno.
  destruct (replicate E sessionId f action NoCollect [] w) as [[c|e] w'] eqn:Hr; [|eauto].
  exfalso. apply Hno, (replicate_returns sessionId f action). eauto.
Qed.

(** What [replicate] raises over the hosts is what the [try] block of
    [_do_in_host] has raised on one of them. *)
Lemma replicate_raised_by_a_child sessionId f action collect w e w' :
  replicate E sessionId f action collect [] w = (Raise e, w') ->
  raised_by_a_child E sessionId f w e.
Proof.
  rewrite replicate_ends_as_map. cbn zeta. unfold pool_map.
  destruct (tp_map _ _ _ (w, (∅, collect))) as [[[]|e0] [w1 [ex1 col1]]] eqn:Hmap; [done|].
  intros [= -> ->]. apply tp_map_raise in Hmap as (x & [w0 [ex0 col0]] & Hin & Hx).
  apply list_elem_of_fmap in Hin as (host & -> & Hin).
  exists host, col0, w0. split; [done|].
  unfold _do_in_host in Hx. cbn [item_host] in Hx.
  destruct (_do_in_host_try E sessionId f (Host host) col0 w0) as [[c|e1] w2]; [done|].
  cbn [fst] in *. by injection Hx as ->.
Qed.

End FanOut.

(** ** Sessions *)

Section Sessions.
Import Manager Props.
Context (E : env).

Lemma calls_with__createSession : calls_with (fun _ => True) (_createSession E).
Proof. by apply (calls_with_invoke_only E _ Call_createSession (fun _ => PNone)). Qed.

Lemma calls_with__destroySession : calls_with (fun _ => True) (_destroySession E).
Proof. by apply (calls_with_invoke_only E _ Call_destroySession (fun _ => PNone)). Qed.

Lemma replicate_self sessionId f action collect iterable w :
  calls_with (fun _ => True) f ->
  self (replicate E sessionId f action collect iterable w).2 = self w.
Proof.
  intros Hf.
  by destruct (logs_replicate E (fun _ => True) ltac:(done) ltac:(done)
                 sessionId f action collect iterable Hf w) as (? & _).
Qed.

Lemma list_remove_elem x l : x ∈ l -> ∃ l', list_remove x l = Ret l'.
Proof.
  induction l as [|y l IH]; intros Hin; [by apply elem_of_nil in Hin|].
  simpl. case_bool_decide as Hy; [eauto|].
  apply elem_of_cons in Hin as [->|Hin]; [done|].
  destruct (IH Hin) as [l' ->]. simpl. eauto.
Qed.

Lemma list_remove_NoDup x l l' : list_remove x l = Ret l' -> NoDup l -> x ∉ l'.
Proof.
  revert l'. induction l as [|y l IH]; intros l'; simpl; [done|].
  case_bool_decide as Hy.
  - intros [= ->] Hnd. subst y. by apply NoDup_cons in Hnd as [? _].
  - destruct (list_remove x l) as [r|]; simpl; [|done].
    intros [= <-] Hnd. apply NoDup_cons in Hnd as [_ Hnd].
    rewrite not_elem_of_cons. split; [done|]. by apply IH.
Qed.

(** C5, on the code.  [createSession] returns, with the session id appended
    to the registry, when the fan-out succeeds on every child; when it does
    not, [createSession] raises and the registry is as it was.  So a session
    id that was not in the registry is in it afterwards exactly when the
    creation succeeded on every child.  What is raised on a partial failure
    is the exception that the [try] block of [_do_in_host] raised on one of
    the hosts, as it is: no [SubManagerException] is built from it. *)
Theorem createSession_registry sessionId w :
  (succeeds_on_every_child E sessionId (_createSession E) w ->
   ∃ w', createSession E sessionId w = (Ret tt, w')
         ∧ _sessionIds (self w') = _sessionIds (self w) ++ [sessionId])
  ∧ (¬ succeeds_on_every_child E sessionId (_createSession E) w ->
     ∃ e w', createSession E sessionId w = (Raise e, w')
             ∧ _sessionIds (self w') = _sessionIds (self w)
             ∧ raised_by_a_child E sessionId (_createSession E) w e)
  ∧ (sessionId ∉ _sessionIds (self w) ->
     (sessionId ∈ _sessionIds (self (createSession E sessionId w).2)
      <-> succeeds_on_every_child E sessionId (_createSession E) w)).
Proof.
  pose proof (replicate_self sessionId (_createSession E) "creating sessions" NoCollect []
                w calls_with__createSession) as Hself.
  pose proof (replicate_returns E sessionId (_createSession E) "creating sessions" w)
    as Hret.
  unfold createSession, bind, modify.
  destruct (replicate E sessionId (_createSession E) "creating sessions" NoCollect [] w)
    as [[c|e] w1] eqn:Hr; simpl in Hself.
  - assert (succeeds_on_every_child E sessionId (_createSession E) w) as Hs
        by (apply Hret; eauto).
    split; [|split].
    + intros _. eexists. split; [done|]. simpl. by rewrite Hself.
    + done.
    + intros _. split; [done|]. intros _. simpl. rewrite Hself.
      apply elem_of_app. right. by apply list_elem_of_singleton.
  - assert (¬ succeeds_on_every_child E sessionId (_createSession E) w) as Hs.
    { intros Hs. destruct (proj2 Hret Hs) as (c & w' & Heq). discriminate Heq. }
    split; [|split].
    + done.
    + intros _. exists e, w1. split; [done|]. split; [by rewrite Hself|].
      by apply replicate_raised_by_a_child in Hr.
    + intros Hnot. simpl. rewrite Hself. done.
Qed.

(** C2, as the code has it.  [destroySession] takes the session id out of the
    registry (its first occurrence) only when the fan-out has succeeded on
    every child, and then a session id that was there once is gone; when the
    fan-out fails, [destroySession] raises and the registry is as it was. *)
Theorem destroySession_registry sessionId w :
  (¬ succeeds_on_every_child E sessionId (_destroySession E) w ->
   ∃ e w', destroySession E sessionId w = (Raise e, w')
           ∧ _sessionIds (self w') = _sessionIds (self w))
  ∧ (succeeds_on_every_child E sessionId (_destroySession E) w ->
     sessionId ∈ _sessionIds (self w) ->
     ∃ w', destroySession E sessionId w = (Ret tt, w')
           ∧ list_remove sessionId (_sessionIds (self w)) = Ret (_sessionIds (self w'))
           ∧ (NoDup (_sessionIds (self w)) -> sessionId ∉ _sessionIds (self w'))).
Proof.
  pose proof (replicate_self sessionId (_destroySession E) "creating sessions" NoCollect []
                w calls_with__destroySession) as Hself.
  pose proof (replicate_returns E sessionId (_destroySession E) "creating sessions" w)
    as Hret.
  unfold destroySession, bind, modify, get, lift.
  destruct (replicate E sessionId (_destroySession E) "creating sessions" NoCollect [] w)
    as [[c|e] w1] eqn:Hr; simpl in Hself.
  - split; [intros Hno; exfalso; apply Hno, Hret; eauto|].
    intros _ Hin. rewrite Hself.
    destruct (list_remove_elem _ _ Hin) as [l' Hl']. rewrite Hl'.
    eexists. split; [done|]. simpl. split; [done|].
    by apply list_remove_NoDup.
  - split; [|intros Hs; destruct (proj2 Hret Hs) as (c & w' & Heq); discriminate Heq].
    intros _. exists e, w1. split; [done|]. by rewrite Hself.
Qed.

End Sessions.

Section SessionScenarios.
Import Manager Props Scenarios.

(** C1, on the code.  On the island over [h1] and [h2], with the creation of
    a session failing on [h2]: both children are called, and what
    [createSession] raises is the error of [h2] as it is, not a
    [SubManagerException]; the registry stays empty. *)
Theorem createSession_partial_failure :
  (createSession h2_fails_createSession "s" island).1 = Raise (RemoteError "h2 failed")
  ∧ trace (createSession h2_fails_createSession "s" island).2
    = [Probe "h1" 8000 10; Rpc "h1" 8000 (Call_createSession "s");
       Probe "h2" 8000 10; Rpc "h2" 8000 (Call_createSession "s")]
  ∧ _sessionIds (self (createSession h2_fails_createSession "s" island).2) = [].
Proof. by_evaluation. Qed.

Lemma island_s_registry : _sessionIds (self island_s) = ["s"].
Proof. vm_compute. done. Qed.

(** C2 does not hold as it is stated: with [s] in the registry and the
    destruction of the session failing on [h1], [destroySession] raises and
    [s] is still in the registry. *)
Lemma destroySession_failure_keeps_sid :
  "s" ∈ _sessionIds (self island_s)
  ∧ is_raise (destroySession h1_fails_destroySession "s" island_s).1
  ∧ "s" ∈ _sessionIds (self (destroySession h1_fails_destroySession "s" island_s).2).
Proof.
  assert (_sessionIds (self (destroySession h1_fails_destroySession "s" island_s).2) = ["s"])
    as -> by (vm_compute; done).
  rewrite island_s_registry.
  split; [set_solver|]. split; [|set_solver]. vm_compute. done.
Qed.

Lemma createSession_registry_witness :
  (∃ w', createSession all_well "s" island = (Ret tt, w')
         ∧ _sessionIds (self w') = _sessionIds (self island) ++ ["s"])
  ∧ (∃ e w', createSession h2_fails_createSession "s" island = (Raise e, w')
             ∧ _sessionIds (self w') = _sessionIds (self island)
             ∧ raised_by_a_child h2_fails_createSession "s"
                 (_createSession h2_fails_createSession) island e)
  ∧ (createSession h2_fails_createSession "s" island).1 = Raise (RemoteError "h2 failed")
  ∧ (_do_in_host_try h2_fails_createSession "s" (_createSession h2_fails_createSession)
       (Host "h2") NoCollect island).1 = Raise (RemoteError "h2 failed").
Proof.
  split; [|split; [|split]].
  - apply (proj1 (createSession_registry all_well "s" island)).
    eexists. vm_compute. reflexivity.
  - apply (proj1 (proj2 (createSession_registry h2_fails_createSession "s" island))).
    intros [s' Hs]. vm_compute in Hs. discriminate Hs.
  - vm_compute. reflexivity.
  - vm_compute. reflexivity.
Defined.

Lemma destroySession_registry_witness :
  (∃ e w', destroySession h1_fails_destroySession "s" island_s = (Raise e, w')
           ∧ _sessionIds (self w') = _sessionIds (self island_s))
  ∧ (∃ w', destroySession all_well "s" island_s = (Ret tt, w')
           ∧ list_remove "s" (_sessionIds (self island_s)) = Ret (_sessionIds (self w'))
           ∧ (NoDup (_sessionIds (self island_s)) -> "s" ∉ _sessionIds (self w'))).
Proof.
  split.
  - apply (proj1 (destroySession_registry h1_fails_destroySession "s" island_s)).
    intros [s' Hs]. vm_compute in Hs. discriminate Hs.
  - apply (proj2 (destroySession_registry all_well "s" island_s)).
    + eexists. vm_compute. reflexivity.
    + rewrite island_s_registry. set_solver.
Defined.

End SessionScenarios.

(** ** Adding a graph *)

Section AddGraphSpec.
Import Manager Props.

Lemma with_graph_same w : with_graph (_graph (self w)) w = w.
Proof. by destruct w as [[] ? ? ?]. Qed.

(** The first loop takes the drop specifications that it accepts into the
    graph and goes on with the rest. *)
Lemma addGraphSpec_partition_accepted_from pre rest perPartition g w :
  Forall (accepted w) pre ->
  ∃ perPartition',
    addGraphSpec_partition (pre ++ rest) perPartition (with_graph g w)
    = addGraphSpec_partition rest perPartition'
        (with_graph (foldl (fun g l => <[uid_of w l := l]> g) g pre) w).
Proof.
  revert perPartition g. induction pre as [|l pre IH]; intros perPartition g Hacc.
  - exists perPartition. done.
  - apply Forall_cons in Hacc as [(partition & uid & Hp & Hin & Huid) Hacc].
    cbn [app addGraphSpec_partition foldl].
    unfold bind at 1, get at 1. cbn [fst snd].
    change (dict_at l (with_graph g w)) with (dict_at l w).
    change (_partitionAttr (self (with_graph g w))) with (_partitionAttr (self w)).
    change (list_at (_dmHosts (self (with_graph g w))) (with_graph g w))
      with (list_at (_dmHosts (self w)) w).
    rewrite Hp, bool_decide_eq_true_2 by done.
    unfold bind at 1, lift at 1. rewrite Huid.
    unfold bind at 1, modify at 1.
    destruct (IH (dd_append partition l perPartition) (<[uid := l]> g) Hacc)
      as [perPartition' Heq].
    exists perPartition'. unfold uid_of. rewrite Huid.
    etrans; [|exact Heq]. done.
Qed.

Lemma addGraphSpec_partition_accepted pre rest perPartition w :
  Forall (accepted w) pre ->
  ∃ perPartition',
    addGraphSpec_partition (pre ++ rest) perPartition w
    = addGraphSpec_partition rest perPartition' (with_graph (graph_after w pre) w).
Proof.
  intros Hacc.
  destruct (addGraphSpec_partition_accepted_from pre rest perPartition
              (_graph (self w)) w Hacc) as [pp Heq].
  exists pp. by rewrite with_graph_same in Heq.
Qed.

(** It stops at a drop specification that it rejects. *)
Lemma addGraphSpec_partition_rejected bad rest perPartition oid w :
  rejected w bad ->
  dict_at bad w !! "oid" = Some oid ->
  addGraphSpec_partition (bad :: rest) perPartition w
  = (Raise (InvalidGraphException (rejection w bad oid)), w).
Proof.
  intros Hrej Hoid. unfold rejected, rejection in *.
  cbn [addGraphSpec_partition]. unfold bind at 1, get at 1.
  destruct (dict_at bad w !! _partitionAttr (self w)) as [partition|].
  - rewrite bool_decide_eq_false_2 by done.
    unfold bind, lift, getitem. by rewrite Hoid.
  - unfold bind, lift, getitem. by rewrite Hoid.
Qed.

(** The graph as its drop specifications once [pre] has gone into it. *)
Lemma view_graph_after w pre :
  view (with_graph (graph_after w pre) w)
  = foldl (fun g l => <[uid_of w l := dict_at l w]> g) (view w) pre.
Proof.
  unfold view, graph_after. cbn [with_graph set_self set_graph self _graph].
  generalize (_graph (self w)) as g.
  induction pre as [|l pre IH]; intros g; [done|].
  cbn [foldl]. rewrite IH. by rewrite fmap_insert.
Qed.

Context (E : env).
Context (removeUnmetRelationships :
           list (gmap string string) -> list (gmap string string) * list DROPRel).

(** C3, as the code has it.  When the drop specifications before [bad] are
    accepted and [bad] is rejected, [addGraphSpec] raises an
    [InvalidGraphException] whose message names the [oid] of [bad]; nothing
    has been asked of a child and the inter-partition maps are as they were;
    the graph has taken the drop specifications before [bad], each under its
    identifier, a later one in the place of an earlier one with the same
    identifier.  So the world is as it was when [bad] comes first. *)
Theorem addGraphSpec_rejection sessionId pre bad post oid w :
  Forall (accepted w) pre ->
  rejected w bad ->
  dict_at bad w !! "oid" = Some oid ->
  let w' := (addGraphSpec E removeUnmetRelationships sessionId (pre ++ bad :: post) w).2 in
  (addGraphSpec E removeUnmetRelationships sessionId (pre ++ bad :: post) w).1
  = Raise (InvalidGraphException (rejection w bad oid))
  ∧ trace w' = trace w
  ∧ _drop_rels (self w') = _drop_rels (self w)
  ∧ lists w' = lists w ∧ dicts w' = dicts w
  ∧ _graph (self w') = graph_after w pre
  ∧ view w' = foldl (fun g l => <[uid_of w l := dict_at l w]> g) (view w) pre
  ∧ (pre = [] -> w' = w).
Proof.
  intros Hacc Hrej Hoid.
  destruct (addGraphSpec_partition_accepted pre (bad :: post) ∅ w Hacc) as [pp Heq].
  assert (addGraphSpec E removeUnmetRelationships sessionId (pre ++ bad :: post) w
          = (Raise (InvalidGraphException (rejection w bad oid)),
             with_graph (graph_after w pre) w)) as ->.
  { unfold addGraphSpec. unfold bind at 1. rewrite Heq.
    by rewrite (addGraphSpec_partition_rejected bad post pp oid). }
  cbn zeta. cbn [fst snd]. do 6 (split; [done|]). split.
  - apply view_graph_after.
  - intros ->. apply with_graph_same.
Qed.

End AddGraphSpec.

Section GraphScenarios.
Import Manager Props Scenarios.

(** C3 does not hold as it is stated: in scenario 1 the call raises the
    [InvalidGraphException] for [B] and has asked nothing of a child, but the
    graph, empty before, holds [A] afterwards. *)
Lemma addGraphSpec_rejection_keeps_earlier :
  view island = ∅
  ∧ (do_request all_well (Req_addGraphSpec "s" [spec_A_h1; spec_B_h3]) island).1
    = Raise (InvalidGraphException "DROP B's node h3 does not belong to this DM")
  ∧ trace (do_request all_well (Req_addGraphSpec "s" [spec_A_h1; spec_B_h3]) island).2
    = []
  ∧ view (do_request all_well (Req_addGraphSpec "s" [spec_A_h1; spec_B_h3]) island).2
    = {[ "A" := spec_A_h1 ]}
  ∧ view (do_request all_well (Req_addGraphSpec "s" [spec_A_h1; spec_B_h3]) island).2
    ≠ view island.
Proof.
  assert (view (do_request all_well (Req_addGraphSpec "s" [spec_A_h1; spec_B_h3]) island).2
          = {[ "A" := spec_A_h1 ]}) as Hview by (vm_compute; done).
  assert (view island = ∅) as Hempty by (vm_compute; done).
  rewrite Hview, Hempty. repeat split; [vm_compute; done..|].
  intros Heq. apply (f_equal (fun m => m !! "A")) in Heq.
  rewrite lookup_singleton_eq, lookup_empty in Heq. discriminate Heq.
Qed.

Lemma addGraphSpec_rejection_witness :
  let w := (new_dicts [spec_A_h1; spec_B_h3] island).2 in
  let w' := (addGraphSpec all_well no_unmet "s" ([0] ++ 1 :: []) w).2 in
  (addGraphSpec all_well no_unmet "s" ([0] ++ 1 :: []) w).1
  = Raise (InvalidGraphException (rejection w 1 "B"))
  ∧ trace w' = trace w
  ∧ _drop_rels (self w') = _drop_rels (self w)
  ∧ lists w' = lists w ∧ dicts w' = dicts w
  ∧ _graph (self w') = graph_after w [0]
  ∧ view w' = foldl (fun g l => <[uid_of w l := dict_at l w]> g) (view w) [0]
  ∧ ([0] = [] -> w' = w).
Proof.
  apply (addGraphSpec_rejection all_well no_unmet "s" [0] 1 [] "B").
  - apply Forall_singleton. exists "h1", "A".
    split; [vm_compute; done|]. split; [|vm_compute; done].
    assert (list_at (_dmHosts (self (new_dicts [spec_A_h1; spec_B_h3] island).2))
              (new_dicts [spec_A_h1; spec_B_h3] island).2 = ["h1"; "h2"]) as ->
        by (vm_compute; done).
    apply list_elem_of_here.
  - unfold rejected.
    assert (dict_at 1 (new_dicts [spec_A_h1; spec_B_h3] island).2
              !! _partitionAttr (self (new_dicts [spec_A_h1; spec_B_h3] island).2)
            = Some "h3") as -> by (vm_compute; done).
    assert (list_at (_dmHosts (self (new_dicts [spec_A_h1; spec_B_h3] island).2))
              (new_dicts [spec_A_h1; spec_B_h3] island).2 = ["h1"; "h2"]) as ->
        by (vm_compute; done).
    intros Hin. apply elem_of_cons in Hin as [Heq|Hin]; [discriminate Heq|].
    apply list_elem_of_singleton in Hin. discriminate Hin.
  - vm_compute. done.
Defined.

(** The rewriting of [sanitize_relations] changes nothing in a graph whose
    keys are the identifiers of its drop specifications: the identifier of
    the drop specification found under [lhs] is [lhs] itself. *)
Lemma sanitize_relations_changes_nothing rels graph rels' :
  indexed_by_uid graph ->
  sanitize_relations rels graph = Ret rels' -> rels' = rels.
Proof.
  intros Hidx. revert rels'. induction rels as [|[l r d] rels IH]; intros rels'.
  - by intros [= <-].
  - cbn [sanitize_relations lhs rhs rel]. unfold getitem.
    destruct (graph !! l) as [sl|] eqn:Hl; [|done]. cbn [bindO].
    rewrite (Hidx _ _ Hl). cbn [bindO].
    destruct (graph !! d) as [sd|] eqn:Hd; [|done]. cbn [bindO].
    rewrite (Hidx _ _ Hd). cbn [bindO].
    destruct (sanitize_relations rels graph) as [rs|]; [|done].
    cbn [bindO]. intros [= <-]. f_equal. by apply IH.
Qed.

(** C4, on the code.  In scenario 2 the graph has the keys [uA] and [uB];
    [sanitize_relations] looks for the object identifier [A] among them and
    raises a [KeyError]; so does [addGraphSpec], before it has stored a map
    for the session or asked anything of a child. *)
Theorem sanitize_relations_scenario :
  view (do_request all_well (Req_addGraphSpec "s" [spec_A_uA; spec_B_uB]) island).2
  = {[ "uA" := spec_A_uA; "uB" := spec_B_uB ]}
  ∧ sanitize_relations [rel_A_B]
      (view (do_request all_well (Req_addGraphSpec "s" [spec_A_uA; spec_B_uB]) island).2)
    = Raise (KeyError "A")
  ∧ (handle all_well unmet_A_B no_link NODE_DEFAULT_REST_PORT
       (Req_addGraphSpec "s" [spec_A_uA; spec_B_uB]) island).1
    = Raise (KeyError "A")
  ∧ _drop_rels (self (handle all_well unmet_A_B no_link NODE_DEFAULT_REST_PORT
                        (Req_addGraphSpec "s" [spec_A_uA; spec_B_uB]) island).2) !! "s"
    = None
  ∧ trace (handle all_well unmet_A_B no_link NODE_DEFAULT_REST_PORT
             (Req_addGraphSpec "s" [spec_A_uA; spec_B_uB]) island).2
    = [].
Proof. by_evaluation. Qed.

End GraphScenarios.

(** ** The inter-partition map *)

Section InterPartitionMap.
Import Manager Props.

Lemma dd2_get_append {V} (x y : string) (r : V) m a b :
  dd2_get (dd2_append x y r m) a b
  = if decide (a = x ∧ b = y) then dd2_get m x y ++ [r] else dd2_get m a b.
Proof.
  unfold dd2_get, dd2_append, dd_append.
  destruct (decide (a = x)) as [->|Ha].
  - rewrite lookup_insert_eq. simpl.
    destruct (decide (b = y)) as [->|Hb].
    + rewrite lookup_insert_eq. by rewrite decide_True.
    + rewrite lookup_insert_ne by done. rewrite decide_False; [done|]. by intros [_ ?].
  - rewrite lookup_insert_ne by done. rewrite decide_False; [done|]. by intros [? _].
Qed.

Lemma symmetric_empty : symmetric ∅.
Proof. intros a b. unfold dd2_get. by rewrite !lookup_empty. Qed.

(** Recording a relationship under both hosts keeps the map symmetric. *)
Lemma symmetric_append lhn rhn r m :
  symmetric m -> symmetric (dd2_append rhn lhn r (dd2_append lhn rhn r m)).
Proof.
  intros Hsym a b. rewrite !dd2_get_append.
  pose proof (Hsym lhn rhn) as Hlr.
  repeat case_decide; destruct_and?; simplify_eq; rewrite ?Hlr; try done;
    try (by exfalso; naive_solver); try apply Hsym.
  all: try (by rewrite (Hsym rhn lhn)).
Qed.

Lemma addGraphSpec_rels_symmetric rels graph acc m :
  symmetric acc -> addGraphSpec_rels rels graph acc = Ret m -> symmetric m.
Proof.
  revert acc. induction rels as [|r rels IH]; intros acc Hacc; cbn [addGraphSpec_rels].
  - by intros [= <-].
  - destruct (getitem graph (rhs r)) as [rspec|]; [|done]. cbn [bindO].
    destruct (getitem rspec "node") as [rhn|]; [|done]. cbn [bindO].
    destruct (getitem graph (lhs r)) as [lspec|]; [|done]. cbn [bindO].
    destruct (getitem lspec "node") as [lhn|]; [|done]. cbn [bindO].
    apply IH. by apply symmetric_append.
Qed.

End InterPartitionMap.

(** ** What a request does to the manager *)

Section Requests.
Import Manager Props.
Context (E : env).
Context (removeUnmetRelationships :
           list (gmap string string) -> list (gmap string string) * list DROPRel).
Context (addLink : string -> pyval -> string -> outcome pyval).
Context (NODE_DEFAULT_REST_PORT : Z).

Lemma preserves_weaken {A} (R R' : relation world) (m : M A) :
  (∀ w w', R w w' -> R' w w') -> preserves R m -> preserves R' m.
Proof. intros HR Hm w. apply HR, Hm. Qed.

(** In [bind (lift o) k] the rest runs on what [o] returns only. *)
Lemma preserves_bind_lift {A B} (R : relation world) `{!PreOrder R}
    (o : outcome A) (k : A -> M B) :
  (∀ a, o = Ret a -> preserves R (k a)) -> preserves R (bind (lift o) k).
Proof.
  intros Hk w. unfold bind, lift. destruct o as [a|e]; [by apply Hk|reflexivity].
Qed.

Lemma worker_logs__triggerDrops (P : event -> Prop) session_id :
  (∀ host port uids, P (Rpc host port (Call_trigger_drops session_id uids))) ->
  worker_preserves (logs P) (_triggerDrops E NODE_DEFAULT_REST_PORT session_id).
Proof.
  intros HP [host uids] w exceptions. unfold _triggerDrops, dmAt, bind, get, ret.
  cbn [fst snd].
  match goal with |- context [invoke E ?c ?call w] =>
    pose proof (logs_invoke E P c call (HP _ _ _) w) as Hl;
    destruct (invoke E c call w) as [[x|e] w2] end; exact Hl.
Qed.

Lemma worker_logs__add_node_subscriptions_wrapper (P : event -> Prop) sessionId :
  (∀ host port subs, P (Rpc host port (Call_add_node_subscriptions sessionId subs))) ->
  worker_preserves (logs P)
    (_add_node_subscriptions_wrapper E NODE_DEFAULT_REST_PORT sessionId).
Proof.
  intros HP [host subs] w exceptions.
  unfold _add_node_subscriptions_wrapper, _add_node_subscriptions, dmAt, bind, get, ret.
  cbn [fst snd].
  match goal with |- context [invoke E ?c ?call w] =>
    pose proof (logs_invoke E P c call (HP _ _ _) w) as Hl;
    destruct (invoke E c call w) as [[x|e] w2] end; exact Hl.
Qed.

Lemma calls_with__deploySession P :
  (∀ host port s, P (Rpc host port (Call_deploySession s))) ->
  calls_with P (_deploySession E).
Proof.
  intros HP dm it s. unfold _deploySession.
  pres_bind; [by apply logs_invoke|]. intros x. pres_leaf.
Qed.

Lemma calls_with__addGraphSpec P :
  (∀ host port s g, P (Rpc host port (Call_addGraphSpec s g))) ->
  calls_with P (_addGraphSpec E).
Proof.
  intros HP dm it s. unfold _addGraphSpec.
  pres_bind; [pres_leaf|]. intros [host graphSpec].
  pres_bind; [by apply logs_invoke|]. intros x. pres_leaf.
Qed.

Lemma calls_with__getGraphStatus : calls_with (fun _ => True) (_getGraphStatus E).
Proof. intros dm it s. by apply logs_invoke. Qed.

Lemma calls_with__getGraph : calls_with (fun _ => True) (_getGraph E).
Proof. intros dm it s. by apply logs_invoke. Qed.

Lemma calls_with__getGraphSize : calls_with (fun _ => True) (_getGraphSize E).
Proof. intros dm it s. by apply logs_invoke. Qed.

Lemma calls_with__getSessionStatus : calls_with (fun _ => True) (_getSessionStatus E).
Proof.
  intros dm it s. unfold _getSessionStatus.
  pres_bind; [by apply logs_invoke|]. intros x. pres_leaf.
Qed.

(** The three parts of [deploySession] leave the manager and the store alone;
    the first two log no call of [trigger_drops]. *)
Lemma logs_deploySession_subscriptions P sessionId :
  (∀ host port s subs, P (Rpc host port (Call_add_node_subscriptions s subs))) ->
  preserves (logs P) (deploySession_subscriptions E NODE_DEFAULT_REST_PORT sessionId).
Proof.
  intros HP. unfold deploySession_subscriptions.
  pres_bind; [pres_leaf|]. intros w.
  pres_bind; [pres_leaf|]. intros rels.
  destruct (map_to_list rels) as [|it items]; [pres_leaf|].
  pres_bind.
  { apply pool_map_preserves; [apply _|].
    by apply worker_logs__add_node_subscriptions_wrapper. }
  intros thrExs. destruct (map_to_list thrExs); pres_leaf.
Qed.

Lemma logs_deploySession_deploy P sessionId :
  (∀ host port timeout, P (Probe host port timeout)) ->
  (∀ host pkeyPath command, P (Ssh host pkeyPath command)) ->
  (∀ host port s, P (Rpc host port (Call_deploySession s))) ->
  preserves (logs P) (deploySession_deploy E sessionId).
Proof.
  intros HProbe HSsh HP. unfold deploySession_deploy.
  pres_bind; [|intros c; pres_leaf].
  apply logs_replicate; [done..|]. by apply calls_with__deploySession.
Qed.

Lemma logs_deploySession_completed P sessionId completedDrops :
  (∀ host port s uids, P (Rpc host port (Call_trigger_drops s uids))) ->
  preserves (logs P)
    (deploySession_completed E NODE_DEFAULT_REST_PORT sessionId completedDrops).
Proof.
  intros HP. unfold deploySession_completed.
  destruct completedDrops as [|uid uids]; [pres_leaf|].
  pres_bind; [pres_leaf|]. intros w.
  case_bool_decide; [pres_leaf|].
  pres_bind; [pres_leaf|]. intros completed_by_host.
  pres_bind.
  { apply pool_map_preserves; [apply _|]. by apply worker_logs__triggerDrops. }
  intros thrExs. destruct (map_to_list thrExs); pres_leaf.
Qed.

Lemma logs_deploySession sessionId completedDrops :
  preserves (logs (fun _ => True))
    (deploySession E NODE_DEFAULT_REST_PORT sessionId completedDrops).
Proof.
  unfold deploySession.
  pres_bind; [by apply logs_deploySession_subscriptions|]. intros [].
  pres_bind; [by apply logs_deploySession_deploy|]. intros [].
  by apply logs_deploySession_completed.
Qed.

Lemma logs_getGraphStatus sessionId :
  preserves (logs (fun _ => True)) (getGraphStatus E sessionId).
Proof.
  unfold getGraphStatus. pres_bind; [|intros c; pres_leaf].
  apply logs_replicate; [done..|]. apply calls_with__getGraphStatus.
Qed.

Lemma logs_getSessionStatus sessionId :
  preserves (logs (fun _ => True)) (getSessionStatus E sessionId).
Proof.
  unfold getSessionStatus. pres_bind; [|intros c; pres_leaf].
  apply logs_replicate; [done..|]. apply calls_with__getSessionStatus.
Qed.

Lemma logs_getGraphSize sessionId :
  preserves (logs (fun _ => True)) (getGraphSize E sessionId).
Proof.
  unfold getGraphSize. pres_bind; [|intros c; pres_leaf].
  apply logs_replicate; [done..|]. apply calls_with__getGraphSize.
Qed.

Lemma logs_getGraph sessionId :
  preserves (logs (fun _ => True)) (getGraph E addLink sessionId).
Proof.
  unfold getGraph. pres_bind.
  { apply logs_replicate; [done..|]. apply calls_with__getGraph. }
  intros c. pres_bind; [pres_leaf|]. intros w.
  pres_bind; [pres_leaf|]. intros drop_rels. pres_leaf.
Qed.

End Requests.

Section OnSelf.
Import Manager Props.
Context (E : env).
Context (removeUnmetRelationships :
           list (gmap string string) -> list (gmap string string) * list DROPRel).
Context (addLink : string -> pyval -> string -> outcome pyval).
Context (NODE_DEFAULT_REST_PORT : Z).
Context (Q : relation manager) `{!PreOrder Q}.
Context (allowed : string -> Prop).
Hypothesis Q_graph : ∀ m g, Q m (set_graph g m).
Hypothesis Q_sessionIds : ∀ m s, Q m (set_sessionIds s m).
Hypothesis Q_drop_rels :
  ∀ m s dr, allowed s -> symmetric dr ->
            Q m (set_drop_rels (<[s := dr]> (_drop_rels m)) m).

#[local] Instance on_self_preorder : PreOrder (on_self Q).
Proof.
  split.
  - intros w. unfold on_self. reflexivity.
  - intros w1 w2 w3. unfold on_self. apply transitivity.
Qed.

Lemma logs_on_self P w w' : logs P w w' -> on_self Q w w'.
Proof. intros (Hself & _). unfold on_self. rewrite Hself. reflexivity. Qed.

Lemma on_self_logs {A} P (m : M A) : preserves (logs P) m -> preserves (on_self Q) m.
Proof. apply preserves_weaken, logs_on_self. Qed.

Lemma on_self_createSession sessionId : preserves (on_self Q) (createSession E sessionId).
Proof.
  unfold createSession. pres_bind.
  - apply (on_self_logs (fun _ => True)), logs_replicate; [done..|].
    apply calls_with__createSession.
  - intros c. apply preserves_modify. intros w. apply Q_sessionIds.
Qed.

Lemma on_self_destroySession sessionId : preserves (on_self Q) (destroySession E sessionId).
Proof.
  unfold destroySession. pres_bind.
  - apply (on_self_logs (fun _ => True)), logs_replicate; [done..|].
    apply calls_with__destroySession.
  - intros c w. unfold bind, get, lift, modify.
    destruct (list_remove sessionId (_sessionIds (self w))); [|reflexivity].
    apply Q_sessionIds.
Qed.

Lemma on_self_addGraphSpec_partition graphSpec perPartition :
  preserves (on_self Q) (addGraphSpec_partition graphSpec perPartition).
Proof.
  revert perPartition. induction graphSpec as [|l graphSpec IH]; intros perPartition w.
  - reflexivity.
  - cbn [addGraphSpec_partition]. unfold bind at 1, get at 1.
    destruct (dict_at l w !! _partitionAttr (self w)) as [partition|].
    + case_bool_decide.
      * unfold bind at 1, lift at 1.
        destruct (uid_for_drop (dict_at l w)) as [uid|e]; [|reflexivity].
        unfold bind at 1, modify at 1.
        etrans; [|apply IH]. apply Q_graph.
      * unfold bind, lift. destruct (getitem (dict_at l w) "oid"); reflexivity.
    + unfold bind, lift. destruct (getitem (dict_at l w) "oid"); reflexivity.
Qed.

Lemma on_self_addGraphSpec_unmet partitions :
  preserves (on_self Q) (addGraphSpec_unmet removeUnmetRelationships partitions).
Proof.
  induction partitions as [|dropSpecs partitions IH]; intros w.
  - reflexivity.
  - cbn [addGraphSpec_unmet]. unfold bind at 1, get at 1.
    destruct (removeUnmetRelationships _) as [contents rels].
    unfold bind at 1, modify at 1.
    specialize (IH (write_back dropSpecs contents w)).
    unfold bind.
    destruct (addGraphSpec_unmet removeUnmetRelationships partitions
                (write_back dropSpecs contents w)) as [[rels'|e] w1]; exact IH.
Qed.

Lemma on_self_addGraphSpec sessionId graphSpec :
  allowed sessionId ->
  preserves (on_self Q) (addGraphSpec E removeUnmetRelationships sessionId graphSpec).
Proof.
  intros Hallowed. unfold addGraphSpec.
  pres_bind; [apply on_self_addGraphSpec_partition|]. intros perPartition.
  pres_bind; [apply on_self_addGraphSpec_unmet|]. intros rels.
  pres_bind; [pres_leaf|]. intros w.
  pres_bind; [pres_leaf|]. intros rels'.
  apply preserves_bind_lift; [apply _|]. intros drop_rels Hrels.
  pres_bind.
  { apply preserves_modify. intros w'. apply Q_drop_rels; [done|].
    eapply addGraphSpec_rels_symmetric; [apply symmetric_empty|exact Hrels]. }
  intros []. pres_bind; [pres_leaf|]. intros w'.
  pres_bind; [|intros c; pres_leaf].
  apply (on_self_logs (fun _ => True)), logs_replicate; [done..|].
  by apply calls_with__addGraphSpec.
Qed.

Lemma on_self_new_dicts contents : preserves (on_self Q) (new_dicts contents).
Proof.
  induction contents as [|c contents IH]; intros w.
  - reflexivity.
  - cbn [new_dicts]. unfold bind at 1, get at 1. unfold bind at 1, modify at 1.
    unfold bind.
    match goal with |- context [new_dicts contents ?w1] =>
      specialize (IH w1); destruct (new_dicts contents w1) as [[ls|e] w2] end; exact IH.
Qed.

Lemma on_self_addDmHost host : preserves (on_self Q) (addDmHost host).
Proof. intros w. unfold on_self. reflexivity. Qed.

Lemma on_self_add_node node : preserves (on_self Q) (add_node node).
Proof.
  intros w. unfold on_self, add_node, bind, get. destruct (cls (self w)); reflexivity.
Qed.

Lemma on_self_remove_node node : preserves (on_self Q) (remove_node node).
Proof.
  intros w. unfold on_self, remove_node, bind, get, lift.
  destruct (list_remove node (list_at (_nodes (self w)) w)); reflexivity.
Qed.

(** Every request keeps [Q], a request that adds a graph when its session is
    among [allowed]. *)
Lemma on_self_handle r :
  adds_graph_to allowed r ->
  preserves (on_self Q)
    (handle E removeUnmetRelationships addLink NODE_DEFAULT_REST_PORT r).
Proof.
  destruct r; cbn [handle adds_graph_to]; intros Hr.
  - apply on_self_createSession.
  - apply on_self_destroySession.
  - pres_bind; [apply on_self_new_dicts|]. intros ls. by apply on_self_addGraphSpec.
  - apply (on_self_logs (fun _ => True)), logs_deploySession.
  - pres_bind; [|intros; pres_leaf].
    apply (on_self_logs (fun _ => True)), logs_getGraphStatus.
  - pres_bind; [|intros; pres_leaf].
    apply (on_self_logs (fun _ => True)), logs_getGraph.
  - pres_bind; [|intros; pres_leaf].
    apply (on_self_logs (fun _ => True)), logs_getSessionStatus.
  - pres_bind; [|intros; pres_leaf].
    apply (on_self_logs (fun _ => True)), logs_getGraphSize.
  - apply on_self_addDmHost.
  - apply on_self_add_node.
  - apply on_self_remove_node.
Qed.

Lemma on_self_run requests w :
  Forall (adds_graph_to allowed) requests ->
  on_self Q w (run E removeUnmetRelationships addLink NODE_DEFAULT_REST_PORT requests w).
Proof.
  revert w. induction requests as [|r requests IH]; intros w Hall.
  - reflexivity.
  - apply Forall_cons in Hall as [Hr Hall]. cbn [run].
    etrans; [apply (on_self_handle r Hr w)|]. by apply IH.
Qed.

End OnSelf.

(** ** Runs of requests *)

Section Runs.
Import Manager Props.
Context (E : env).
Context (removeUnmetRelationships :
           list (gmap string string) -> list (gmap string string) * list DROPRel).
Context (addLink : string -> pyval -> string -> outcome pyval).
Context (NODE_DEFAULT_REST_PORT : Z).

#[local] Instance keeps_symmetric_preorder : PreOrder keeps_symmetric.
Proof. split; unfold keeps_symmetric; [intros m|intros m1 m2 m3]; tauto. Qed.

#[local] Instance keeps_absent_preorder sessionId : PreOrder (keeps_absent sessionId).
Proof. split; unfold keeps_absent; [intros m|intros m1 m2 m3]; tauto. Qed.

#[local] Instance same_object_preorder : PreOrder same_object.
Proof.
  split; unfold same_object; [intros m; done|].
  intros m1 m2 m3 (? & ? & ?) (? & ? & ?). repeat split; congruence.
Qed.

Lemma adds_graph_to_any requests : Forall (adds_graph_to (fun _ => True)) requests.
Proof. apply Forall_forall. intros r _. by destruct r. Qed.

(** C7.  In a manager whose inter-partition maps are symmetric (a new
    manager has none) they are symmetric after any run of requests: a
    relationship is in the list of [a] for [b] exactly when it is in the list
    of [b] for [a]; the two lists are the same. *)
Theorem inter_partition_map_symmetric requests w sessionId m :
  all_symmetric (self w) ->
  _drop_rels (self (run E removeUnmetRelationships addLink NODE_DEFAULT_REST_PORT
                      requests w)) !! sessionId = Some m ->
  ∀ a b, dd2_get m a b = dd2_get m b a
         ∧ ∀ r, r ∈ dd2_get m a b <-> r ∈ dd2_get m b a.
Proof.
  intros Hw Hm a b.
  assert (symmetric m) as Hsym.
  { eapply (on_self_run E removeUnmetRelationships addLink NODE_DEFAULT_REST_PORT
              keeps_symmetric (fun _ => True)); [..|apply adds_graph_to_any|exact Hw|exact Hm].
    - intros m0 g. by unfold keeps_symmetric.
    - intros m0 s. by unfold keeps_symmetric.
    - intros m0 s dr _ Hdr Hm0 s' dr'. cbn. rewrite lookup_insert.
      case_decide; [by intros [= <-]|apply Hm0]. }
  split; [apply Hsym|]. intros r. by rewrite (Hsym a b).
Qed.

(** C9.  As long as no graph has been added to a session, [deploySession] on
    it raises the [KeyError] of [self._drop_rels[sessionId]] and leaves the
    world as it is: no child has been asked anything.  Creating the session
    does not change that. *)
Theorem deploySession_without_graph requests w sessionId completedDrops :
  _drop_rels (self w) !! sessionId = None ->
  Forall (adds_no_graph sessionId) requests ->
  let w1 := run E removeUnmetRelationships addLink NODE_DEFAULT_REST_PORT requests w in
  deploySession E NODE_DEFAULT_REST_PORT sessionId completedDrops w1
  = (Raise (KeyError sessionId), w1).
Proof.
  intros Hw Hall w1.
  assert (_drop_rels (self w1) !! sessionId = None) as Hnone.
  { eapply (on_self_run E removeUnmetRelationships addLink NODE_DEFAULT_REST_PORT
              (keeps_absent sessionId) (fun s => s ≠ sessionId));
      [..|exact Hall|exact Hw].
    - intros m0 g. by unfold keeps_absent.
    - intros m0 s. by unfold keeps_absent.
    - intros m0 s dr Hs _ Hm0. cbn. by rewrite lookup_insert_ne. }
  unfold deploySession, deploySession_subscriptions, bind, get, lift, getitem.
  by rewrite Hnone.
Qed.

Lemma list_at_list_append l x w : list_at l (list_append l x w) = list_at l w ++ [x].
Proof. unfold list_at, list_append. cbn. by rewrite lookup_insert_eq. Qed.

(** C10.  A [DataIslandManager] is built with [_nodes] and [_dmHosts]
    referring to the same list, and no request changes that; so [add_node]
    appends the node twice to that list, and a host added with [addDmHost]
    is among the nodes. *)
Theorem DataIslandManager_shares_list dmHosts pkeyPath dmCheckTimeout lists0 dicts0
    requests :
  let w := run E removeUnmetRelationships addLink NODE_DEFAULT_REST_PORT requests
             (DataIslandManager_init NODE_DEFAULT_REST_PORT dmHosts pkeyPath
                dmCheckTimeout lists0 dicts0) in
  _nodes (self w) = dmHosts ∧ _dmHosts (self w) = dmHosts
  ∧ (∀ node,
        let w' := (add_node node w).2 in
        _nodes (self w') = dmHosts ∧ _dmHosts (self w') = dmHosts
        ∧ list_at dmHosts w' = list_at dmHosts w ++ [node; node])
  ∧ (∀ host,
        let w' := (addDmHost host w).2 in
        (nodes w').1 = Ret (list_at dmHosts w ++ [host])
        ∧ host ∈ list_at (_nodes (self w')) w').
Proof.
  intros w.
  assert (same_object
            (self (DataIslandManager_init NODE_DEFAULT_REST_PORT dmHosts pkeyPath
                     dmCheckTimeout lists0 dicts0)) (self w)) as (Hcls & Hhosts & Hnodes).
  { apply (on_self_run E removeUnmetRelationships addLink NODE_DEFAULT_REST_PORT
             same_object (fun _ => True)); [done..|apply adds_graph_to_any]. }
  cbn in Hcls, Hhosts, Hnodes.
  split; [done|]. split; [done|]. split.
  - intros node w'. subst w'.
    unfold add_node, bind, get. rewrite Hcls.
    unfold DataIslandManager_add_node, CompositeManager_add_node, bind, get, modify.
    cbn [fst snd]. rewrite Hnodes.
    change (_dmHosts (self (list_append dmHosts node w))) with (_dmHosts (self w)).
    rewrite Hhosts. split; [done|]. split; [done|].
    by rewrite !list_at_list_append, <- app_assoc.
  - intros host w'. subst w'. unfold addDmHost, nodes, bind, get, modify, ret.
    cbn [fst snd]. rewrite Hhosts.
    change (_nodes (self (list_append dmHosts host w))) with (_nodes (self w)).
    rewrite Hnodes, list_at_list_append. split; [done|].
    apply elem_of_app. right. by apply list_elem_of_singleton.
Qed.

End Runs.

(** ** Deploying a session *)

Section Deploy.
Import Manager Props.
Context (E : env).
Context (NODE_DEFAULT_REST_PORT : Z).

Lemma default_dd_append (k : string) (x : string) d n :
  default [] (dd_append k x d !! n)
  = if decide (n = k) then default [] (d !! k) ++ [x] else default [] (d !! n).
Proof.
  unfold dd_append. case_decide as Hn.
  - subst n. by rewrite lookup_insert_eq.
  - by rewrite lookup_insert_ne.
Qed.

(** [group_by_node] puts each uid, in the order of the list, under the node
    of its drop specification. *)
Lemma group_by_node_loop_groups uids graph acc m :
  group_by_node_loop uids graph acc = Ret m ->
  ∀ n, default [] (m !! n)
       = default [] (acc !! n) ++ filter (fun uid => node_of graph uid = Some n) uids.
Proof.
  revert acc. induction uids as [|uid uids IH]; intros acc; cbn [group_by_node_loop].
  - intros [= <-] n. by rewrite filter_nil, app_nil_r.
  - unfold getitem.
    destruct (graph !! uid) as [spec|] eqn:Hspec; [|done]. cbn [bindO].
    destruct (spec !! "node") as [node|] eqn:Hnode; [|done]. cbn [bindO].
    intros Hm n. rewrite (IH _ Hm n), default_dd_append, filter_cons.
    assert (node_of graph uid = Some node) as Hno.
    { unfold node_of. rewrite Hspec. exact Hnode. }
    destruct (decide (node_of graph uid = Some n)) as [Hy|Hn].
    + rewrite Hno in Hy. injection Hy as ->.
      rewrite decide_True by done. by rewrite <- app_assoc.
    + rewrite decide_False; [done|]. intros ->. by apply Hn.
Qed.

Lemma group_by_node_groups uids graph m :
  group_by_node uids graph = Ret m ->
  ∀ n, default [] (m !! n) = filter (fun uid => node_of graph uid = Some n) uids.
Proof.
  intros Hm n. rewrite (group_by_node_loop_groups _ _ _ _ Hm n).
  by rewrite lookup_empty.
Qed.

(** The workers of [_triggerDrops] do not raise: every item of the iterable
    gets its call, in the order of the list. *)
Lemma mapstar__triggerDrops session_id items w exceptions :
  ∃ w' exceptions',
    mapstar (_triggerDrops E NODE_DEFAULT_REST_PORT session_id) items (w, exceptions)
    = (Ret tt, (w', exceptions'))
    ∧ self w' = self w ∧ lists w' = lists w ∧ dicts w' = dicts w
    ∧ trace w' = trace w
        ++ ((fun hu => Rpc hu.1 (leaf_port NODE_DEFAULT_REST_PORT w)
                         (Call_trigger_drops session_id hu.2)) <$> items).
Proof.
  revert w exceptions. induction items as [|[host uids] items IH]; intros w exceptions.
  - exists w, exceptions. cbn. by rewrite app_nil_r.
  - cbn [mapstar]. unfold _triggerDrops at 1, dmAt, bind, get, ret, invoke.
    cbn [fst snd c_host c_port].
    match goal with |- context [env_call E ?t ?h ?p ?c] =>
      destruct (env_call E t h p c) as [x|e] end;
      (match goal with |- context [mapstar _ _ (?w1, ?ex1)] =>
         destruct (IH w1 ex1) as (w' & ex' & Heq & Hs & Hl & Hd & Ht) end;
       exists w', ex'; rewrite Heq; repeat split; try done;
       rewrite Ht; cbn [trace log fmap list_fmap]; rewrite <- app_assoc; done).
Qed.

Lemma pool_map__triggerDrops session_id items w :
  ∃ w' exceptions',
    pool_map (_triggerDrops E NODE_DEFAULT_REST_PORT session_id) items ∅ w
    = (Ret exceptions', w')
    ∧ trace w' = trace w
        ++ ((fun hu => Rpc hu.1 (leaf_port NODE_DEFAULT_REST_PORT w)
                         (Call_trigger_drops session_id hu.2)) <$> items).
Proof.
  destruct (mapstar__triggerDrops session_id items w ∅) as (w' & ex' & Heq & _ & _ & _ & Ht).
  exists w', ex'. unfold pool_map.
  apply (tp_map_ret _ (_tp (self w))) in Heq. by rewrite Heq.
Qed.

Lemma view_ext w w' : self w' = self w -> dicts w' = dicts w -> view w' = view w.
Proof. unfold view, dict_at. by intros -> ->. Qed.

Lemma deploySession_parts sessionId completedDrops w :
  deploySession E NODE_DEFAULT_REST_PORT sessionId completedDrops w
  = match bind (deploySession_subscriptions E NODE_DEFAULT_REST_PORT sessionId)
            (fun _ => deploySession_deploy E sessionId) w with
    | (Ret _, w1) =>
        deploySession_completed E NODE_DEFAULT_REST_PORT sessionId completedDrops w1
    | (Raise e, w1) => (Raise e, w1)
    end.
Proof.
  unfold deploySession, bind.
  destruct (deploySession_subscriptions E NODE_DEFAULT_REST_PORT sessionId w)
    as [[[]|e] w0]; [|done].
  by destruct (deploySession_deploy E sessionId w0) as [[[]|e] w1].
Qed.

Lemma logs_deploySession_before sessionId :
  preserves (logs (fun ev => ¬ is_trigger_drops ev))
    (bind (deploySession_subscriptions E NODE_DEFAULT_REST_PORT sessionId)
       (fun _ => deploySession_deploy E sessionId)).
Proof.
  pres_bind.
  - apply logs_deploySession_subscriptions. intros host port s subs. by intros [].
  - intros []. apply logs_deploySession_deploy; intros; by intros [].
Qed.

Lemma group_by_node_loop_total uids graph acc :
  (∀ uid, uid ∈ uids -> is_Some (node_of graph uid)) ->
  ∃ m, group_by_node_loop uids graph acc = Ret m.
Proof.
  revert acc. induction uids as [|uid uids IH]; intros acc Hnodes; [by eexists|].
  cbn [group_by_node_loop]. unfold getitem.
  destruct (Hnodes uid ltac:(by left)) as [node Hnode]. unfold node_of in Hnode.
  destruct (graph !! uid) as [spec|]; [|done]. cbn in Hnode. cbn [bindO].
  rewrite Hnode. cbn [bindO]. apply IH. intros uid' Hin. apply Hnodes. by right.
Qed.

Lemma group_by_node_loop_no_node uids graph acc :
  (∀ uid, uid ∈ uids -> is_Some (graph !! uid)) ->
  (∃ uid, uid ∈ uids ∧ node_of graph uid = None) ->
  group_by_node_loop uids graph acc = Raise (KeyError "node").
Proof.
  revert acc. induction uids as [|uid uids IH]; intros acc Hknown (bad & Hin & Hbad).
  { by apply elem_of_nil in Hin. }
  cbn [group_by_node_loop]. unfold getitem.
  destruct (Hknown uid ltac:(by left)) as [spec Hspec]. rewrite Hspec. cbn [bindO].
  destruct (spec !! "node") as [node|] eqn:Hnode; [|done]. cbn [bindO].
  apply IH; [intros uid' Hin'; apply Hknown; by right|].
  exists bad. split; [|done].
  apply elem_of_cons in Hin as [->|Hin]; [|done].
  unfold node_of in Hbad. rewrite Hspec in Hbad. cbn in Hbad. congruence.
Qed.

(** C6, as the code has it.  A failure of the subscriptions or of the
    deployment on the children is the end of the call, and these two parts
    send no [trigger_drops].  With a uid among [completedDrops] that the graph
    does not have, [deploySession] raises and no [trigger_drops] has been
    sent; when the two parts have gone through, what it raises is the
    [DaliugeException] for the uids that were not found, right after the
    deployment.  With every uid in the graph and the two parts gone through:
    when the drop specification of a uid has no [node], the call raises the
    [KeyError] of it, right after the deployment; otherwise the calls of
    [trigger_drops] follow the deployment, one for each node at the port of
    the nodes, in some order, with the uids whose drop specification has
    that node. *)
Theorem deploySession_completed_drops sessionId completedDrops w :
  let before :=
    bind (deploySession_subscriptions E NODE_DEFAULT_REST_PORT sessionId)
      (fun _ => deploySession_deploy E sessionId) in
  let result := deploySession E NODE_DEFAULT_REST_PORT sessionId completedDrops w in
  (∀ e w1, before w = (Raise e, w1) -> result = (Raise e, w1))
  ∧ (∃ evs, trace (before w).2 = trace w ++ evs
            ∧ Forall (fun ev => ¬ is_trigger_drops ev) evs)
  ∧ ((∃ uid, uid ∈ completedDrops ∧ _graph (self w) !! uid = None) ->
     is_raise result.1
     ∧ (∃ evs, trace result.2 = trace w ++ evs
               ∧ Forall (fun ev => ¬ is_trigger_drops ev) evs)
     ∧ (∀ w1, before w = (Ret tt, w1) ->
              result
              = (Raise (DaliugeException "UIDs for completed drops not found: %r"
                          (UidsArg (list_to_set completedDrops ∖ dom (_graph (self w))))),
                 w1)))
  ∧ ((∀ uid, uid ∈ completedDrops -> is_Some (_graph (self w) !! uid)) ->
     ∀ w1, before w = (Ret tt, w1) ->
       ((∃ uid, uid ∈ completedDrops ∧ node_of (view w) uid = None) ->
        result = (Raise (KeyError "node"), w1))
       ∧ ((∀ uid, uid ∈ completedDrops -> is_Some (node_of (view w) uid)) ->
          ∃ completed_by_host evs,
            group_by_node completedDrops (view w) = Ret completed_by_host
            ∧ trace result.2 = trace w1 ++ evs
            ∧ evs ≡ₚ trigger_calls (leaf_port NODE_DEFAULT_REST_PORT w) sessionId
                       completed_by_host
            ∧ ∀ node, default [] (completed_by_host !! node)
                      = filter (fun uid => node_of (view w) uid = Some node)
                          completedDrops)).
Proof.
  intros before result. subst result. rewrite deploySession_parts. fold before.
  destruct (logs_deploySession_before sessionId w) as (Hself & _ & Hdicts & evs & Htrace & Hevs).
  fold before in Hself, Hdicts, Htrace.
  destruct (before w) as [[[]|e] w1]; cbn [fst snd] in *.
  - split; [intros e w1' Heq; discriminate Heq|]. split; [eauto|]. split.
    + intros (uid & Hin & Hnone).
      assert (deploySession_completed E NODE_DEFAULT_REST_PORT sessionId completedDrops w1
              = (Raise (DaliugeException "UIDs for completed drops not found: %r"
                          (UidsArg (list_to_set completedDrops ∖ dom (_graph (self w))))),
                 w1)) as ->.
      { unfold deploySession_completed.
        destruct completedDrops as [|u us]; [by apply elem_of_nil in Hin|].
        unfold bind, get. rewrite Hself.
        rewrite bool_decide_eq_true_2; [done|].
        apply not_elem_of_dom in Hnone. intros Hempty.
        assert (uid ∈ (list_to_set (u :: us) ∖ dom (_graph (self w)) : gset string))
          as Huid by (apply elem_of_difference; split; [by apply elem_of_list_to_set|done]).
        rewrite Hempty in Huid. by apply elem_of_empty in Huid. }
      cbn [fst snd]. split; [done|]. split; [eauto|].
      by intros w1' [= <-].
    + intros Hknown w1' [= <-].
      assert (∀ us, us ≠ [] -> us = completedDrops ->
                deploySession_completed E NODE_DEFAULT_REST_PORT sessionId completedDrops w1
                = bind (lift (group_by_node completedDrops (view w)))
                    (fun completed_by_host =>
                       bind (pool_map (_triggerDrops E NODE_DEFAULT_REST_PORT sessionId)
                               (map_to_list completed_by_host) ∅)
                         (fun thrExs =>
                            match map_to_list thrExs with
                            | [] => ret tt
                            | errors =>
                                raise (DaliugeException
                                         ("One or more exceptions occurred while moving DROPs to COMPLETED: "
                                          +:+ sessionId) (ErrorsArg errors))
                            end)) w1) as Hcompleted.
      { intros us Hne <-. unfold deploySession_completed.
        destruct us as [|u us]; [done|].
        unfold bind at 1, get at 1. rewrite Hself.
        rewrite bool_decide_eq_false_2.
        2:{ intros Hnot. apply Hnot. apply set_eq. intros x.
            rewrite elem_of_difference, elem_of_list_to_set, elem_of_dom.
            split; [|intros Hx; by apply elem_of_empty in Hx].
            intros [Hx Hno]. exfalso. by apply Hno, Hknown. }
        by rewrite (view_ext w w1). }
      split.
      * intros (uid & Hin & Hnone).
        rewrite (Hcompleted completedDrops); [|intros ->; by apply elem_of_nil in Hin|done].
        unfold bind at 1, lift at 1, group_by_node.
        rewrite group_by_node_loop_no_node; [done| |eauto].
        intros uid' Hin'. destruct (Hknown uid' Hin') as [l Hl].
        unfold view. rewrite lookup_fmap, Hl. by eexists.
      * intros Hnodes.
        destruct (group_by_node_loop_total completedDrops (view w) ∅ Hnodes)
          as [completed_by_host Hgroups].
        fold (group_by_node completedDrops (view w)) in Hgroups.
        exists completed_by_host,
          (trigger_calls (leaf_port NODE_DEFAULT_REST_PORT w) sessionId completed_by_host).
        split; [done|]. split; [|split; [done|by apply group_by_node_groups]].
        unfold trigger_calls.
        destruct completedDrops as [|u us].
        { injection Hgroups as <-. rewrite map_to_list_empty. cbn. by rewrite app_nil_r. }
        rewrite (Hcompleted (u :: us)) by done.
        unfold bind at 1, lift at 1. rewrite Hgroups.
        unfold bind.
        destruct (pool_map__triggerDrops sessionId (map_to_list completed_by_host) w1)
          as (w' & ex' & -> & Ht).
        assert (leaf_port NODE_DEFAULT_REST_PORT w1 = leaf_port NODE_DEFAULT_REST_PORT w)
          as Hport by (unfold leaf_port; by rewrite Hself).
        rewrite Hport in Ht.
        by destruct (map_to_list ex').
  - split; [by intros e' w1' [= <- <-]|]. split; [eauto|]. split.
    + intros _. split; [done|]. split; [eauto|]. intros w1' Heq. discriminate Heq.
    + intros _ w1' Heq. discriminate Heq.
Qed.

End Deploy.

Section RunScenarios.
Import Manager Props Scenarios.

Lemma inter_partition_map_symmetric_witness :
  dd2_get island_map "h1" "h2" = [rel_A_B]
  ∧ ∀ a b, dd2_get island_map a b = dd2_get island_map b a
           ∧ ∀ r, r ∈ dd2_get island_map a b <-> r ∈ dd2_get island_map b a.
Proof.
  split; [vm_compute; reflexivity|].
  apply (inter_partition_map_symmetric all_well (unmet_when spec_B_h2 rel_A_B) no_link
           NODE_DEFAULT_REST_PORT [Req_addGraphSpec "s" [spec_A_h1; spec_B_h2]]
           island_s "s" island_map).
  - intros s dr.
    assert (_drop_rels (self island_s) = ∅) as -> by (vm_compute; reflexivity).
    rewrite lookup_empty. intros Hs. discriminate Hs.
  - vm_compute. reflexivity.
Defined.

Lemma deploySession_without_graph_witness :
  _sessionIds (self island_s) = ["s"]
  ∧ deploySession all_well NODE_DEFAULT_REST_PORT "s" [] island_s
    = (Raise (KeyError "s"), island_s).
Proof.
  split; [vm_compute; reflexivity|].
  apply (deploySession_without_graph all_well no_unmet no_link NODE_DEFAULT_REST_PORT
           [Req_createSession "s"] island "s" []).
  - vm_compute. reflexivity.
  - apply Forall_singleton. exact I.
Defined.

(** C6 does not hold as it is stated.  On the island with the graph of
    scenario 5 and the deployment failing on [h1], [deploySession] with the
    unknown uid [uX] raises the error of [h1], not the error for the uids
    that were not found.  On the Master Manager with a drop specification
    that names its island and no node, [deploySession] with the uid of that
    drop, which the graph has, raises the [KeyError] of [node] after the
    deployment and sends no [trigger_drops]. *)
Lemma deploySession_completed_drops_other_errors :
  _graph (self island_graph) !! "uX" = None
  ∧ (deploySession h1_fails_deploySession NODE_DEFAULT_REST_PORT "s" ["uX"] island_graph).1
    = Raise (RemoteError "h1 failed")
  ∧ is_Some (_graph (self master_graph) !! "A")
  ∧ (deploySession all_well NODE_DEFAULT_REST_PORT "s" ["A"] master_graph).1
    = Raise (KeyError "node")
  ∧ trace (deploySession all_well NODE_DEFAULT_REST_PORT "s" ["A"] master_graph).2
    = trace master_graph
        ++ [Probe "localhost" 8001 10; Rpc "localhost" 8001 (Call_deploySession "s")].
Proof.
  split; [vm_compute; reflexivity|]. split; [vm_compute; reflexivity|].
  split; [eexists; vm_compute; reflexivity|].
  split; vm_compute; reflexivity.
Qed.

Lemma deploySession_completed_drops_witness :
  deploySession all_well NODE_DEFAULT_REST_PORT "s" ["A"; "uX"] island_graph
  = (Raise (DaliugeException "UIDs for completed drops not found: %r"
              (UidsArg (list_to_set ["A"; "uX"] ∖ dom (_graph (self island_graph))))),
     island_deployed)
  ∧ (∃ completed_by_host evs,
        group_by_node ["A"; "B"] (view island_graph) = Ret completed_by_host
        ∧ trace (deploySession all_well NODE_DEFAULT_REST_PORT "s" ["A"; "B"] island_graph).2
          = trace island_deployed ++ evs
        ∧ evs ≡ₚ trigger_calls (leaf_port NODE_DEFAULT_REST_PORT island_graph) "s"
                   completed_by_host
        ∧ ∀ node, default [] (completed_by_host !! node)
                  = filter (fun uid => node_of (view island_graph) uid = Some node)
                      ["A"; "B"])
  ∧ trigger_calls (leaf_port NODE_DEFAULT_REST_PORT island_graph) "s" island_groups
    = [Rpc "h1" 8000 (Call_trigger_drops "s" ["A"]);
       Rpc "h2" 8000 (Call_trigger_drops "s" ["B"])]
  ∧ deploySession all_well NODE_DEFAULT_REST_PORT "s" ["A"] master_graph
    = (Raise (KeyError "node"),
       (bind (deploySession_subscriptions all_well NODE_DEFAULT_REST_PORT "s")
          (fun _ => deploySession_deploy all_well "s") master_graph).2).
Proof.
  split; [|split; [|split]].
  - apply (proj1 (proj2 (proj2 (deploySession_completed_drops all_well
                                  NODE_DEFAULT_REST_PORT "s" ["A"; "uX"] island_graph)))).
    + exists "uX". split; [apply list_elem_of_further, list_elem_of_here|].
      vm_compute. reflexivity.
    + vm_compute. reflexivity.
  - apply (proj2 (proj2 (proj2 (deploySession_completed_drops all_well
                                  NODE_DEFAULT_REST_PORT "s" ["A"; "B"] island_graph)))).
    + intros uid Hin. apply elem_of_cons in Hin as [->|Hin].
      { eexists. vm_compute. reflexivity. }
      apply list_elem_of_singleton in Hin as ->. eexists. vm_compute. reflexivity.
    + vm_compute. reflexivity.
    + intros uid Hin. apply elem_of_cons in Hin as [->|Hin].
      { eexists. vm_compute. reflexivity. }
      apply list_elem_of_singleton in Hin as ->. eexists. vm_compute. reflexivity.
  - vm_compute. reflexivity.
  - apply (proj2 (proj2 (proj2 (deploySession_completed_drops all_well
                                  NODE_DEFAULT_REST_PORT "s" ["A"] master_graph)))).
    + intros uid Hin. apply list_elem_of_singleton in Hin as ->.
      eexists. vm_compute. reflexivity.
    + vm_compute. reflexivity.
    + exists "A". split; [apply list_elem_of_here|]. vm_compute. reflexivity.
Defined.

End RunScenarios.

(** * Further properties *)

(** ** The probe, whatever the network does *)

Section ProbeMore.
Import Utils.
Variable W : net.

Lemma try_socket_clock data c r c2 :
  try_socket W data c = (r, c2) ->
  now c2 = now c ∧ reads c2 = reads c ∧ attempts c2 = S (attempts c) ∧ sleeps c2 = sleeps c.
Proof.
  unfold try_socket.
  destruct (connect W (attempts c)); [destruct data|..]; intros [= <- <-]; done.
Qed.


(** With a finite timeout and a clock that does not run backwards the loop
    ends, whatever the connections end in; it sleeps no more often than the
    time that is left allows, and connects once more than it sleeps at
    most. *)
Lemma loop_terminates fuel data t start c :
  (∀ k, 0 ≤ tick W k)%Z ->
  1 ≤ fuel ->
  (t - (now c - start) + 100 < 100 * Z.of_nat fuel)%Z ->
  ∃ r c', writeToRemotePort_loop W fuel data (Some t) start c = Some (r, c')
          ∧ (100 * (Z.of_nat (sleeps c') - Z.of_nat (sleeps c))
             ≤ Z.max 0 (t - (now c - start) + 100))%Z
          ∧ sleeps c ≤ sleeps c'
          ∧ attempts c' - attempts c ≤ sleeps c' - sleeps c + 1.
Proof.
  intros Htick. revert c.
  induction fuel as [|fuel IH]; intros c Hpos Hfuel; [lia|].
  cbn [writeToRemotePort_loop].
  assert (∀ c1, (now c ≤ now c1)%Z -> sleeps c1 = sleeps c -> attempts c1 = attempts c ->
    ∃ r c',
      (let '(r, c2) := try_socket W data c1 in
       match r with
       | SockOk => Some (Ret true, c2)
       | SockTimeout => Some (Ret false, c2)
       | SockError ECONNRESET => Some (Ret false, c2)
       | SockError ECONNREFUSED =>
           let '(t1, c3) := time_time W c2 in
           if bool_decide (t1 - start > t)%Z then Some (Ret false, c3)
           else writeToRemotePort_loop W fuel data (Some t) start (time_sleep 100 c3)
       | SockError (EOTHER code) => Some (Raise (SocketError (EOTHER code)), c2)
       end) = Some (r, c')
      ∧ (100 * (Z.of_nat (sleeps c') - Z.of_nat (sleeps c))
         ≤ Z.max 0 (t - (now c - start) + 100))%Z
      ∧ sleeps c ≤ sleeps c'
      ∧ attempts c' - attempts c ≤ sleeps c' - sleeps c + 1) as Hattempt.
  { intros c1 Hnow Hsl Hat.
    destruct (try_socket W data c1) as [r c2] eqn:Htry.
    apply try_socket_clock in Htry as (Hn2 & Hr2 & Ha2 & Hs2).
    destruct r as [| |[| |code]].
    - eexists _, _. split; [done|]. lia.
    - eexists _, _. split; [done|]. lia.
    - eexists _, _. split; [done|]. lia.
    - cbn [time_time]. pose proof (Htick (reads c2)) as Ht2.
      case_bool_decide as Hgt.
      + eexists _, _. split; [done|]. cbn. lia.
      + destruct (IH (time_sleep 100
                        {| now := now c2 + tick W (reads c2); reads := S (reads c2);
                           attempts := attempts c2; sleeps := sleeps c2 |}))
          as (r & c' & Heq & Hsleep & Hle & Hatt); [cbn; lia..|].
        exists r, c'. split; [done|]. cbn in Hsleep, Hle, Hatt. lia.
    - eexists _, _. split; [done|]. lia. }
  case_bool_decide as Ht0.
  - cbn [time_time]. pose proof (Htick (reads c)) as Ht.
    case_bool_decide as Hlate.
    + eexists _, _. split; [done|]. cbn. lia.
    + destruct (Hattempt {| now := now c + tick W (reads c); reads := S (reads c);
                            attempts := attempts c; sleeps := sleeps c |})
        as (r & c' & Heq & Hrest); [cbn; lia|done..|].
      exists r, c'. split; [|done]. rewrite <- Heq.
      destruct (try_socket W data _) as [[| |[| |code]] c2]; done.
  - destruct (Hattempt c) as (r & c' & Heq & Hrest); [lia|done..|].
    exists r, c'. split; [|done]. rewrite <- Heq.
    destruct (try_socket W data c) as [[| |[| |code]] c2]; done.
Qed.

(** X1.  With a finite timeout [writeToRemotePort] returns or raises,
    whatever the network does, as soon as the clock does not run backwards:
    [fuel] passes are enough when they cover the timeout at 100 ms a pass.
    It sleeps at most once for every 100 ms of the timeout, plus once, and
    connects at most once more than it sleeps. *)
Theorem writeToRemotePort_terminates fuel data t c :
  (∀ k, 0 ≤ tick W k)%Z ->
  1 ≤ fuel ->
  (t + 100 < 100 * Z.of_nat fuel)%Z ->
  ∃ r c', writeToRemotePort W fuel data (Some t) c = Some (r, c')
          ∧ (100 * (Z.of_nat (sleeps c') - Z.of_nat (sleeps c)) ≤ Z.max 0 (t + 100))%Z
          ∧ attempts c' - attempts c ≤ sleeps c' - sleeps c + 1.
Proof.
  intros Htick Hpos Hfuel. unfold writeToRemotePort. cbn [time_time].
  destruct (loop_terminates fuel data t (now c + tick W (reads c))
              {| now := now c + tick W (reads c); reads := S (reads c);
                 attempts := attempts c; sleeps := sleeps c |})
    as (r & c' & Heq & Hs & Hle & Ha); [done..|cbn; lia|].
  exists r, c'. split; [done|]. cbn in Hs, Hle, Ha. split; [|lia].
  replace (t - (now c + tick W (reads c) - (now c + tick W (reads c))) + 100)%Z
    with (t + 100)%Z in Hs by lia. exact Hs.
Qed.



(** X3.  Without a timeout ([None]) and with every connection refused,
    [writeToRemotePort] never returns: no number of passes through the loop
    gives a result. *)
Theorem writeToRemotePort_never_returns fuel data c :
  (∀ n, connect W n = SockError ECONNREFUSED) ->
  writeToRemotePort W fuel data None c = None.
Proof.
  intros Hconn. unfold writeToRemotePort. cbn [time_time].
  generalize (now c + tick W (reads c))%Z at 1 as start.
  generalize ({| now := now c + tick W (reads c); reads := S (reads c);
                 attempts := attempts c; sleeps := sleeps c |}) as c0.
  induction fuel as [|fuel IH]; intros c0 start; [done|].
  cbn [writeToRemotePort_loop]. unfold try_socket. rewrite Hconn. apply IH.
Qed.

(** X4.  With a timeout of zero and a clock that does not run backwards,
    [writeToRemotePort] ends after one or two connections and at most one
    sleep (two passes of the loop are enough); after one connection and no
    sleep when the clock has moved by the time it is read after the
    connection. *)
Theorem writeToRemotePort_timeout_zero fuel data c :
  (∀ k, 0 ≤ tick W k)%Z ->
  2 ≤ fuel ->
  ∃ r c', writeToRemotePort W fuel data (Some 0%Z) c = Some (r, c')
          ∧ attempts c < attempts c' ≤ attempts c + 2
          ∧ sleeps c ≤ sleeps c' ≤ sleeps c + 1
          ∧ ((0 < tick W (S (reads c)))%Z ->
             attempts c' = attempts c + 1 ∧ sleeps c' = sleeps c).
Proof.
  intros Htick Hfuel. unfold writeToRemotePort. cbn [time_time].
  set (start := (now c + tick W (reads c))%Z).
  set (c0 := {| now := start; reads := S (reads c);
                attempts := attempts c; sleeps := sleeps c |}).
  destruct fuel as [|fuel]; [lia|]. cbn [writeToRemotePort_loop].
  rewrite bool_decide_eq_false_2 by (intros Hne; by apply Hne).
  destruct (try_socket W data c0) as [s c2] eqn:Htry.
  apply try_socket_clock in Htry as (Hn2 & Hr2 & Ha2 & Hs2). cbn in Hn2, Hr2, Ha2, Hs2.
  destruct s as [| |[| |code]]; try (eexists _, _; split; [done|]; lia).
  cbn [time_time]. case_bool_decide as Hgt.
  - eexists _, _. split; [done|]. cbn. lia.
  - destruct (loop_terminates fuel data 0 start
                (time_sleep 100
                   {| now := now c2 + tick W (reads c2); reads := S (reads c2);
                      attempts := attempts c2; sleeps := sleeps c2 |}))
      as (r & c' & Heq & Hs & Hle & Ha); [done|lia| |].
    { cbn. pose proof (Htick (reads c2)). lia. }
    exists r, c'. split; [done|]. cbn in Hs, Hle, Ha.
    pose proof (Htick (reads c2)) as Ht2.
    assert (now c2 = start) as Hstart by (by rewrite Hn2).
    assert (Z.max 0 (0 - (now c2 + tick W (reads c2) + 100 - start) + 100) = 0)%Z
      as Hmax by lia.
    rewrite Hmax in Hs. rewrite Hr2 in Hgt, Ht2.
    assert (attempts c2 < attempts c') as Hlt.
    { destruct fuel as [|fuel']; [lia|].
      clear -Heq. revert Heq. cbn [writeToRemotePort_loop].
      rewrite bool_decide_eq_false_2 by (intros Hne; by apply Hne).
      destruct (try_socket W data _) as [s c3] eqn:Htry.
      apply try_socket_clock in Htry as (_ & _ & Ha3 & _). cbn in Ha3.
      destruct s as [| |[| |code]]; try (intros [= <- <-]; lia).
      cbn [time_time]. case_bool_decide; [intros [= <- <-]; cbn; lia|].
      intros Hloop.
      assert (∀ f cc, writeToRemotePort_loop W f data (Some 0%Z) start cc = Some (r, c')
                      -> attempts cc ≤ attempts c') as Hmono.
      { clear. induction f as [|f IHf]; intros cc; [done|].
        cbn [writeToRemotePort_loop].
        rewrite bool_decide_eq_false_2 by (intros Hne; by apply Hne).
        destruct (try_socket W data cc) as [s c3] eqn:Htry.
        apply try_socket_clock in Htry as (_ & _ & Ha3 & _).
        destruct s as [| |[| |code]]; try (intros [= <- <-]; lia).
        cbn [time_time]. case_bool_decide; [intros [= <- <-]; cbn; lia|].
        intros Hloop. apply IHf in Hloop. cbn in Hloop. lia. }
      apply Hmono in Hloop. cbn in Hloop. lia. }
    lia.
Qed.

End ProbeMore.

Section ProbeMoreWitnesses.
Import Utils.

Lemma writeToRemotePort_terminates_witness :
  ∃ r c', writeToRemotePort refusing 12 None (Some 1000%Z) clock0 = Some (r, c')
          ∧ (100 * (Z.of_nat (sleeps c') - Z.of_nat (sleeps clock0))
             ≤ Z.max 0 (1000 + 100))%Z
          ∧ attempts c' - attempts clock0 ≤ sleeps c' - sleeps clock0 + 1.
Proof.
  apply (writeToRemotePort_terminates refusing 12 None 1000 clock0).
  - intros k. cbn. lia.
  - lia.
  - lia.
Defined.


Lemma writeToRemotePort_never_returns_witness :
  writeToRemotePort refusing 100 None None clock0 = None.
Proof.
  apply (writeToRemotePort_never_returns refusing 100 None clock0).
  intros n. reflexivity.
Defined.

Lemma writeToRemotePort_timeout_zero_witness :
  ∃ r c', writeToRemotePort refusing 2 None (Some 0%Z) clock0 = Some (r, c')
          ∧ attempts clock0 < attempts c' ≤ attempts clock0 + 2
          ∧ sleeps clock0 ≤ sleeps c' ≤ sleeps clock0 + 1
          ∧ ((0 < tick refusing (S (reads clock0)))%Z ->
             attempts c' = attempts clock0 + 1 ∧ sleeps c' = sleeps clock0).
Proof.
  apply (writeToRemotePort_timeout_zero refusing 2 None clock0).
  - intros k. cbn. lia.
  - lia.
Defined.

End ProbeMoreWitnesses.

(** ** Escaping quotes *)

Section EscapeQuotes.
Import Utils.

Lemma append_cons x (a b : string) : String x a +:+ b = String x (a +:+ b).
Proof. reflexivity. Qed.

Lemma append_assoc (a b c : string) : (a +:+ b) +:+ c = a +:+ (b +:+ c).
Proof. induction a as [|x a IH]; [done|]. rewrite !append_cons. by f_equal. Qed.

Lemma length_append (a b : string) :
  String.length (a +:+ b) = String.length a + String.length b.
Proof. induction a as [|x a IH]; [done|]. rewrite append_cons. simpl. by f_equal. Qed.

Lemma replace_char_app old new s1 s2 :
  replace_char old new (s1 +:+ s2) = replace_char old new s1 +:+ replace_char old new s2.
Proof.
  induction s1 as [|c s1 IH]; [done|].
  rewrite append_cons. simpl. case_bool_decide.
  - rewrite IH. symmetry. apply append_assoc.
  - rewrite append_cons. by rewrite IH.
Qed.

(** X5.  Escaping goes character by character: the escaped form of a
    concatenation is the concatenation of the escaped forms. *)
Theorem escapeQuotes_app s1 s2 singleQuotes doubleQuotes :
  escapeQuotes (s1 +:+ s2) singleQuotes doubleQuotes
  = escapeQuotes s1 singleQuotes doubleQuotes +:+ escapeQuotes s2 singleQuotes doubleQuotes.
Proof.
  unfold escapeQuotes.
  destruct singleQuotes, doubleQuotes; by rewrite ?replace_char_app.
Qed.

Lemma count_char_app c s1 s2 :
  count_char c (s1 +:+ s2) = count_char c s1 + count_char c s2.
Proof.
  induction s1 as [|x s1 IH]; [done|].
  rewrite append_cons. simpl. rewrite IH. lia.
Qed.

Lemma length_replace_char old new s :
  String.length (replace_char old new s) + count_char old s
  = String.length s + count_char old s * String.length new.
Proof.
  induction s as [|x s IH]; [done|]. simpl. case_bool_decide.
  - rewrite length_append. lia.
  - simpl. lia.
Qed.

Lemma count_replace_char_other c old new s :
  c ≠ old -> count_char c new = 0 ->
  count_char c (replace_char old new s) = count_char c s.
Proof.
  intros Hne Hnew. induction s as [|x s IH]; [done|]. simpl. case_bool_decide as Hx.
  - rewrite count_char_app, Hnew, IH. subst x.
    rewrite bool_decide_eq_false_2; [done|]. by intros ->.
  - simpl. by rewrite IH.
Qed.

Lemma replace_char_absent old new s : count_char old s = 0 -> replace_char old new s = s.
Proof.
  induction s as [|x s IH]; [done|]. simpl. case_bool_decide; [lia|].
  intros Hc. by rewrite IH.
Qed.

(** X6.  Escaping both kinds of quotes makes the string longer by three
    characters for every single quote and by one for every double quote; so
    it gives the string back exactly when the string has no quote. *)
Theorem escapeQuotes_length s :
  String.length (escapeQuotes s true true)
  = String.length s + 3 * count_char single_quote s + count_char double_quote s
  ∧ (escapeQuotes s true true = s
     <-> count_char single_quote s = 0 ∧ count_char double_quote s = 0).
Proof.
  assert (String.length (escapeQuotes s true true)
          = String.length s + 3 * count_char single_quote s + count_char double_quote s)
    as Hlen.
  { unfold escapeQuotes.
    set (quoted := String single_quote (String backslash (String single_quote
                     (String single_quote EmptyString)))).
    set (escaped := String backslash (String double_quote EmptyString)).
    pose proof (length_replace_char double_quote escaped
                  (replace_char single_quote quoted s)) as Hd.
    pose proof (length_replace_char single_quote quoted s) as Hs.
    rewrite (count_replace_char_other double_quote single_quote quoted) in Hd by done.
    change (String.length quoted) with 4 in Hs.
    change (String.length escaped) with 2 in Hd. lia. }
  split; [done|]. split.
  - intros Heq. rewrite Heq in Hlen. lia.
  - intros [Hs Hd]. unfold escapeQuotes.
    rewrite (replace_char_absent single_quote) by done.
    by rewrite replace_char_absent.
Qed.

Lemma quotes_guarded_replace prev s :
  quotes_guarded prev
    (replace_char double_quote (String backslash (String double_quote EmptyString)) s)
  = true.
Proof.
  revert prev. induction s as [|x s IH]; intros prev; [done|].
  simpl. case_bool_decide as Hx.
  - rewrite !append_cons. cbn [quotes_guarded String.append].
    rewrite (bool_decide_eq_false_2 (backslash = double_quote)) by done.
    rewrite (bool_decide_eq_true_2 (backslash = backslash)) by done.
    rewrite (bool_decide_eq_true_2 (double_quote = double_quote)) by done.
    cbn [andb]. apply IH.
  - cbn [quotes_guarded]. rewrite (bool_decide_eq_false_2 (x = double_quote)) by done.
    cbn [andb]. apply IH.
Qed.

(** X7.  When double quotes are escaped, every double quote of the result
    comes right after a backslash, whether or not single quotes are escaped
    too. *)
Theorem escapeQuotes_guards_double_quotes s singleQuotes :
  quotes_guarded false (escapeQuotes s singleQuotes true) = true.
Proof. unfold escapeQuotes. apply quotes_guarded_replace. Qed.

End EscapeQuotes.

(** ** Preparing an SQL statement *)

Section PrepareSqlFacts.
Import Utils.
Context {V : Type} (format : string -> list string -> result string).

Lemma named_data_from (data : list V) k (d0 : gmap string V) i :
  foldl (fun d id => <["n" +:+ pretty id.1 := id.2]> d) d0
    (zip (seq k (length data)) data) !! ("n" +:+ pretty i)
  = if decide (k ≤ i < k + length data) then data !! (i - k)
    else d0 !! ("n" +:+ pretty i).
Proof.
  revert k d0. induction data as [|x data IH]; intros k d0.
  - cbn. case_decide; [lia|done].
  - cbn [length seq zip zip_with foldl fst snd]. rewrite IH.
    destruct (decide (i = k)) as [->|Hik].
    + rewrite decide_False by lia. rewrite decide_True by lia.
      rewrite lookup_insert_eq. by rewrite Nat.sub_diag.
    + assert ("n" +:+ pretty k ≠ "n" +:+ pretty i) as Hne.
      { intros Heq. apply Hik. apply (inj (String.append "n")) in Heq.
        symmetry. exact (inj (pretty (A := nat)) _ _ Heq). }
      case_decide as Hin.
      * rewrite decide_True by lia.
        replace (i - k) with (S (i - S k)) by lia. done.
      * rewrite lookup_insert_ne by done. case_decide; [lia|done].
Qed.

Lemma named_data_lookup (data : list V) i :
  named_data data !! ("n" +:+ pretty i) = data !! i.
Proof.
  unfold named_data. rewrite named_data_from.
  case_decide as Hin.
  - by rewrite Nat.sub_0_r.
  - rewrite lookup_empty. symmetry. apply lookup_ge_None. lia.
Qed.

Lemma prepare_sql_with sql paramstyle (data : list V) ms sql' :
  data ≠ [] ->
  markers paramstyle (length data) = Returns ms ->
  format sql ms = Returns sql' ->
  prepare_sql format sql paramstyle data
  = Returns (sql', if bool_decide (paramstyle ∈ ["format"; "pyformat"])
                   then Named (named_data data) else Positional data).
Proof.
  intros Hdata Hms Hformat. unfold prepare_sql.
  rewrite bool_decide_eq_false_2 by (by destruct data).
  rewrite Hms, Hformat. by case_bool_decide.
Qed.

(** X8.  For the styles [format] and [pyformat] the values come back as a
    dictionary in which the [i]-th value is under the key [n<i>], and there
    are as many markers as values. *)
Theorem prepare_sql_named sql paramstyle (data : list V) :
  data ≠ [] ->
  paramstyle = "format" \/ paramstyle = "pyformat" ->
  ∃ ms, markers paramstyle (length data) = Returns ms
        ∧ length ms = length data
        ∧ (∀ sql', format sql ms = Returns sql' ->
                   prepare_sql format sql paramstyle data
                   = Returns (sql', Named (named_data data)))
        ∧ ∀ i, named_data data !! ("n" +:+ pretty i) = data !! i.
Proof.
  intros Hdata Hstyle.
  assert (∃ ms, markers paramstyle (length data) = Returns ms
                ∧ length ms = length data) as (ms & Hms & Hlen).
  { destruct Hstyle as [-> | ->]; eexists; (split; [reflexivity|]);
      by rewrite length_fmap, length_seq. }
  exists ms. split; [done|]. split; [done|]. split; [|apply named_data_lookup].
  intros sql' Hformat. rewrite (prepare_sql_with _ _ _ ms sql') by done.
  rewrite bool_decide_eq_true_2; [done|].
  destruct Hstyle as [-> | ->];
    repeat first [apply list_elem_of_here | apply list_elem_of_further].
Qed.

(** X9.  Without values the statement comes back as it is, with an empty
    tuple, whatever the style, even one that is not known; with values, a
    style that is not known raises before the statement is formatted, and
    the styles [qmark], [numeric] and [named] give the values back as they
    were. *)
Theorem prepare_sql_styles sql paramstyle (data : list V) :
  prepare_sql format sql paramstyle (@nil V) = Returns (sql, Positional [])
  ∧ (data ≠ [] ->
     (paramstyle ∉ ["qmark"; "numeric"; "named"; "format"; "pyformat"] ->
      prepare_sql format sql paramstyle data
      = Throws "Exception" ("Unknown paramstyle: " +:+ paramstyle))
     ∧ (paramstyle ∈ ["qmark"; "numeric"; "named"] ->
        ∀ ms sql', markers paramstyle (length data) = Returns ms ->
                   format sql ms = Returns sql' ->
                   prepare_sql format sql paramstyle data
                   = Returns (sql', Positional data))).
Proof.
  split; [done|]. intros Hdata. split.
  - intros Hstyle. unfold prepare_sql.
    rewrite bool_decide_eq_false_2 by (by destruct data).
    unfold markers.
    rewrite !bool_decide_eq_false_2; [done|intros ->; apply Hstyle..].
    all: repeat first [apply list_elem_of_here | apply list_elem_of_further].
  - intros Hstyle ms sql' Hms Hformat.
    rewrite (prepare_sql_with _ _ _ ms sql') by done.
    rewrite bool_decide_eq_false_2; [done|].
    intros Hin.
    repeat (apply elem_of_cons in Hstyle as [->|Hstyle];
            [repeat (apply elem_of_cons in Hin as [Heq|Hin]; [discriminate Heq|]);
             by apply elem_of_nil in Hin|]).
    by apply elem_of_nil in Hstyle.
Qed.

End PrepareSqlFacts.

Section PrepareSqlWitnesses.
Import Utils.

Lemma prepare_sql_named_witness :
  ∃ ms, markers "pyformat" (length ["a"; "b"]) = Returns ms
        ∧ length ms = length ["a"; "b"]
        ∧ (∀ sql', (fun s _ => Returns s) "select {0}, {1}" ms = Returns sql' ->
                   prepare_sql (fun s _ => Returns s) "select {0}, {1}" "pyformat" ["a"; "b"]
                   = Returns (sql', Named (named_data ["a"; "b"])))
        ∧ ∀ i, named_data ["a"; "b"] !! ("n" +:+ pretty i) = ["a"; "b"] !! i.
Proof.
  apply (prepare_sql_named (fun s _ => Returns s) "select {0}, {1}" "pyformat" ["a"; "b"]).
  - discriminate.
  - by right.
Defined.

End PrepareSqlWitnesses.

(** ** Ending a process *)

Section TerminateOrKill.
Import Utils.

Lemma waited_S n : waited (S n) = [Poll; Sleep] ++ waited n.
Proof. reflexivity. Qed.

Lemma Kill_not_waited n : Kill ∉ waited n.
Proof.
  induction n as [|n IH]; [apply not_elem_of_nil|].
  rewrite waited_S. rewrite !elem_of_app, !elem_of_cons, elem_of_nil.
  intros [[Hk|[Hk|[]]]|Hk]; [discriminate..|done].
Qed.

Lemma terminate_or_kill_loop_ends fuel exited max_loops k events :
  Z.to_nat (max_loops - Z.of_nat k) < fuel ->
  ∃ w, terminate_or_kill_loop fuel exited max_loops k k events
       = Some (w, events ++ waited (w - k) ++ [Poll])
       ∧ k ≤ w
       ∧ (k < w -> (Z.of_nat w ≤ max_loops)%Z)
       ∧ (∀ i, k ≤ i < w -> exited i = false)
       ∧ (exited w = true \/ ¬ (Z.of_nat w < max_loops)%Z).
Proof.
  revert k events. induction fuel as [|fuel IH]; intros k events Hfuel; [lia|].
  cbn [terminate_or_kill_loop].
  destruct (exited k) eqn:Hk.
  { exists k. rewrite Nat.sub_diag. repeat split; [lia..|intros i ?; lia|by left]. }
  case_bool_decide as Hlt.
  - destruct (IH (S k) (events ++ [Poll; Sleep])) as (w & Heq & Hle & Hmax & Halive & Hend);
      [lia|].
    exists w. rewrite Heq. replace (w - k) with (S (w - S k)) by lia.
    rewrite waited_S, <- !app_assoc. split; [done|]. split; [lia|].
    split; [intros _; destruct (decide (S k = w)); lia|].
    split; [|done]. intros i Hi. destruct (decide (i = k)) as [->|]; [done|].
    apply Halive. lia.
  - exists k. rewrite Nat.sub_diag. repeat split; [lia..|intros i ?; lia|by right].
Qed.

(** X10.  [terminate_or_kill] terminates the process first, polls it with a
    sleep of 100 ms after every poll that finds it alive, at most [max_loops]
    times, and waits for it last; the loop ends within [max_loops] + 1
    polls. *)
Theorem terminate_or_kill_events fuel exited max_loops :
  Z.to_nat max_loops < fuel ->
  ∃ w, terminate_or_kill fuel exited max_loops
       = Some ([Terminate] ++ waited w ++ [Poll]
               ++ (if bool_decide (Z.of_nat w = max_loops) then [Kill] else []) ++ [Wait])
       ∧ (Z.of_nat w ≤ Z.max 0 max_loops)%Z
       ∧ ∀ i, i < w -> exited i = false.
Proof.
  intros Hfuel.
  destruct (terminate_or_kill_loop_ends fuel exited max_loops 0 [Terminate])
    as (w & Heq & _ & Hmax & Halive & _); [by rewrite Z.sub_0_r|].
  exists w. unfold terminate_or_kill. rewrite Heq, Nat.sub_0_r. split; [|split].
  - case_bool_decide; by rewrite <- ?app_assoc.
  - destruct w; [lia|]. specialize (Hmax ltac:(lia)). lia.
  - intros i Hi. apply Halive. lia.
Qed.

(** X11.  The process is killed exactly when [max_loops] is not negative and
    the first [max_loops] polls found it alive; the poll after the last sleep
    does not count, so a process that it finds ended is killed all the
    same. *)
Theorem terminate_or_kill_kills fuel exited max_loops events :
  terminate_or_kill fuel exited max_loops = Some events ->
  Z.to_nat max_loops < fuel ->
  Kill ∈ events
  <-> (0 ≤ max_loops)%Z ∧ ∀ i, (Z.of_nat i < max_loops)%Z -> exited i = false.
Proof.
  intros Hres Hfuel.
  destruct (terminate_or_kill_loop_ends fuel exited max_loops 0 [Terminate])
    as (w & Heq & _ & Hmax & Halive & Hend); [by rewrite Z.sub_0_r|].
  unfold terminate_or_kill in Hres. rewrite Heq, Nat.sub_0_r in Hres.
  injection Hres as <-.
  assert (Kill ∈ (if bool_decide (Z.of_nat w = max_loops)
                  then ([Terminate] ++ waited w ++ [Poll]) ++ [Kill]
                  else [Terminate] ++ waited w ++ [Poll]) ++ [Wait]
          <-> Z.of_nat w = max_loops) as ->.
  { pose proof (Kill_not_waited w) as Hw.
    case_bool_decide as Hk.
    - split; [done|]. intros _. rewrite !elem_of_app. left. right.
      apply list_elem_of_here.
    - split; [|done]. rewrite !elem_of_app, !elem_of_cons, !elem_of_nil.
      intros [[[Ht|[]]|[Hin|[Hp|[]]]]|[Hwt|[]]]; try discriminate; done. }
  split.
  - intros Hw. split; [lia|]. intros i Hi. apply Halive. lia.
  - intros [Hpos Hall].
    assert (¬ (Z.of_nat w < max_loops)%Z) as Hge.
    { destruct Hend as [Hex|Hge]; [|done].
      intros Hlt. rewrite (Hall w Hlt) in Hex. discriminate Hex. }
    destruct w; [lia|]. specialize (Hmax ltac:(lia)). lia.
Qed.

End TerminateOrKill.

Section TerminateOrKillWitnesses.
Import Utils.

Lemma terminate_or_kill_events_witness :
  ∃ w, terminate_or_kill 4 (fun k => bool_decide (k = 2)) 3
       = Some ([Terminate] ++ waited w ++ [Poll]
               ++ (if bool_decide (Z.of_nat w = 3%Z) then [Kill] else []) ++ [Wait])
       ∧ (Z.of_nat w ≤ Z.max 0 3)%Z
       ∧ ∀ i, i < w -> (fun k => bool_decide (k = 2)) i = false.
Proof.
  apply (terminate_or_kill_events 4 (fun k => bool_decide (k = 2)) 3). cbn. lia.
Defined.

(** The process ends during the last sleep: the poll after it finds it ended,
    and it is killed. *)
Lemma terminate_or_kill_kills_witness :
  Kill ∈ [Terminate; Poll; Sleep; Poll; Sleep; Poll; Kill; Wait]
  <-> (0 ≤ 2)%Z
      ∧ ∀ i, (Z.of_nat i < 2)%Z -> (fun k => bool_decide (k = 2)) i = false.
Proof.
  apply (terminate_or_kill_kills 3 (fun k => bool_decide (k = 2)) 2).
  - vm_compute. reflexivity.
  - cbn. lia.
Defined.

End TerminateOrKillWitnesses.

(** ** The fan-out, further *)

Section FanOutMore.
Import Manager Props Scenarios.
Context (E : env).

(** X12.  [replicate] ends as [map] of the pool does.  A worker records an
    exception and raises it again, so [map] raises it and the test of
    [thrExs] is not reached; when [map] returns no worker has recorded
    anything.  The [SubManagerException] that [replicate] builds is never
    raised. *)
Theorem replicate_raises_what_map_raises sessionId f action collect iterable w :
  replicate E sessionId f action collect iterable w =
  let iterable :=
    match iterable with
    | [] => Host <$> list_at (_dmHosts (self w)) w
    | _ => iterable
    end in
  match pool_map (_do_in_host E sessionId f) iterable (∅, collect) w with
  | (Ret (_, collect'), w') => (Ret collect', w')
  | (Raise e, w') => (Raise e, w')
  end.
Proof. apply replicate_ends_as_map. Qed.

Lemma replicate_no_hosts sessionId f action collect w :
  list_at (_dmHosts (self w)) w = [] ->
  replicate E sessionId f action collect [] w = (Ret collect, w).
Proof. intros Hhosts. rewrite replicate_ends_as_map. cbn zeta. by rewrite Hhosts. Qed.

(** X13.  A manager without hosts asks nothing of anyone: creating a session
    records it, the size of a graph is zero and the status dictionaries are
    empty, with the trace as it was. *)
Theorem no_hosts_no_calls sessionId w :
  list_at (_dmHosts (self w)) w = [] ->
  createSession E sessionId w
  = (Ret tt, set_self (set_sessionIds (_sessionIds (self w) ++ [sessionId]) (self w)) w)
  ∧ getGraphSize E sessionId w = (Ret 0%Z, w)
  ∧ getSessionStatus E sessionId w = (Ret ∅, w)
  ∧ getGraphStatus E sessionId w = (Ret ∅, w).
Proof.
  intros Hhosts.
  unfold createSession, getGraphSize, getSessionStatus, getGraphStatus, bind.
  by rewrite !replicate_no_hosts.
Qed.

(** X14.  [ensureDM] probes the port once.  It runs the command that starts
    the child exactly when this probe answers that the port is closed (not
    when it is open, nor when the probe fails), and once; it probes again
    exactly when the command has run and ended with status 0.  It returns
    exactly when the first probe found the port open, or the child was
    started and the second probe found the port open.  The manager and the
    store stay as they are. *)
Theorem ensureDM_events host timeout w :
  let r := ensureDM E host timeout w in
  let port := _dmPort (self w) in
  let probe := Probe host port timeout in
  let first := env_portIsOpen E (trace w) host port timeout in
  ∃ command evs,
    (subDMCommandLine host w).1 = Ret command
    ∧ let ssh := Ssh host (_pkeyPath (self w)) command in
      let started :=
        env_execRemote E (trace w ++ [probe]) host (_pkeyPath (self w)) command in
      let second := env_portIsOpen E (trace w ++ [probe; ssh]) host port timeout in
      let start_ok := ∃ out err, started = Ret (out, err, 0%Z) in
      self r.2 = self w ∧ lists r.2 = lists w ∧ dicts r.2 = dicts w
      ∧ trace r.2 = trace w ++ probe :: evs
      ∧ (evs = [] \/ evs = [ssh] \/ evs = [ssh; probe])
      ∧ (evs ≠ [] <-> first = Ret false)
      ∧ (evs = [ssh; probe] <-> first = Ret false ∧ start_ok)
      ∧ (r.1 = Ret tt
         <-> first = Ret true \/ (first = Ret false ∧ start_ok ∧ second = Ret true)).
Proof.
  cbn zeta.
  exists (_dmExec (self w) +:+ " -i " +:+ _subDmId (self w) +:+ " -P "
          +:+ pretty (_dmPort (self w)) +:+ " -d --host " +:+ host).
  unfold ensureDM, startDM, subDMCommandLine, Manager.portIsOpen, execRemote,
    bind, get, ret, raise. cbn [fst snd self trace lists dicts log].
  destruct (env_portIsOpen E (trace w) _ _ _) as [[]|e1] eqn:Hfirst;
    cbn [fst snd self trace lists dicts log].
  - exists []. repeat split; try done.
    + by left.
    + by intros [? _].
    + by left.
  - match goal with |- context [env_execRemote E ?t ?h ?k ?c] =>
      destruct (env_execRemote E t h k c) as [[[out err] status]|e2] eqn:Hstart end;
      cbn [fst snd self trace lists dicts log].
    + case_bool_decide as Hstatus; cbn [fst snd self trace lists dicts log].
      * eexists [_]. rewrite <- app_assoc.
        repeat split; try done.
        -- right. by left.
        -- by intros [_ (o & r & [= _ _ ->])].
        -- intros [Heq|(_ & (o & r & [= _ _ ->]) & _)]; done.
      * assert (status = 0%Z) as -> by (destruct (decide (status = 0%Z)); done).
        rewrite <- !app_assoc. cbn [app].
        match goal with |- context [env_portIsOpen E ?t ?h ?p ?to] =>
          destruct (env_portIsOpen E t h p to) as [[]|e3] eqn:Hsecond end;
          cbn [fst snd self trace lists dicts log negb]; rewrite <- ?app_assoc; cbn [app];
          eexists [_; _]; (repeat split; try done);
          try (by right; right);
          try (by exists out, err);
          try (intros [Heq|(_ & _ & Heq)]; done).
        intros _. right. split; [done|]. split; [by exists out, err|done].
    + eexists [_]. rewrite <- app_assoc.
      repeat split; try done.
      * right. by left.
      * by intros [_ (o & r & Heq)].
      * intros [Heq|(_ & (o & r & Heq) & _)]; done.
  - exists []. repeat split; try done.
    + by left.
    + by intros [? _].
    + intros [Heq|[Heq _]]; done.
Qed.

End FanOutMore.

Section FanOutWitnesses.
Import Manager Props Scenarios.

Lemma no_hosts_no_calls_witness :
  createSession all_well "s" lonely
  = (Ret tt, set_self (set_sessionIds (_sessionIds (self lonely) ++ ["s"]) (self lonely))
               lonely)
  ∧ getGraphSize all_well "s" lonely = (Ret 0%Z, lonely)
  ∧ getSessionStatus all_well "s" lonely = (Ret ∅, lonely)
  ∧ getGraphStatus all_well "s" lonely = (Ret ∅, lonely).
Proof. apply (no_hosts_no_calls all_well "s" lonely). reflexivity. Defined.

End FanOutWitnesses.

(** ** Sessions, further *)

Section SessionsMore.
Import Manager Props.
Context (E : env).

Lemma list_remove_absent x l :
  x ∉ l -> list_remove x l = Raise (ValueError "list.remove(x): x not in list").
Proof.
  induction l as [|y l IH]; intros Hx; [done|].
  apply not_elem_of_cons in Hx as [Hxy Hx]. simpl.
  rewrite bool_decide_eq_false_2 by done. by rewrite IH.
Qed.

Lemma list_remove_first x l r : x ∉ l -> list_remove x (l ++ x :: r) = Ret (l ++ r).
Proof.
  induction l as [|y l IH]; intros Hx; simpl.
  - by rewrite bool_decide_eq_true_2.
  - apply not_elem_of_cons in Hx as [Hxy Hx].
    rewrite bool_decide_eq_false_2 by done. by rewrite IH.
Qed.

Lemma list_remove_last x l : x ∉ l -> list_remove x (l ++ [x]) = Ret l.
Proof. intros Hx. by rewrite list_remove_first, app_nil_r. Qed.

Lemma set_sessionIds_back m l :
  set_sessionIds (_sessionIds m) (set_sessionIds l m) = m.
Proof. by destruct m. Qed.

(** X15.  Creating a session that was not registered and destroying it again
    leaves the manager and the store as they were; only the trace has
    grown. *)
Theorem createSession_destroySession_round_trip sessionId w w1 w2 :
  sessionId ∉ _sessionIds (self w) ->
  createSession E sessionId w = (Ret tt, w1) ->
  destroySession E sessionId w1 = (Ret tt, w2) ->
  self w2 = self w ∧ lists w2 = lists w ∧ dicts w2 = dicts w
  ∧ ∃ evs, trace w2 = trace w ++ evs.
Proof.
  intros Hnew Hcreate Hdestroy.
  unfold createSession, bind, modify in Hcreate.
  pose proof (logs_replicate E (fun _ => True) ltac:(done) ltac:(done) sessionId
                (_createSession E) "creating sessions" NoCollect []
                (calls_with__createSession E) w) as Hlog1.
  destruct (replicate E sessionId (_createSession E) "creating sessions" NoCollect [] w)
    as [[c|e] w'] eqn:Hr1; [|done].
  injection Hcreate as <-.
  destruct Hlog1 as (Hself1 & Hlists1 & Hdicts1 & evs1 & Htrace1 & _). cbn in *.
  unfold destroySession, bind, modify, get, lift in Hdestroy.
  match type of Hdestroy with context [replicate E ?s ?f ?a ?c ?i ?w0] =>
    pose proof (logs_replicate E (fun _ => True) ltac:(done) ltac:(done) s f a c i
                  (calls_with__destroySession E) w0) as Hlog2;
    destruct (replicate E s f a c i w0) as [[c2|e2] w''] eqn:Hr2; [|done]
  end.
  destruct Hlog2 as (Hself2 & Hlists2 & Hdicts2 & evs2 & Htrace2 & _). cbn in *.
  rewrite Hself2 in Hdestroy. cbn in Hdestroy.
  rewrite Hself1, list_remove_last in Hdestroy by done.
  injection Hdestroy as <-. cbn.
  split; [|split; [|split]].
  - rewrite <- Hself1. apply set_sessionIds_back.
  - congruence.
  - congruence.
  - exists (evs1 ++ evs2). by rewrite Htrace2, Htrace1, app_assoc.
Qed.

(** X16.  [destroySession] of a session id that is not in the registry
    always raises and leaves the manager as it was; when the fan-out has
    succeeded on every child, what it raises is the [ValueError] of
    [list.remove]. *)
Theorem destroySession_unknown sessionId w :
  sessionId ∉ _sessionIds (self w) ->
  ∃ e w', destroySession E sessionId w = (Raise e, w')
          ∧ self w' = self w
          ∧ (succeeds_on_every_child E sessionId (_destroySession E) w ->
             e = ValueError "list.remove(x): x not in list").
Proof.
  intros Hnew.
  pose proof (replicate_self E sessionId (_destroySession E) "creating sessions" NoCollect []
                w (calls_with__destroySession E)) as Hself.
  pose proof (replicate_returns E sessionId (_destroySession E) "creating sessions" w)
    as Hret.
  unfold destroySession, bind, modify, get, lift.
  destruct (replicate E sessionId (_destroySession E) "creating sessions" NoCollect [] w)
    as [[c|e] w1] eqn:Hr; simpl in Hself.
  - rewrite Hself, list_remove_absent by done. eauto.
  - exists e, w1. split; [done|]. split; [done|].
    intros Hs. destruct (proj2 Hret Hs) as (c & w' & Heq). discriminate Heq.
Qed.

(** X17.  [getGraph] asks the children first and reads the inter-partition
    map afterwards: for a session without a map it raises, and when the
    fan-out has returned it is the [KeyError] of [self._drop_rels[sessionId]],
    raised after every child has answered. *)
Theorem getGraph_without_map addLink sessionId w :
  _drop_rels (self w) !! sessionId = None ->
  is_raise (getGraph E addLink sessionId w).1
  ∧ ∀ c w1,
      replicate E sessionId (_getGraph E) "getting the graph" (IntoDict ∅) [] w
      = (Ret c, w1) ->
      getGraph E addLink sessionId w = (Raise (KeyError sessionId), w1).
Proof.
  intros Hnone.
  pose proof (replicate_self E sessionId (_getGraph E) "getting the graph" (IntoDict ∅) []
                w (calls_with__getGraph E)) as Hself.
  unfold getGraph, bind, get, lift.
  destruct (replicate E sessionId (_getGraph E) "getting the graph" (IntoDict ∅) [] w)
    as [[c|e] w1] eqn:Hr; simpl in Hself.
  - unfold getitem. rewrite Hself, Hnone. split; [done|].
    by intros c' w1' [= <- <-].
  - split; [done|]. intros c' w1' Heq. discriminate Heq.
Qed.

End SessionsMore.

Section SessionsMoreWitnesses.
Import Manager Props Scenarios.

Lemma createSession_destroySession_round_trip_witness :
  self (destroySession all_well "s" island_s).2 = self island
  ∧ lists (destroySession all_well "s" island_s).2 = lists island
  ∧ dicts (destroySession all_well "s" island_s).2 = dicts island
  ∧ ∃ evs, trace (destroySession all_well "s" island_s).2 = trace island ++ evs.
Proof.
  apply (createSession_destroySession_round_trip all_well "s" island island_s
           (destroySession all_well "s" island_s).2).
  - vm_compute. apply not_elem_of_nil.
  - vm_compute. reflexivity.
  - vm_compute. reflexivity.
Defined.

Lemma destroySession_unknown_witness :
  ∃ e w', destroySession all_well "s" island = (Raise e, w')
          ∧ self w' = self island
          ∧ (succeeds_on_every_child all_well "s" (_destroySession all_well) island ->
             e = ValueError "list.remove(x): x not in list").
Proof.
  apply (destroySession_unknown all_well "s" island).
  vm_compute. apply not_elem_of_nil.
Defined.

Lemma getGraph_without_map_witness :
  getGraph (answering (fun _ _ => Ret (PDict []))) no_link "s" island
  = (Raise (KeyError "s"),
     (replicate (answering (fun _ _ => Ret (PDict []))) "s"
        (_getGraph (answering (fun _ _ => Ret (PDict [])))) "getting the graph"
        (IntoDict ∅) [] island).2).
Proof.
  apply (proj2 (getGraph_without_map (answering (fun _ _ => Ret (PDict []))) no_link "s"
                  island eq_refl) (IntoDict ∅)).
  vm_compute. reflexivity.
Defined.

End SessionsMoreWitnesses.

(** ** What the children answer *)

Section Gather.
Import Manager Props.
Context (E : env) (sessionId : string).
Hypothesis children_listen : ∀ t host port timeout, env_portIsOpen E t host port timeout = Ret true.

Lemma ensureDM_open host timeout w :
  ensureDM E host timeout w = (Ret tt, log (Probe host (_dmPort (self w)) timeout) w).
Proof.
  unfold ensureDM, Manager.portIsOpen, bind, get. cbn. by rewrite children_listen.
Qed.

(** The probe and the call that the fan-out makes on each host, in the order
    of the list. *)
Lemma sum_PInt zs : sum (PInt <$> zs) = Ret (foldr Z.add 0%Z zs).
Proof. induction zs as [|z zs IH]; [done|]. cbn. by rewrite IH. Qed.

Lemma mapstar__getGraphSize (size : string -> Z) hs w ex acc :
  (∀ t host port, env_call E t host port (Call_getGraphSize sessionId) = Ret (PInt (size host))) ->
  ∃ w', mapstar (_do_in_host E sessionId (_getGraphSize E)) (Host <$> hs)
          (w, (ex, IntoList acc))
        = (Ret tt, (w', (ex, IntoList (acc ++ (PInt <$> (size <$> hs))))))
        ∧ trace w' = trace w ++ asked (_dmPort (self w)) (Call_getGraphSize sessionId) hs.
Proof.
  intros Hsize. revert w acc. induction hs as [|h hs IH]; intros w acc.
  - exists w. cbn. by rewrite !app_nil_r.
  - cbn [fmap list_fmap mapstar].
    unfold _do_in_host at 1, _do_in_host_try, bind at 1. cbn [item_host].
    rewrite ensureDM_open. unfold bind, dmAt, get, ret, _getGraphSize, invoke, lift.
    cbn. rewrite Hsize. cbn.
    match goal with |- context [mapstar _ _ (?w1, (_, IntoList ?acc1))] =>
      destruct (IH w1 acc1) as (w' & Hmap & Htrace) end.
    exists w'. split; [etrans; [exact Hmap|]; by rewrite <- app_assoc|].
    rewrite Htrace. cbn. by rewrite <- !app_assoc.
Qed.

(** X18.  With every child listening and answering [getGraphSize] with its
    number of drops, [getGraphSize] of the manager returns the sum of the
    numbers, having probed and asked each host of the list once, in some
    order. *)
Theorem getGraphSize_sum (size : string -> Z) w :
  (∀ t host port, env_call E t host port (Call_getGraphSize sessionId) = Ret (PInt (size host))) ->
  ∃ w' evs,
    getGraphSize E sessionId w
    = (Ret (foldr Z.add 0%Z (size <$> list_at (_dmHosts (self w)) w)), w')
    ∧ trace w' = trace w ++ evs
    ∧ evs ≡ₚ asked (_dmPort (self w)) (Call_getGraphSize sessionId)
               (list_at (_dmHosts (self w)) w).
Proof.
  intros Hsize. unfold getGraphSize, bind. rewrite replicate_ends_as_map. cbn zeta.
  unfold pool_map.
  destruct (mapstar__getGraphSize size (list_at (_dmHosts (self w)) w) w ∅ [] Hsize)
    as (w' & Hmap & Htrace).
  apply (tp_map_ret _ (_tp (self w))) in Hmap. rewrite Hmap.
  exists w', (asked (_dmPort (self w)) (Call_getGraphSize sessionId)
                (list_at (_dmHosts (self w)) w)).
  unfold lift. cbn. by rewrite sum_PInt.
Qed.

Lemma lookup_foldl_insert {V} (g : string -> V) hs (d : gmap string V) k :
  foldl (fun d h => <[h := g h]> d) d hs !! k
  = if decide (k ∈ hs) then Some (g k) else d !! k.
Proof.
  revert d. induction hs as [|h hs IH]; intros d; cbn.
  - rewrite decide_False; [done|apply not_elem_of_nil].
  - rewrite IH. destruct (decide (k ∈ hs)) as [Hin|Hout].
    + rewrite decide_True; [done|by right].
    + destruct (decide (k = h)) as [->|Hne].
      * rewrite decide_True; [|by left]. by rewrite lookup_insert_eq.
      * rewrite decide_False; [by rewrite lookup_insert_ne|].
        rewrite not_elem_of_cons. done.
Qed.

Lemma mapstar__getSessionStatus (status : string -> pyval) hs w ex d :
  (∀ t host port, env_call E t host port (Call_getSessionStatus sessionId) = Ret (status host)) ->
  ∃ w', mapstar (_do_in_host E sessionId (_getSessionStatus E)) (Host <$> hs)
          (w, (ex, IntoDict d))
        = (Ret tt, (w', (ex, IntoDict (foldl (fun d h => <[h := status h]> d) d hs))))
        ∧ trace w' = trace w ++ asked (_dmPort (self w)) (Call_getSessionStatus sessionId) hs.
Proof.
  intros Hstatus. revert w d. induction hs as [|h hs IH]; intros w d.
  - exists w. cbn. by rewrite !app_nil_r.
  - cbn [fmap list_fmap mapstar].
    unfold _do_in_host at 1, _do_in_host_try, bind at 1. cbn [item_host].
    rewrite ensureDM_open. unfold bind, dmAt, get, ret, _getSessionStatus, invoke, lift.
    cbn. rewrite Hstatus. cbn.
    match goal with |- context [mapstar _ _ (?w1, (_, IntoDict ?d1))] =>
      destruct (IH w1 d1) as (w' & Hmap & Htrace) end.
    exists w'. split; [exact Hmap|].
    rewrite Htrace. cbn. by rewrite <- !app_assoc.
Qed.

(** X19.  With every child listening and answering [getSessionStatus],
    [getSessionStatus] of the manager returns a dictionary with exactly the
    hosts as keys, each with the answer of that host. *)
Theorem getSessionStatus_by_host (status : string -> pyval) w :
  (∀ t host port, env_call E t host port (Call_getSessionStatus sessionId) = Ret (status host)) ->
  ∃ d w', getSessionStatus E sessionId w = (Ret d, w')
          ∧ ∀ host, d !! host = if decide (host ∈ list_at (_dmHosts (self w)) w)
                                then Some (status host) else None.
Proof.
  intros Hstatus. unfold getSessionStatus, bind. rewrite replicate_ends_as_map. cbn zeta.
  unfold pool_map.
  destruct (mapstar__getSessionStatus status (list_at (_dmHosts (self w)) w) w ∅ ∅ Hstatus)
    as (w' & Hmap & Htrace).
  apply (tp_map_ret _ (_tp (self w))) in Hmap. rewrite Hmap.
  eexists _, w'. split; [done|]. intros host. cbn.
  by rewrite lookup_foldl_insert, lookup_empty.
Qed.

End Gather.

Section GatherWitnesses.
Import Manager Props Scenarios.

Lemma getGraphSize_sum_witness :
  ∃ w' evs,
    getGraphSize (answering (fun host _ => Ret (PInt (Z.of_nat (String.length host)))))
      "s" island
    = (Ret 4%Z, w')
    ∧ trace w' = [] ++ evs
    ∧ evs ≡ₚ [Probe "h1" 8000 10; Rpc "h1" 8000 (Call_getGraphSize "s");
              Probe "h2" 8000 10; Rpc "h2" 8000 (Call_getGraphSize "s")].
Proof.
  apply (getGraphSize_sum
           (answering (fun host _ => Ret (PInt (Z.of_nat (String.length host))))) "s"
           (fun t host port timeout => eq_refl)
           (fun host => Z.of_nat (String.length host)) island
           (fun t host port => eq_refl)).
Defined.

Lemma getSessionStatus_by_host_witness :
  ∃ d w', getSessionStatus (answering (fun host _ => Ret (PStr host))) "s" island
          = (Ret d, w')
          ∧ ∀ host, d !! host = if decide (host ∈ list_at (_dmHosts (self island)) island)
                                then Some (PStr host) else None.
Proof.
  apply (getSessionStatus_by_host (answering (fun host _ => Ret (PStr host))) "s"
           (fun t host port timeout => eq_refl) PStr island (fun t host port => eq_refl)).
Defined.

End GatherWitnesses.

(** ** Errors of the two direct fan-outs of [deploySession] *)

Section Recording.
Import Manager Props.
Context (E : env) (NODE_DEFAULT_REST_PORT : Z).

(** A worker that calls a node, records the exception of the call under the
    host and returns: [_add_node_subscriptions_wrapper] and [_triggerDrops]
    are such workers. *)
Lemma mapstar_recording {X} (call_of : X -> call)
    (f : string * X -> world * gmap string exn -> outcome unit * (world * gmap string exn))
    items w ex :
  (∀ host x w ex,
      f (host, x) (w, ex)
      = let port := leaf_port NODE_DEFAULT_REST_PORT w in
        (Ret tt,
         (log (Rpc host port (call_of x)) w,
          match env_call E (trace w) host port (call_of x) with
          | Ret _ => ex
          | Raise e => <[host := e]> ex
          end))) ->
  ∃ w' ex',
    mapstar f items (w, ex) = (Ret tt, (w', ex'))
    ∧ self w' = self w ∧ lists w' = lists w ∧ dicts w' = dicts w
    ∧ trace w' = trace w
        ++ ((fun hx => Rpc hx.1 (leaf_port NODE_DEFAULT_REST_PORT w) (call_of hx.2)) <$> items)
    ∧ (∀ host e,
          (∀ t port x, env_call E t host port (call_of x) = Raise e) ->
          ex !! host = Some e \/ host ∈ items.*1 -> ex' !! host = Some e)
    ∧ (∀ host, is_Some (ex' !! host) -> is_Some (ex !! host) \/ host ∈ items.*1).
Proof.
  intros Hf. revert w ex. induction items as [|[host x] items IH]; intros w ex.
  - exists w, ex. cbn. rewrite app_nil_r. repeat split; try done.
    + intros h e _ [Hh|Hh]; [done|by apply elem_of_nil in Hh].
    + intros h Hh. by left.
  - cbn [mapstar]. rewrite Hf. cbn beta iota zeta.
    match goal with |- context [mapstar f items (?w1, ?ex1)] =>
      destruct (IH w1 ex1) as (w' & ex' & Heq & Hs & Hl & Hd & Ht & Hfail & Hdom) end.
    exists w', ex'. rewrite Heq. repeat split; try done.
    + rewrite Ht. cbn [trace log fmap list_fmap]. by rewrite <- app_assoc.
    + intros h e Hh Hin. apply Hfail; [done|].
      destruct (decide (h = host)) as [->|Hne].
      * left. rewrite Hh. apply lookup_insert_eq.
      * destruct Hin as [Hin|Hin].
        -- left. destruct (env_call E _ _ _ _); [done|]. by rewrite lookup_insert_ne.
        -- cbn in Hin. apply elem_of_cons in Hin as [Hin|Hin]; [done|by right].
    + intros h Hh. destruct (Hdom h Hh) as [Hex|Hin].
      * destruct (decide (h = host)) as [->|Hne]; [right; cbn; by left|].
        left. destruct (env_call E _ _ _ _); [done|]. by rewrite lookup_insert_ne in Hex.
      * right. cbn. by right.
Qed.

Lemma _add_node_subscriptions_wrapper_records sessionId host subs w ex :
  _add_node_subscriptions_wrapper E NODE_DEFAULT_REST_PORT sessionId (host, subs) (w, ex)
  = let port := leaf_port NODE_DEFAULT_REST_PORT w in
    (Ret tt,
     (log (Rpc host port (Call_add_node_subscriptions sessionId subs)) w,
      match env_call E (trace w) host port (Call_add_node_subscriptions sessionId subs) with
      | Ret _ => ex
      | Raise e => <[host := e]> ex
      end)).
Proof.
  unfold _add_node_subscriptions_wrapper, _add_node_subscriptions, dmAt, bind, get, ret,
    invoke, leaf_port.
  cbn [fst snd c_host c_port].
  by destruct (env_call E _ _ _ _).
Qed.

Lemma _triggerDrops_records session_id host uids w ex :
  _triggerDrops E NODE_DEFAULT_REST_PORT session_id (host, uids) (w, ex)
  = let port := leaf_port NODE_DEFAULT_REST_PORT w in
    (Ret tt,
     (log (Rpc host port (Call_trigger_drops session_id uids)) w,
      match env_call E (trace w) host port (Call_trigger_drops session_id uids) with
      | Ret _ => ex
      | Raise e => <[host := e]> ex
      end)).
Proof.
  unfold _triggerDrops, dmAt, bind, get, ret, invoke, leaf_port.
  cbn [fst snd c_host c_port].
  by destruct (env_call E _ _ _ _).
Qed.

(** X20.  When a node answers [add_node_subscriptions] with an error,
    [deploySession] raises the [DaliugeException] of the subscriptions with
    that node and its error in the dictionary of errors.  Every node of the
    inter-partition map has been sent its subscriptions all the same, and
    nothing else has been done: the session has not been deployed on any
    child. *)
Theorem deploySession_subscription_errors sessionId completedDrops w rels host subs e :
  _drop_rels (self w) !! sessionId = Some rels ->
  rels !! host = Some subs ->
  (∀ t port subs,
      env_call E t host port (Call_add_node_subscriptions sessionId subs) = Raise e) ->
  ∃ errors w',
    deploySession E NODE_DEFAULT_REST_PORT sessionId completedDrops w
    = (Raise (DaliugeException
                ("One or more exceptions occurred while adding node subscription: "
                 +:+ sessionId) (ErrorsArg errors)), w')
    ∧ (host, e) ∈ errors
    ∧ (∀ host' e', (host', e') ∈ errors -> is_Some (rels !! host'))
    ∧ trace w' = trace w ++ subscription_calls (leaf_port NODE_DEFAULT_REST_PORT w)
                              sessionId rels.
Proof.
  intros Hrels Hhost Hfails.
  unfold deploySession, bind at 1, deploySession_subscriptions, bind at 1, get at 1.
  unfold bind at 1, lift at 1, getitem. rewrite Hrels.
  destruct (mapstar_recording (Call_add_node_subscriptions sessionId)
              (_add_node_subscriptions_wrapper E NODE_DEFAULT_REST_PORT sessionId)
              (map_to_list rels) w ∅)
    as (w' & ex' & Hmap & _ & _ & _ & Htrace & Hfail & Hdom).
  { intros h x w0 ex0. apply _add_node_subscriptions_wrapper_records. }
  assert (ex' !! host = Some e) as Hex.
  { apply Hfail; [done|]. right. apply list_elem_of_fmap. exists (host, subs).
    split; [done|]. by apply elem_of_map_to_list. }
  apply (tp_map_ret _ (_tp (self w))) in Hmap.
  destruct (map_to_list rels) as [|i items] eqn:Hitems.
  { apply map_to_list_empty_iff in Hitems. subst rels. by rewrite lookup_empty in Hhost. }
  unfold bind at 1, pool_map. rewrite Hmap.
  destruct (map_to_list ex') as [|err errors] eqn:Herrors.
  { apply map_to_list_empty_iff in Herrors. subst ex'. by rewrite lookup_empty in Hex. }
  exists (err :: errors), w'. split; [done|]. rewrite <- Herrors.
  split; [by apply elem_of_map_to_list|]. split.
  - intros host' e' Hin. apply elem_of_map_to_list in Hin.
    destruct (Hdom host' ltac:(eauto)) as [Hempty|Hin'].
    + rewrite lookup_empty in Hempty. by destruct Hempty.
    + rewrite <- Hitems in Hin'. apply list_elem_of_fmap in Hin' as ([h s] & -> & Hin').
      apply elem_of_map_to_list in Hin'. eauto.
  - rewrite Htrace. unfold subscription_calls. by rewrite Hitems.
Qed.

(** X21.  The same for the completed drops: with the session deployed, every
    uid known and a node answering [trigger_drops] with an error,
    [deploySession] raises the [DaliugeException] of the completed drops with
    that node and its error, after every node has been sent its uids. *)
Theorem deploySession_trigger_errors sessionId completedDrops w w1 groups host uids e :
  bind (deploySession_subscriptions E NODE_DEFAULT_REST_PORT sessionId)
    (fun _ => deploySession_deploy E sessionId) w = (Ret tt, w1) ->
  (∀ uid, uid ∈ completedDrops -> is_Some (_graph (self w) !! uid)) ->
  group_by_node completedDrops (view w) = Ret groups ->
  groups !! host = Some uids ->
  (∀ t port uids, env_call E t host port (Call_trigger_drops sessionId uids) = Raise e) ->
  ∃ errors w',
    deploySession E NODE_DEFAULT_REST_PORT sessionId completedDrops w
    = (Raise (DaliugeException
                ("One or more exceptions occurred while moving DROPs to COMPLETED: "
                 +:+ sessionId) (ErrorsArg errors)), w')
    ∧ (host, e) ∈ errors
    ∧ (∀ host' e', (host', e') ∈ errors -> is_Some (groups !! host'))
    ∧ trace w' = trace w1 ++ trigger_calls (leaf_port NODE_DEFAULT_REST_PORT w)
                               sessionId groups.
Proof.
  intros Hbefore Hknown Hgroups Hhost Hfails.
  rewrite deploySession_parts, Hbefore.
  destruct (logs_deploySession_before E NODE_DEFAULT_REST_PORT sessionId w)
    as (Hself & _ & Hdicts & _).
  rewrite Hbefore in Hself, Hdicts. cbn [fst snd] in Hself, Hdicts.
  unfold deploySession_completed.
  destruct completedDrops as [|u us].
  { injection Hgroups as <-. by rewrite lookup_empty in Hhost. }
  unfold bind at 1, get at 1. rewrite Hself.
  rewrite bool_decide_eq_false_2.
  2:{ intros Hne. apply Hne. apply set_eq. intros x.
      rewrite elem_of_difference, elem_of_list_to_set, elem_of_dom.
      split; [|intros Hx; by apply elem_of_empty in Hx].
      intros [Hx Hno]. exfalso. by apply Hno, Hknown. }
  unfold bind at 1, lift at 1. rewrite (view_ext w w1) by done. rewrite Hgroups.
  destruct (mapstar_recording (Call_trigger_drops sessionId)
              (_triggerDrops E NODE_DEFAULT_REST_PORT sessionId)
              (map_to_list groups) w1 ∅)
    as (w' & ex' & Hmap & _ & _ & _ & Htrace & Hfail & Hdom).
  { intros h x w0 ex0. apply _triggerDrops_records. }
  assert (ex' !! host = Some e) as Hex.
  { apply Hfail; [done|]. right. apply list_elem_of_fmap. exists (host, uids).
    split; [done|]. by apply elem_of_map_to_list. }
  apply (tp_map_ret _ (_tp (self w1))) in Hmap.
  unfold bind at 1, pool_map. rewrite Hmap.
  destruct (map_to_list ex') as [|err errors] eqn:Herrors.
  { apply map_to_list_empty_iff in Herrors. subst ex'. by rewrite lookup_empty in Hex. }
  exists (err :: errors), w'. split; [done|]. rewrite <- Herrors.
  split; [by apply elem_of_map_to_list|]. split.
  - intros host' e' Hin. apply elem_of_map_to_list in Hin.
    destruct (Hdom host' ltac:(eauto)) as [Hempty|Hin'].
    + rewrite lookup_empty in Hempty. by destruct Hempty.
    + apply list_elem_of_fmap in Hin' as ([h s] & -> & Hin').
      apply elem_of_map_to_list in Hin'. eauto.
  - rewrite Htrace. unfold trigger_calls, leaf_port. by rewrite Hself.
Qed.

End Recording.

Section RecordingWitnesses.
Import Manager Props Scenarios.

Lemma deploySession_subscription_errors_witness :
  ∃ errors w',
    deploySession h2_fails_subscriptions NODE_DEFAULT_REST_PORT "s" [] island_graph
    = (Raise (DaliugeException
                ("One or more exceptions occurred while adding node subscription: "
                 +:+ "s") (ErrorsArg errors)), w')
    ∧ ("h2", RemoteError "h2 failed") ∈ errors
    ∧ (∀ host' e', (host', e') ∈ errors -> is_Some (island_map !! host'))
    ∧ trace w' = trace island_graph
                   ++ subscription_calls (leaf_port NODE_DEFAULT_REST_PORT island_graph)
                        "s" island_map.
Proof.
  apply (deploySession_subscription_errors h2_fails_subscriptions NODE_DEFAULT_REST_PORT
           "s" [] island_graph island_map "h2" (default ∅ (island_map !! "h2"))
           (RemoteError "h2 failed")).
  - vm_compute. reflexivity.
  - vm_compute. reflexivity.
  - intros t port subs. reflexivity.
Defined.

Lemma deploySession_trigger_errors_witness :
  ∃ errors w',
    deploySession h2_fails_trigger_drops NODE_DEFAULT_REST_PORT "s" ["A"; "B"] island_graph
    = (Raise (DaliugeException
                ("One or more exceptions occurred while moving DROPs to COMPLETED: "
                 +:+ "s") (ErrorsArg errors)), w')
    ∧ ("h2", RemoteError "h2 failed") ∈ errors
    ∧ (∀ host' e', (host', e') ∈ errors -> is_Some (island_groups !! host'))
    ∧ trace w' = trace island_deployed
                   ++ trigger_calls (leaf_port NODE_DEFAULT_REST_PORT island_graph)
                        "s" island_groups.
Proof.
  apply (deploySession_trigger_errors h2_fails_trigger_drops NODE_DEFAULT_REST_PORT
           "s" ["A"; "B"] island_graph island_deployed island_groups "h2" ["B"]
           (RemoteError "h2 failed")).
  - vm_compute. reflexivity.
  - intros uid Hin. apply elem_of_cons in Hin as [->|Hin].
    { eexists. vm_compute. reflexivity. }
    apply list_elem_of_singleton in Hin as ->. eexists. vm_compute. reflexivity.
  - vm_compute. reflexivity.
  - vm_compute. reflexivity.
  - intros t port uids. reflexivity.
Defined.

End RecordingWitnesses.

(** ** The pool and the lists of the manager *)

Section Object.
Import Manager Props.
Context (E : env).
Context (removeUnmetRelationships :
           list (gmap string string) -> list (gmap string string) * list DROPRel).
Context (addLink : string -> pyval -> string -> outcome pyval).
Context (NODE_DEFAULT_REST_PORT : Z).

#[local] Instance same_pool_preorder : PreOrder same_pool.
Proof.
  split; unfold same_pool; [intros m; done|]. intros m1 m2 m3 ? ?. congruence.
Qed.

(** X22.  The pool gets its number of threads when the manager is built,
    from the hosts that the list has then: at least one and at most twenty.
    No request changes it, whatever hosts are added afterwards; this holds
    for the three kinds of manager. *)
Theorem pool_size_fixed c dmPort partitionAttr dmExec subDmId dmHosts pkeyPath
    dmCheckTimeout lists0 dicts0 ISLAND_DEFAULT_REST_PORT requests :
  let size := 1 `max` (length (default [] (lists0 !! dmHosts)) `min` 20) in
  let after := fun w0 =>
    _tp (self (run E removeUnmetRelationships addLink NODE_DEFAULT_REST_PORT requests w0)) in
  1 ≤ size ≤ 20
  ∧ after (CompositeManager_init c dmPort partitionAttr dmExec subDmId dmHosts pkeyPath
             dmCheckTimeout lists0 dicts0) = size
  ∧ after (DataIslandManager_init NODE_DEFAULT_REST_PORT dmHosts pkeyPath dmCheckTimeout
             lists0 dicts0) = size
  ∧ after (MasterManager_init ISLAND_DEFAULT_REST_PORT dmHosts pkeyPath dmCheckTimeout
             lists0 dicts0) = size.
Proof.
  intros size after.
  assert (∀ w0, after w0 = _tp (self w0)) as Hfixed.
  { intros w0.
    apply (on_self_run E removeUnmetRelationships addLink NODE_DEFAULT_REST_PORT
             same_pool (fun _ => True)); [done..|apply adds_graph_to_any]. }
  split; [subst size; lia|]. by rewrite !Hfixed.
Qed.

(** X23.  [remove_node] of a node that is not among the nodes raises the
    [ValueError] of [list.remove] and changes nothing.  On a manager that is
    not a [DataIslandManager], adding such a node and removing it again
    gives back the list of nodes; on a [DataIslandManager], whose nodes and
    hosts are one list, the node was appended twice and is still there
    once. *)
Theorem add_node_remove_node node w :
  node ∉ list_at (_nodes (self w)) w ->
  remove_node node w = (Raise (ValueError "list.remove(x): x not in list"), w)
  ∧ (cls (self w) ≠ DataIslandManager ->
     ∃ w', bind (add_node node) (fun _ => remove_node node) w = (Ret tt, w')
           ∧ self w' = self w
           ∧ list_at (_nodes (self w')) w' = list_at (_nodes (self w)) w)
  ∧ (cls (self w) = DataIslandManager -> _dmHosts (self w) = _nodes (self w) ->
     ∃ w', bind (add_node node) (fun _ => remove_node node) w = (Ret tt, w')
           ∧ self w' = self w
           ∧ list_at (_nodes (self w')) w' = list_at (_nodes (self w)) w ++ [node]).
Proof.
  intros Hnew. split; [|split].
  - unfold remove_node, bind, get, lift. by rewrite list_remove_absent.
  - intros Hcls.
    assert (add_node node w = (Ret tt, list_append (_nodes (self w)) node w)) as Hadd.
    { unfold add_node, bind, get. by destruct (cls (self w)). }
    unfold bind. rewrite Hadd. unfold remove_node, bind, get, lift, modify.
    cbn [self list_append set_lists].
    rewrite list_at_list_append, list_remove_last by done.
    eexists. split; [done|]. split; [done|].
    unfold list_at. cbn. by rewrite lookup_insert_eq.
  - intros Hcls Hsame.
    assert (add_node node w
            = (Ret tt, list_append (_nodes (self w)) node
                         (list_append (_nodes (self w)) node w))) as Hadd.
    { unfold add_node, bind, get. rewrite Hcls.
      unfold DataIslandManager_add_node, CompositeManager_add_node, bind, get, modify.
      cbn [self list_append set_lists]. by rewrite Hsame. }
    unfold bind. rewrite Hadd. unfold remove_node, bind, get, lift, modify.
    cbn [self list_append set_lists].
    rewrite !list_at_list_append, <- app_assoc. cbn [app].
    rewrite list_remove_first by done.
    eexists. split; [done|]. split; [done|].
    unfold list_at. cbn. by rewrite lookup_insert_eq.
Qed.

End Object.

Section ObjectWitnesses.
Import Manager Props Scenarios.

Lemma add_node_remove_node_witness :
  remove_node "n1" master = (Raise (ValueError "list.remove(x): x not in list"), master)
  ∧ (∃ w', bind (add_node "n1") (fun _ => remove_node "n1") master = (Ret tt, w')
           ∧ self w' = self master
           ∧ list_at (_nodes (self w')) w' = list_at (_nodes (self master)) master)
  ∧ (∃ w', bind (add_node "n1") (fun _ => remove_node "n1") island = (Ret tt, w')
           ∧ self w' = self island
           ∧ list_at (_nodes (self w')) w' = list_at (_nodes (self island)) island ++ ["n1"]).
Proof.
  split; [|split].
  - apply (add_node_remove_node "n1" master). vm_compute. apply not_elem_of_nil.
  - apply (proj1 (proj2 (add_node_remove_node "n1" master ltac:(vm_compute; apply not_elem_of_nil)))).
    intros Hcls. discriminate Hcls.
  - apply (proj2 (proj2 (add_node_remove_node "n1" island
                           ltac:(vm_compute; intros Hin;
                                 apply elem_of_cons in Hin as [Hin|Hin]; [discriminate Hin|];
                                 apply list_elem_of_singleton in Hin; discriminate Hin))));
      reflexivity.
Defined.

End ObjectWitnesses.

(** ** Adding a graph, further *)

Section AddGraphSpecMore.
Import Manager Props.

Lemma default_dd_append_any {V} (k : string) (x : V) d n :
  default [] (dd_append k x d !! n)
  = if decide (n = k) then default [] (d !! k) ++ [x] else default [] (d !! n).
Proof.
  unfold dd_append. case_decide as Hn.
  - subst n. by rewrite lookup_insert_eq.
  - by rewrite lookup_insert_ne.
Qed.

Lemma addGraphSpec_partition_ret_from graphSpec perPartition g w pp w' :
  addGraphSpec_partition graphSpec perPartition (with_graph g w) = (Ret pp, w') ->
  Forall (accepted w) graphSpec
  ∧ w' = with_graph (foldl (fun g l => <[uid_of w l := l]> g) g graphSpec) w
  ∧ ∀ h, default [] (pp !! h)
         = default [] (perPartition !! h) ++ filter (in_partition w h) graphSpec.
Proof.
  revert perPartition g. induction graphSpec as [|l graphSpec IH]; intros perPartition g.
  - intros [= <- <-]. split; [done|]. split; [done|]. intros h. by rewrite app_nil_r.
  - cbn [addGraphSpec_partition foldl].
    unfold bind at 1, get at 1. cbn [fst snd].
    change (dict_at l (with_graph g w)) with (dict_at l w).
    change (_partitionAttr (self (with_graph g w))) with (_partitionAttr (self w)).
    change (list_at (_dmHosts (self (with_graph g w))) (with_graph g w))
      with (list_at (_dmHosts (self w)) w).
    destruct (dict_at l w !! _partitionAttr (self w)) as [partition|] eqn:Hp.
    2:{ unfold bind, lift. destruct (getitem (dict_at l w) "oid"); intros Heq; discriminate Heq. }
    case_bool_decide as Hin.
    2:{ unfold bind, lift. destruct (getitem (dict_at l w) "oid"); intros Heq; discriminate Heq. }
    unfold bind at 1, lift at 1.
    destruct (uid_for_drop (dict_at l w)) as [uid|e] eqn:Huid; [|intros Heq; discriminate Heq].
    unfold bind at 1, modify at 1. intros Hrest.
    apply (IH (dd_append partition l perPartition) (<[uid := l]> g)) in Hrest
      as (Hacc & Hw' & Hpp).
    split; [|split].
    + apply Forall_cons. split; [|done]. exists partition, uid. done.
    + unfold uid_of at 2. by rewrite Huid.
    + intros h. rewrite Hpp, default_dd_append_any, filter_cons.
      destruct (decide (in_partition w h l)) as [Hy|Hn].
      * unfold in_partition in Hy. rewrite Hp in Hy. injection Hy as ->.
        rewrite decide_True by done. by rewrite <- app_assoc.
      * rewrite decide_False; [done|]. intros ->. apply Hn. exact Hp.
Qed.

(** X24.  The first loop of [addGraphSpec] returns exactly when it accepts
    every drop specification.  Then the graph has each of them under its
    identifier, and the bucket of a host holds the drop specifications that
    name this host as their partition, in the order of the graph
    specification. *)
Theorem addGraphSpec_partition_buckets graphSpec w :
  ((∃ pp w', addGraphSpec_partition graphSpec ∅ w = (Ret pp, w'))
   <-> Forall (accepted w) graphSpec)
  ∧ ∀ pp w',
      addGraphSpec_partition graphSpec ∅ w = (Ret pp, w') ->
      w' = with_graph (graph_after w graphSpec) w
      ∧ ∀ h, default [] (pp !! h) = filter (in_partition w h) graphSpec.
Proof.
  split.
  - split.
    + intros (pp & w' & Hret). rewrite <- (with_graph_same w) in Hret.
      by apply addGraphSpec_partition_ret_from in Hret as (Hacc & _).
    + intros Hacc.
      destruct (addGraphSpec_partition_accepted graphSpec [] ∅ w Hacc) as [pp Heq].
      rewrite app_nil_r in Heq. rewrite Heq. cbn. eauto.
  - intros pp w' Hret. rewrite <- (with_graph_same w) in Hret.
    apply addGraphSpec_partition_ret_from in Hret as (_ & Hw' & Hpp).
    split; [done|]. intros h. by rewrite Hpp, lookup_empty.
Qed.

Lemma sanitize_relations_known rels graph :
  indexed_by_uid graph -> Forall (ends_known graph) rels ->
  sanitize_relations rels graph = Ret rels.
Proof.
  intros Hidx. induction rels as [|[l r d] rels IH]; intros Hall; [done|].
  apply Forall_cons in Hall as [[[sl Hl] [sd Hd]] Hall]. cbn in Hl, Hd.
  cbn [sanitize_relations lhs rhs rel]. unfold getitem.
  rewrite Hl. cbn [bindO]. rewrite (Hidx _ _ Hl). cbn [bindO].
  rewrite Hd. cbn [bindO]. rewrite (Hidx _ _ Hd). cbn [bindO].
  by rewrite IH.
Qed.

Lemma sanitize_relations_raises rels graph e :
  indexed_by_uid graph ->
  sanitize_relations rels graph = Raise e ->
  ∃ r, r ∈ rels
       ∧ (e = KeyError (lhs r) ∧ graph !! lhs r = None
          \/ e = KeyError (rhs r) ∧ graph !! rhs r = None).
Proof.
  intros Hidx. induction rels as [|[l r d] rels IH]; [done|].
  cbn [sanitize_relations lhs rhs rel]. unfold getitem.
  destruct (graph !! l) as [sl|] eqn:Hl.
  2:{ intros [= <-]. exists (mkDROPRel l r d). split; [by left|]. left. done. }
  cbn [bindO]. rewrite (Hidx _ _ Hl). cbn [bindO].
  destruct (graph !! d) as [sd|] eqn:Hd.
  2:{ intros [= <-]. exists (mkDROPRel l r d). split; [by left|]. right. done. }
  cbn [bindO]. rewrite (Hidx _ _ Hd). cbn [bindO].
  destruct (sanitize_relations rels graph) as [rs|e']; [done|].
  cbn [bindO]. intros [= <-]. destruct (IH eq_refl) as (r0 & Hin & Hr0).
  exists r0. split; [by right|done].
Qed.

(** X25.  In a graph indexed by the identifiers of its drop specifications,
    [sanitize_relations] can do two things only: return the relationships as
    they are, which it does exactly when both ends of each of them are keys
    of the graph, or raise the [KeyError] of an end that is not. *)
Theorem sanitize_relations_indexed rels graph :
  indexed_by_uid graph ->
  (sanitize_relations rels graph = Ret rels <-> Forall (ends_known graph) rels)
  ∧ (∀ rels', sanitize_relations rels graph = Ret rels' -> rels' = rels)
  ∧ (∀ e, sanitize_relations rels graph = Raise e ->
          ∃ r, r ∈ rels
               ∧ (e = KeyError (lhs r) ∧ graph !! lhs r = None
                  \/ e = KeyError (rhs r) ∧ graph !! rhs r = None)).
Proof.
  intros Hidx. split; [|split].
  - split; [|by apply sanitize_relations_known].
    intros Hret. apply Forall_forall. intros r Hin.
    destruct (decide (is_Some (graph !! lhs r))) as [Hl|Hl];
      [destruct (decide (is_Some (graph !! rhs r))) as [Hr|Hr]; [done|]|]; exfalso.
    + clear Hl. induction rels as [|[l0 r0 d0] rels IH]; [by apply elem_of_nil in Hin|].
      cbn [sanitize_relations lhs rhs rel] in Hret. unfold getitem in Hret.
      destruct (graph !! l0) as [sl|] eqn:Hl0; [|done]. cbn [bindO] in Hret.
      rewrite (Hidx _ _ Hl0) in Hret. cbn [bindO] in Hret.
      destruct (graph !! d0) as [sd|] eqn:Hd0; [|done]. cbn [bindO] in Hret.
      rewrite (Hidx _ _ Hd0) in Hret. cbn [bindO] in Hret.
      destruct (sanitize_relations rels graph) as [rs|] eqn:Hrs; [|done].
      cbn [bindO] in Hret. injection Hret as ->.
      apply elem_of_cons in Hin as [->|Hin]; [|by apply IH].
      apply Hr. cbn. rewrite Hd0. eauto.
    + induction rels as [|[l0 r0 d0] rels IH]; [by apply elem_of_nil in Hin|].
      cbn [sanitize_relations lhs rhs rel] in Hret. unfold getitem in Hret.
      destruct (graph !! l0) as [sl|] eqn:Hl0; [|done]. cbn [bindO] in Hret.
      rewrite (Hidx _ _ Hl0) in Hret. cbn [bindO] in Hret.
      destruct (graph !! d0) as [sd|] eqn:Hd0; [|done]. cbn [bindO] in Hret.
      rewrite (Hidx _ _ Hd0) in Hret. cbn [bindO] in Hret.
      destruct (sanitize_relations rels graph) as [rs|] eqn:Hrs; [|done].
      cbn [bindO] in Hret. injection Hret as ->.
      apply elem_of_cons in Hin as [->|Hin]; [|by apply IH].
      apply Hl. cbn. rewrite Hl0. eauto.
  - intros rels'. by apply sanitize_relations_changes_nothing.
  - intros e. by apply sanitize_relations_raises.
Qed.

End AddGraphSpecMore.

Section AddGraphSpecMoreWitnesses.
Import Manager Props Scenarios.

Lemma addGraphSpec_partition_buckets_witness :
  addGraphSpec_partition [0; 1] ∅ island_specs
  = (Ret island_buckets, with_graph (graph_after island_specs [0; 1]) island_specs)
  ∧ ∀ h, default [] (island_buckets !! h) = filter (in_partition island_specs h) [0; 1].
Proof.
  assert (addGraphSpec_partition [0; 1] ∅ island_specs
          = (Ret island_buckets, with_graph (graph_after island_specs [0; 1]) island_specs))
    as Hret by (vm_compute; reflexivity).
  split; [exact Hret|].
  apply (proj2 (addGraphSpec_partition_buckets [0; 1] island_specs) _ _ Hret).
Defined.

Lemma island_graph_indexed : indexed_by_uid (view island_graph).
Proof.
  assert (view island_graph = {[ "A" := spec_A_h1; "B" := spec_B_h2 ]}) as ->
      by (vm_compute; reflexivity).
  intros k spec Hk.
  apply lookup_insert_Some in Hk as [[<- <-]|[_ Hk]]; [vm_compute; reflexivity|].
  apply lookup_singleton_Some in Hk as [<- <-]. vm_compute. reflexivity.
Qed.

Lemma sanitize_relations_indexed_witness :
  sanitize_relations [rel_A_B] (view island_graph) = Ret [rel_A_B]
  ∧ ∀ e, sanitize_relations [mkDROPRel "A" "STREAM" "C"] (view island_graph) = Raise e ->
         ∃ r, r ∈ [mkDROPRel "A" "STREAM" "C"]
              ∧ (e = KeyError (lhs r) ∧ view island_graph !! lhs r = None
                 \/ e = KeyError (rhs r) ∧ view island_graph !! rhs r = None).
Proof.
  split.
  - apply (proj1 (sanitize_relations_indexed [rel_A_B] (view island_graph)
                    island_graph_indexed)).
    apply Forall_singleton. split; eexists; vm_compute; reflexivity.
  - apply (proj2 (proj2 (sanitize_relations_indexed [mkDROPRel "A" "STREAM" "C"]
                           (view island_graph) island_graph_indexed))).
Defined.

End AddGraphSpecMoreWitnesses.

(** ** The graph stays indexed *)

Section Indexed.
Import Manager Props.
Context (E : env).
Context (removeUnmetRelationships :
           list (gmap string string) -> list (gmap string string) * list DROPRel).
Context (addLink : string -> pyval -> string -> outcome pyval).
Context (NODE_DEFAULT_REST_PORT : Z).
Hypothesis removeUnmetRelationships_keeps_ids : keeps_ids removeUnmetRelationships.

#[local] Instance stays_indexed_preorder : PreOrder stays_indexed.
Proof. split; unfold stays_indexed; [intros w|intros w1 w2 w3]; tauto. Qed.

Lemma stays_indexed_view w w' : view w' = view w -> stays_indexed w w'.
Proof. unfold stays_indexed. by intros ->. Qed.

Lemma stays_indexed_logs {A} P (m : M A) :
  preserves (logs P) m -> preserves stays_indexed m.
Proof.
  apply preserves_weaken. intros w w' (Hself & _ & Hdicts & _).
  by apply stays_indexed_view, view_ext.
Qed.

Lemma stays_indexed_createSession sessionId :
  preserves stays_indexed (createSession E sessionId).
Proof.
  unfold createSession. pres_bind.
  - apply (stays_indexed_logs (fun _ => True)), logs_replicate; [done..|].
    apply calls_with__createSession.
  - intros c. apply preserves_modify. intros w. by apply stays_indexed_view.
Qed.

Lemma stays_indexed_destroySession sessionId :
  preserves stays_indexed (destroySession E sessionId).
Proof.
  unfold destroySession. pres_bind.
  - apply (stays_indexed_logs (fun _ => True)), logs_replicate; [done..|].
    apply calls_with__destroySession.
  - intros c w. unfold bind, get, lift, modify.
    destruct (list_remove sessionId (_sessionIds (self w))); [|reflexivity].
    by apply stays_indexed_view.
Qed.

Lemma stays_indexed_insert w uid l :
  uid_for_drop (dict_at l w) = Ret uid ->
  stays_indexed w (set_self (set_graph (<[uid := l]> (_graph (self w))) (self w)) w).
Proof.
  intros Huid Hidx k spec. unfold view. cbn. rewrite fmap_insert.
  intros Hk. apply lookup_insert_Some in Hk as [[<- <-]|[_ Hk]]; [done|].
  by apply Hidx.
Qed.

Lemma stays_indexed_addGraphSpec_partition graphSpec perPartition :
  preserves stays_indexed (addGraphSpec_partition graphSpec perPartition).
Proof.
  revert perPartition. induction graphSpec as [|l graphSpec IH]; intros perPartition w.
  - reflexivity.
  - cbn [addGraphSpec_partition]. unfold bind at 1, get at 1.
    destruct (dict_at l w !! _partitionAttr (self w)) as [partition|].
    + case_bool_decide.
      * unfold bind at 1, lift at 1.
        destruct (uid_for_drop (dict_at l w)) as [uid|e] eqn:Huid; [|reflexivity].
        unfold bind at 1, modify at 1.
        etrans; [|apply IH]. by apply stays_indexed_insert.
      * unfold bind, lift. destruct (getitem (dict_at l w) "oid"); reflexivity.
    + unfold bind, lift. destruct (getitem (dict_at l w) "oid"); reflexivity.
Qed.

Lemma foldl_insert_uid (w : world) lcs (d : gmap loc (gmap string string)) :
  Forall (fun lc => uid_for_drop lc.2 = uid_for_drop (dict_at lc.1 w)) lcs ->
  (∀ l, uid_for_drop (default ∅ (d !! l)) = uid_for_drop (dict_at l w)) ->
  ∀ l, uid_for_drop (default ∅ (foldl (fun d lc => <[lc.1 := lc.2]> d) d lcs !! l))
       = uid_for_drop (dict_at l w).
Proof.
  revert d. induction lcs as [|[l0 c0] lcs IH]; intros d Hall Hd; [done|].
  apply Forall_cons in Hall as [Hlc Hall]. cbn [foldl]. apply IH; [done|].
  intros l. cbn. destruct (decide (l = l0)) as [->|Hne].
  - by rewrite lookup_insert_eq.
  - by rewrite lookup_insert_ne.
Qed.

Lemma stays_indexed_write_back dropSpecs w :
  stays_indexed w
    (write_back dropSpecs
       (removeUnmetRelationships ((fun l => dict_at l w) <$> dropSpecs)).1 w).
Proof.
  intros Hidx k spec. unfold view, write_back. cbn.
  rewrite lookup_fmap. destruct (_graph (self w) !! k) as [l|] eqn:Hk; [|done].
  cbn. intros [= <-]. unfold dict_at at 1. cbn.
  rewrite (foldl_insert_uid w).
  - apply Hidx. unfold view. by rewrite lookup_fmap, Hk.
  - apply Forall_forall. intros [l0 c0] Hin.
    apply list_elem_of_lookup in Hin as [i Hi].
    apply lookup_zip_Some in Hi as [Hl Hc]. cbn.
    eapply removeUnmetRelationships_keeps_ids; [|exact Hc].
    by rewrite list_lookup_fmap, Hl.
  - done.
Qed.

Lemma stays_indexed_addGraphSpec_unmet partitions :
  preserves stays_indexed (addGraphSpec_unmet removeUnmetRelationships partitions).
Proof.
  induction partitions as [|dropSpecs partitions IH]; intros w.
  - reflexivity.
  - cbn [addGraphSpec_unmet]. unfold bind at 1, get at 1.
    pose proof (stays_indexed_write_back dropSpecs w) as Hwb.
    destruct (removeUnmetRelationships _) as [contents rels].
    unfold bind at 1, modify at 1. cbn [fst] in Hwb.
    specialize (IH (write_back dropSpecs contents w)).
    unfold bind.
    destruct (addGraphSpec_unmet removeUnmetRelationships partitions
                (write_back dropSpecs contents w)) as [[rels'|e] w1];
      (etrans; [exact Hwb|exact IH]).
Qed.

Lemma stays_indexed_addGraphSpec sessionId graphSpec :
  preserves stays_indexed (addGraphSpec E removeUnmetRelationships sessionId graphSpec).
Proof.
  unfold addGraphSpec.
  pres_bind; [apply stays_indexed_addGraphSpec_partition|]. intros perPartition.
  pres_bind; [apply stays_indexed_addGraphSpec_unmet|]. intros rels.
  pres_bind; [pres_leaf|]. intros w.
  pres_bind; [pres_leaf|]. intros rels'.
  pres_bind; [pres_leaf|]. intros drop_rels.
  pres_bind.
  { apply preserves_modify. intros w'. by apply stays_indexed_view. }
  intros []. pres_bind; [pres_leaf|]. intros w'.
  pres_bind; [|intros c; pres_leaf].
  apply (stays_indexed_logs (fun _ => True)), logs_replicate; [done..|].
  by apply calls_with__addGraphSpec.
Qed.

(** A new object is not one that the graph refers to. *)
Lemma stays_indexed_alloc w c :
  stays_indexed w (set_dicts (<[fresh (dom (dicts w)) := c]> (dicts w)) w).
Proof.
  intros Hidx k spec. unfold view. cbn. rewrite lookup_fmap.
  destruct (_graph (self w) !! k) as [l|] eqn:Hk; [|done]. cbn. intros [= <-].
  assert (uid_for_drop (dict_at l w) = Ret k) as Huid.
  { apply Hidx. unfold view. by rewrite lookup_fmap, Hk. }
  unfold dict_at at 1. cbn.
  destruct (decide (l = fresh (dom (dicts w)))) as [->|Hne].
  - exfalso. unfold dict_at in Huid.
    assert (dicts w !! fresh (dom (dicts w)) = None) as Hnone
        by (apply not_elem_of_dom, is_fresh).
    rewrite Hnone in Huid. discriminate Huid.
  - by rewrite lookup_insert_ne.
Qed.

Lemma stays_indexed_new_dicts contents : preserves stays_indexed (new_dicts contents).
Proof.
  induction contents as [|c contents IH]; intros w.
  - reflexivity.
  - cbn [new_dicts]. unfold bind at 1, get at 1. unfold bind at 1, modify at 1.
    unfold bind.
    pose proof (stays_indexed_alloc w c) as Halloc.
    match goal with |- context [new_dicts contents ?w1] =>
      specialize (IH w1); destruct (new_dicts contents w1) as [[ls|e] w2] end;
      (etrans; [exact Halloc|exact IH]).
Qed.

Lemma stays_indexed_handle r :
  preserves stays_indexed
    (handle E removeUnmetRelationships addLink NODE_DEFAULT_REST_PORT r).
Proof.
  destruct r; cbn [handle].
  - apply stays_indexed_createSession.
  - apply stays_indexed_destroySession.
  - pres_bind; [apply stays_indexed_new_dicts|]. intros ls.
    apply stays_indexed_addGraphSpec.
  - apply (stays_indexed_logs (fun _ => True)), logs_deploySession.
  - pres_bind; [|intros; pres_leaf].
    apply (stays_indexed_logs (fun _ => True)), logs_getGraphStatus.
  - pres_bind; [|intros; pres_leaf].
    apply (stays_indexed_logs (fun _ => True)), logs_getGraph.
  - pres_bind; [|intros; pres_leaf].
    apply (stays_indexed_logs (fun _ => True)), logs_getSessionStatus.
  - pres_bind; [|intros; pres_leaf].
    apply (stays_indexed_logs (fun _ => True)), logs_getGraphSize.
  - intros w. by apply stays_indexed_view.
  - intros w. apply stays_indexed_view.
    unfold add_node, bind, get. by destruct (cls (self w)).
  - intros w. apply stays_indexed_view.
    unfold remove_node, bind, get, lift.
    by destruct (list_remove node (list_at (_nodes (self w)) w)).
Qed.

(** X26.  With a graph loader that leaves each drop specification its
    identifier, the graph of the manager stays indexed by these identifiers
    through any run of requests (the graph of a new manager is empty): under
    a key is a drop specification whose [uid], or [oid] when it has no [uid],
    is that key. *)
Theorem graph_stays_indexed requests w :
  indexed_by_uid (view w) ->
  indexed_by_uid
    (view (run E removeUnmetRelationships addLink NODE_DEFAULT_REST_PORT requests w)).
Proof.
  revert w. induction requests as [|r requests IH]; intros w Hidx; [done|].
  cbn [run]. apply IH. by apply (stays_indexed_handle r w).
Qed.

End Indexed.

Section IndexedWitnesses.
Import Manager Props Scenarios.

Lemma graph_stays_indexed_witness :
  view island_s = ∅
  ∧ indexed_by_uid
      (view (run all_well (unmet_when spec_B_h2 rel_A_B) no_link NODE_DEFAULT_REST_PORT
               [Req_addGraphSpec "s" [spec_A_h1; spec_B_h2]; Req_deploySession "s" ["A"]]
               island_s)).
Proof.
  assert (view island_s = ∅) as Hempty by (vm_compute; reflexivity).
  split; [exact Hempty|].
  apply (graph_stays_indexed all_well (unmet_when spec_B_h2 rel_A_B) no_link
           NODE_DEFAULT_REST_PORT).
  - intros dropSpecs i before after Hbefore Hafter. cbn in Hafter. congruence.
  - rewrite Hempty. intros k spec Hk. by rewrite lookup_empty in Hk.
Defined.

End IndexedWitnesses.

(** ** A graph specification without drops *)

Section EmptyGraph.
Import Manager Props.
Context (E : env).
Context (removeUnmetRelationships :
           list (gmap string string) -> list (gmap string string) * list DROPRel).

Lemma unpack_Host_ret host x : unpack (Host host) = Ret x -> String.length host = 2.
Proof. destruct host as [|a [|b [|c t]]]; cbn; intros Heq; by try discriminate Heq. Qed.

Lemma _do_in_host__addGraphSpec_ret sessionId host s s' :
  _do_in_host E sessionId (_addGraphSpec E) (Host host) s = (Ret tt, s') ->
  String.length host = 2.
Proof.
  destruct s as [w [ex col]]. unfold _do_in_host, _do_in_host_try, bind. cbn [item_host].
  destruct (ensureDM E host 10 w) as [[[]|e] w1].
  2:{ intros Heq. discriminate Heq. }
  unfold dmAt, bind, get, ret, _addGraphSpec, bind, lift.
  destruct (unpack (Host host)) as [[h g]|e] eqn:Hunpack.
  - intros _. by apply unpack_Host_ret in Hunpack.
  - intros Heq. discriminate Heq.
Qed.

Lemma mapstar__addGraphSpec_ret sessionId hosts s s' :
  mapstar (_do_in_host E sessionId (_addGraphSpec E)) (Host <$> hosts) s = (Ret tt, s') ->
  Forall (fun host => String.length host = 2) hosts.
Proof.
  revert s. induction hosts as [|host hosts IH]; intros s; [done|].
  cbn [fmap list_fmap mapstar].
  destruct (_do_in_host E sessionId (_addGraphSpec E) (Host host) s) as [[[]|e] s1] eqn:Hhost;
    [|intros Heq; discriminate Heq].
  intros Hrest. apply Forall_cons. split.
  - by apply _do_in_host__addGraphSpec_ret in Hhost.
  - by apply IH in Hrest.
Qed.

(** X27.  For a graph specification without drops the dictionary of
    partitions is empty, so the iterable of [replicate] is empty and stands
    for the hosts: [_addGraphSpec] gets a host where it expects a pair of a
    host and its part of the graph.  With a host whose name is not two
    characters long the call raises, after the empty inter-partition map of
    the session has been stored; without hosts it returns. *)
Theorem addGraphSpec_without_drops sessionId w :
  let r := addGraphSpec E removeUnmetRelationships sessionId [] w in
  _drop_rels (self r.2) !! sessionId = Some ∅
  ∧ _graph (self r.2) = _graph (self w)
  ∧ ((∃ host, host ∈ list_at (_dmHosts (self w)) w ∧ String.length host ≠ 2) ->
     is_raise r.1)
  ∧ (list_at (_dmHosts (self w)) w = [] -> r.1 = Ret tt ∧ trace r.2 = trace w).
Proof.
  cbn zeta.
  set (w1 := set_self (set_drop_rels (<[sessionId := ∅]> (_drop_rels (self w))) (self w)) w).
  assert (addGraphSpec E removeUnmetRelationships sessionId [] w
          = match replicate E sessionId (_addGraphSpec E)
                    "appending graphSpec to individual DMs" NoCollect [] w1 with
            | (Ret _, w2) => (Ret tt, w2)
            | (Raise e, w2) => (Raise e, w2)
            end) as ->.
  { unfold addGraphSpec. cbn [addGraphSpec_partition]. unfold bind, ret, get, lift, modify.
    rewrite map_to_list_empty.
    cbn [fmap list_fmap addGraphSpec_unmet sanitize_relations addGraphSpec_rels].
    unfold ret. cbn [sanitize_relations addGraphSpec_rels]. fold w1.
    by destruct (replicate E sessionId (_addGraphSpec E) _ NoCollect [] w1) as [[c|e] w2]. }
  pose proof (replicate_self E sessionId (_addGraphSpec E)
                "appending graphSpec to individual DMs" NoCollect [] w1
                (calls_with__addGraphSpec E (fun _ => True) ltac:(done))) as Hself.
  split; [|split; [|split]].
  - destruct (replicate E sessionId (_addGraphSpec E) _ NoCollect [] w1) as [[c|e] w2];
      cbn [fst snd] in *; rewrite Hself; cbn; by rewrite lookup_insert_eq.
  - destruct (replicate E sessionId (_addGraphSpec E) _ NoCollect [] w1) as [[c|e] w2];
      cbn [fst snd] in *; by rewrite Hself.
  - intros (host & Hin & Hlen).
    destruct (replicate E sessionId (_addGraphSpec E) _ NoCollect [] w1) as [[c|e] w2] eqn:Hr;
      [|done].
    exfalso. rewrite replicate_ends_as_map in Hr. cbn zeta in Hr. unfold pool_map in Hr.
    destruct (tp_map _ _ _ (w1, (∅, NoCollect))) as [[[]|e] [w3 l3]] eqn:Hmap; [|done].
    apply tp_map_ret, mapstar__addGraphSpec_ret in Hmap.
    apply Hlen. eapply (proj1 (Forall_forall _ _) Hmap). exact Hin.
  - intros Hhosts.
    rewrite replicate_no_hosts by exact Hhosts. done.
Qed.

End EmptyGraph.

Section EmptyGraphWitnesses.
Import Manager Props Scenarios.

Lemma addGraphSpec_without_drops_witness :
  _drop_rels (self (addGraphSpec all_well no_unmet "s" [] master).2) !! "s" = Some ∅
  ∧ is_raise (addGraphSpec all_well no_unmet "s" [] master).1
  ∧ (addGraphSpec all_well no_unmet "s" [] lonely).1 = Ret tt.
Proof.
  split; [|split].
  - apply (addGraphSpec_without_drops all_well no_unmet "s" master).
  - apply (proj1 (proj2 (proj2 (addGraphSpec_without_drops all_well no_unmet "s" master)))).
    exists "localhost". split; [vm_compute; apply list_elem_of_here|].
    intros Hlen. discriminate Hlen.
  - apply (proj2 (proj2 (proj2 (addGraphSpec_without_drops all_well no_unmet "s" lonely)))).
    reflexivity.
Defined.

End EmptyGraphWitnesses.

(** ** The checker of the children *)

Section CheckDM.
Import Manager Props.
Context (E : env).

Lemma ensureDM_probes host timeout w :
  ∃ evs, trace (ensureDM E host timeout w).2
         = trace w ++ Probe host (_dmPort (self w)) timeout :: evs.
Proof.
  unfold ensureDM, startDM, subDMCommandLine, Manager.portIsOpen, execRemote,
    bind, get, ret, raise. cbn [fst snd].
  destruct (env_portIsOpen E (trace w) _ _ _) as [[]|]; cbn; [by exists []| |by exists []].
  match goal with |- context [env_execRemote E ?t ?h ?k ?c] =>
    destruct (env_execRemote E t h k c) as [[[out err] status]|] end; cbn.
  2:{ eexists. by rewrite <- app_assoc. }
  case_bool_decide; cbn; [eexists; by rewrite <- app_assoc|].
  match goal with |- context [env_portIsOpen E ?t ?h ?p ?to] =>
    destruct (env_portIsOpen E t h p to) as [[]|] end; cbn;
    eexists; by rewrite <- !app_assoc.
Qed.

Lemma checkDM_hosts_quiet is_set i hosts w :
  (_checkDM_hosts E is_set i hosts w).1 = Ret tt
  ∧ logs is_setup w (_checkDM_hosts E is_set i hosts w).2
  ∧ ((∀ j, is_set j = false) ->
     ∀ host, host ∈ hosts ->
             Probe host (_dmPort (self w)) (_dmCheckTimeout (self w))
             ∈ trace (_checkDM_hosts E is_set i hosts w).2).
Proof.
  revert i w. induction hosts as [|host hosts IH]; intros i w.
  - cbn. split; [done|]. split; [reflexivity|]. intros _ h Hh. by apply elem_of_nil in Hh.
  - cbn [_checkDM_hosts]. destruct (is_set i) eqn:Hi.
    { split; [done|]. split; [reflexivity|]. intros Hnever. by rewrite Hnever in Hi. }
    cbn zeta.
    pose proof (logs_ensureDM E is_setup ltac:(done) ltac:(done) host
                  (_dmCheckTimeout (self w)) w) as Hlog.
    destruct (ensureDM_probes host (_dmCheckTimeout (self w)) w) as [evs Hevs].
    destruct (IH (S i) (ensureDM E host (_dmCheckTimeout (self w)) w).2)
      as (Hret & Hlogs & Hprobes).
    split; [done|]. split; [by etrans|].
    intros Hnever h Hh.
    destruct Hlog as (Hself & _). destruct Hlogs as (_ & _ & _ & evs' & Htrace & _).
    apply elem_of_cons in Hh as [->|Hh].
    + rewrite Htrace, Hevs. apply elem_of_app. left. apply elem_of_app. right. by left.
    + specialize (Hprobes Hnever h Hh). by rewrite Hself in Hprobes.
Qed.

(** X28.  A pass of the checker over the hosts never raises, whatever
    [ensureDM] does: it leaves the manager and the store as they are and only
    probes children and runs the command that starts them, without calling
    any.  When it is not stopped on the way, it has probed every host. *)
Theorem checkDM_pass_quiet is_set w :
  (_checkDM_pass E is_set w).1 = Ret tt
  ∧ logs is_setup w (_checkDM_pass E is_set w).2
  ∧ ((∀ i, is_set i = false) ->
     ∀ host, host ∈ list_at (_dmHosts (self w)) w ->
             Probe host (_dmPort (self w)) (_dmCheckTimeout (self w))
             ∈ trace (_checkDM_pass E is_set w).2).
Proof. unfold _checkDM_pass, bind, get. apply checkDM_hosts_quiet. Qed.

End CheckDM.
